(** * Docsend-to-PDF extension: slide capture and document assembly

    A shallow embedding of the two scripts of the extension,
    [content/content.js] (page discovery inside the document view) and
    [service_worker.js] (capture orchestration, retrying fetch, PDF
    assembly, file naming), together with the properties they satisfy.

    Conventions of the embedding.
    - A JavaScript string is the list of its UTF-16 code units.
    - A JavaScript number is [NaN] or an exact integer; the integers the
      scripts compute (attempt counters, slide counts, delays, small decimal
      strings) are far below 2^53, where doubles are exact.  A number that
      [parseInt] reads off the page is the number written there, which is
      the engine's value up to 2^53.
    - Regular expressions are written in a small abstract syntax and run by
      a backtracking matcher with the priorities of the JavaScript one.
    - The DOM is seen through [querySelectorAll], the body text and the
      title; nothing else of the page is read by the scripts.
    - An [async] function is a tree of events: what it asks of the browser
      and how it goes on with each answer. *)

From Stdlib Require Import String Ascii ZArith NArith Bool Lia List.
From Stdlib.Strings Require Import Byte.
From Stdlib Require Import DecimalString.
From Stdlib Require Import Sorting.Sorted.
Import ListNotations.

(* ===================================================================== *)
(** ** JavaScript strings, numbers and regular expressions               *)
(* ===================================================================== *)

Module Js.

Open Scope N_scope.

Definition code_unit := N.
Definition jsstring := list code_unit.

(** A string literal of the source (ASCII only) as code units. *)
Definition js (s : string) : jsstring :=
  map N_of_ascii (list_ascii_of_string s).

Definition in_range (lo hi c : code_unit) : bool := (lo <=? c) && (c <=? hi).

(** [\s], and the white space [trim] and [parseInt] strip: WhiteSpace and
    LineTerminator of ECMAScript. *)
Definition isWhiteSpace (c : code_unit) : bool :=
  in_range 9 13 c || (c =? 32) || (c =? 160) || (c =? 5760)
  || in_range 8192 8202 c || (c =? 8232) || (c =? 8233) || (c =? 8239)
  || (c =? 8287) || (c =? 12288) || (c =? 65279).

(** [\d] *)
Definition isDigit (c : code_unit) : bool := in_range 48 57 c.

(** [\w] *)
Definition isWordChar (c : code_unit) : bool :=
  isDigit c || in_range 65 90 c || in_range 97 122 c || (c =? 95).

(** What [.] refuses. *)
Definition isLineTerminator (c : code_unit) : bool :=
  (c =? 10) || (c =? 13) || (c =? 8232) || (c =? 8233).

(** Canonicalisation under the [i] flag, on the letters the patterns use. *)
Definition toUpper (c : code_unit) : code_unit :=
  if in_range 97 122 c then c - 32 else c.

Fixpoint dropWhile (p : code_unit -> bool) (s : jsstring) : jsstring :=
  match s with
  | c :: s' => if p c then dropWhile p s' else s
  | [] => []
  end.

(** [String.prototype.trim] *)
Definition trim (s : jsstring) : jsstring :=
  rev (dropWhile isWhiteSpace (rev (dropWhile isWhiteSpace s))).

Definition eqb_string (a b : jsstring) : bool :=
  if list_eq_dec N.eq_dec a b then true else false.

(** *** Numbers *)

Inductive number : Type :=
| NaN
| Num (z : Z).

Definition nmul (a b : number) : number :=
  match a, b with
  | Num x, Num y => Num (x * y)
  | _, _ => NaN
  end.

(** [a <= b] and [a >= b]; a comparison with [NaN] is false. *)
Definition nle (a b : number) : bool :=
  match a, b with
  | Num x, Num y => (x <=? y)%Z
  | _, _ => false
  end.
Definition nge (a b : number) : bool := nle b a.

Definition nlt (a b : number) : bool :=
  match a, b with
  | Num x, Num y => (x <? y)%Z
  | _, _ => false
  end.

Definition of_nat (n : nat) : number := Num (Z.of_nat n).

(** *** parseInt, called without a radix

    Numbers are whole numbers written out in full.  For a string of
    digits whose value is at most 2^53 this is the value the engine gives;
    above, the engine rounds to the nearest double, and to [Infinity]
    from 309 digits on, and [parseInt] below stands for the number
    written, not for these. *)

Definition digit_val (radix : N) (c : code_unit) : option N :=
  let v := if in_range 48 57 c then Some (c - 48)
           else if in_range 97 122 c then Some (c - 87)
           else if in_range 65 90 c then Some (c - 55)
           else None in
  match v with
  | Some d => if d <? radix then Some d else None
  | None => None
  end.

(** The value of the longest prefix of digits. *)
Fixpoint digits_val (radix acc : N) (s : jsstring) : N :=
  match s with
  | c :: s' =>
      match digit_val radix c with
      | Some d => digits_val radix (acc * radix + d) s'
      | None => acc
      end
  | [] => acc
  end.

Definition strip_sign (s : jsstring) : bool * jsstring :=
  match s with
  | c :: t => if c =? 45 then (true, t) else if c =? 43 then (false, t) else (false, s)
  | [] => (false, s)
  end.

Definition strip_hex_prefix (s : jsstring) : N * jsstring :=
  match s with
  | c0 :: cx :: t =>
      if (c0 =? 48) && ((cx =? 120) || (cx =? 88)) then (16, t) else (10, s)
  | _ => (10, s)
  end.

Definition parseInt (s : jsstring) : number :=
  let (neg, s2) := strip_sign (dropWhile isWhiteSpace s) in
  let (radix, s3) := strip_hex_prefix s2 in
  match s3 with
  | c :: _ =>
      match digit_val radix c with
      | Some _ =>
          let v := Z.of_N (digits_val radix 0 s3) in
          Num (if neg then - v else v)%Z
      | None => NaN
      end
  | [] => NaN
  end.

(** [parseInt(x)] where [x] may be [undefined]: the string "undefined". *)
Definition parseInt_opt (s : option jsstring) : number :=
  match s with
  | Some s => parseInt s
  | None => NaN
  end.

(** *** Regular expressions *)

Inductive regex : Type :=
| REmpty
| RClass (p : code_unit -> bool)      (* one code unit of a class *)
| RSeq (r1 r2 : regex)
| RAlt (r1 r2 : regex)                (* r1|r2, r1 tried first *)
| RStar (p : code_unit -> bool)       (* greedy c* for a class c *)
| RGroup (i : nat) (r : regex)        (* the i-th capturing group *)
| RWordBoundary                       (* \b *)
| REnd.                               (* $ without the m flag *)

Definition RPlus (p : code_unit -> bool) : regex := RSeq (RClass p) (RStar p).
Definition RChar (c : code_unit) : regex := RClass (N.eqb c).
Definition RCharI (c : code_unit) : regex :=
  RClass (fun x => toUpper x =? toUpper c).

Fixpoint RLit (s : jsstring) : regex :=
  match s with
  | [] => REmpty
  | [c] => RChar c
  | c :: s' => RSeq (RChar c) (RLit s')
  end.

Fixpoint RLitI (s : jsstring) : regex :=
  match s with
  | [] => REmpty
  | [c] => RCharI c
  | c :: s' => RSeq (RCharI c) (RLitI s')
  end.

(** The matcher's position: the input read so far (last unit first), the
    input still to read, and the groups captured on the way. *)
Record mstate : Type := MState {
  consumed : list code_unit;
  rest : jsstring;
  caps : list (nat * jsstring)
}.

Definition set_cap (i : nat) (from to : mstate) : mstate :=
  let n := (length (consumed to) - length (consumed from))%nat in
  MState (consumed to) (rest to)
         ((i, rev (firstn n (consumed to))) :: caps to).

Definition at_word_boundary (s : mstate) : bool :=
  let before := match consumed s with c :: _ => isWordChar c | [] => false end in
  let after := match rest s with c :: _ => isWordChar c | [] => false end in
  xorb before after.

Fixpoint star_loop (p : code_unit -> bool) (k : mstate -> option mstate)
    (pre : list code_unit) (inp : jsstring) (cs : list (nat * jsstring))
    : option mstate :=
  match inp with
  | c :: inp' =>
      if p c then
        match star_loop p k (c :: pre) inp' cs with
        | Some r => Some r
        | None => k (MState pre inp cs)
        end
      else k (MState pre inp cs)
  | [] => k (MState pre inp cs)
  end.

(** Backtracking match of [r] at the position [s], then [k]. *)
Fixpoint rmatch (r : regex) (k : mstate -> option mstate) (s : mstate)
    : option mstate :=
  match r with
  | REmpty => k s
  | RClass p =>
      match rest s with
      | c :: inp' => if p c then k (MState (c :: consumed s) inp' (caps s)) else None
      | [] => None
      end
  | RSeq r1 r2 => rmatch r1 (rmatch r2 k) s
  | RAlt r1 r2 =>
      match rmatch r1 k s with
      | Some x => Some x
      | None => rmatch r2 k s
      end
  | RStar p => star_loop p k (consumed s) (rest s) (caps s)
  | RGroup i r' => rmatch r' (fun s' => k (set_cap i s s')) s
  | RWordBoundary => if at_word_boundary s then k s else None
  | REnd => match rest s with [] => k s | _ :: _ => None end
  end.

(** A successful match: where it starts, the text before it, the text it
    covers, the text after it, and its groups. *)
Record match_result : Type := MatchResult {
  m_before : jsstring;
  m_text : jsstring;
  m_after : jsstring;
  m_groups : list (nat * jsstring)
}.

Definition result_of (pre : list code_unit) (s' : mstate) : match_result :=
  let n := (length (consumed s') - length pre)%nat in
  MatchResult (rev pre) (rev (firstn n (consumed s'))) (rest s') (caps s').

(** The leftmost match, as [RegExp.prototype.exec] finds it. *)
Fixpoint search (r : regex) (pre : list code_unit) (inp : jsstring)
    : option match_result :=
  match rmatch r Some (MState pre inp []) with
  | Some s' => Some (result_of pre s')
  | None =>
      match inp with
      | c :: inp' => search r (c :: pre) inp'
      | [] => None
      end
  end.

(** [str.match(r)] for a pattern without the [g] flag. *)
Definition match_ (r : regex) (s : jsstring) : option match_result :=
  search r [] s.

(** [m[i]] *)
Fixpoint lookup_group (i : nat) (g : list (nat * jsstring)) : option jsstring :=
  match g with
  | (j, v) :: g' => if Nat.eqb i j then Some v else lookup_group i g'
  | [] => None
  end.
Definition group (i : nat) (m : match_result) : option jsstring :=
  lookup_group i (m_groups m).

(** [str.replace(r, repl)] for a pattern without the [g] flag and a
    replacement without [$]. *)
Definition replace (r : regex) (repl s : jsstring) : jsstring :=
  match match_ r s with
  | Some m => m_before m ++ repl ++ m_after m
  | None => s
  end.

(** [str.replace(r, repl)] for a pattern with the [g] flag: every match,
    left to right, each search starting where the previous match ended (one
    unit further after an empty match). *)
Fixpoint replace_loop (fuel : nat) (r : regex) (repl : jsstring)
    (pre : list code_unit) (inp : jsstring) : jsstring :=
  match fuel with
  | O => inp
  | S fuel' =>
      match rmatch r Some (MState pre inp []) with
      | Some s' =>
          if (length pre <? length (consumed s'))%nat
          then repl ++ replace_loop fuel' r repl (consumed s') (rest s')
          else match inp with
               | c :: inp' => repl ++ c :: replace_loop fuel' r repl (c :: pre) inp'
               | [] => repl
               end
      | None =>
          match inp with
          | c :: inp' => c :: replace_loop fuel' r repl (c :: pre) inp'
          | [] => []
          end
      end
  end.

Definition replaceAll (r : regex) (repl s : jsstring) : jsstring :=
  replace_loop (S (length s)) r repl [] s.

(** [str.substring(0, n)] *)
Definition substring0 (n : nat) (s : jsstring) : jsstring := firstn n s.

(** [a || b] on strings: the empty string is falsy. *)
Definition or_else (a b : jsstring) : jsstring :=
  match a with
  | [] => b
  | _ :: _ => a
  end.

End Js.

(* ===================================================================== *)
(** ** content/content.js: page discovery in the document view           *)
(* ===================================================================== *)

Module Content.

Import Js.
Open Scope string_scope.

(** The CSS selectors the script uses, in abstract syntax. *)
Inductive selector : Type :=
| SelTag (tag : string)                       (* h1 *)
| SelId (id : string)                         (* #id *)
| SelClass (cls : string)                     (* .cls *)
| SelAttr (attr : string)                     (* [attr] *)
| SelAttrEq (attr value : string)             (* [attr="value"] *)
| SelAttrHas (attr part : string)             (* [attr*="part"] *)
| SelTagAttrEq (tag attr value : string)      (* tag[attr="value"] *)
| SelTagAttrHas (tag attr part : string)      (* tag[attr*="part"] *)
| SelTagNotAttr (tag attr : string)           (* tag:not([attr]) *)
| SelDescendant (anc desc : selector)         (* anc desc *)
| SelOr (a b : selector).                     (* a, b *)

(** What the script reads of an element: its text, its computed style and
    the height of its bounding box (in layout units). *)
Record Element : Type := {
  textContent : jsstring;
  display : jsstring;
  visibility : jsstring;
  rect_height : Z
}.

(** What the script reads of the document. *)
Record Document : Type := {
  querySelectorAll : selector -> list Element;
  body_innerText : jsstring;
  title : jsstring
}.

Definition querySelector (d : Document) (sel : selector) : option Element :=
  hd_error (querySelectorAll d sel).

(** *** isAuthRequired *)

Definition shown (el : Element) : bool :=
  negb (eqb_string (display el) (js "none"))
  && negb (eqb_string (visibility el) (js "hidden")).

Definition gateSelectors : list selector :=
  [ SelId "link-auth-wall";
    SelAttrEq "data-testid" "visitor-auth";
    SelClass "visitor-gate";
    SelClass "email-gate";
    SelId "visitor-form" ].

Fixpoint gate_loop (d : Document) (sels : list selector) : bool :=
  match sels with
  | [] => false
  | sel :: sels' =>
      match querySelector d sel with
      | Some el => if shown el then true else gate_loop d sels'
      | None => gate_loop d sels'
      end
  end.

Definition emailInputVisible (d : Document) : bool :=
  match querySelector d (SelTagAttrEq "input" "type" "email") with
  | Some emailInput => shown emailInput && (0 <? rect_height emailInput)%Z
  | None => false
  end.

Definition isAuthRequired (d : Document) : bool :=
  if emailInputVisible d then true else gate_loop d gateSelectors.

(** *** getSlideInfo *)

Record SlideInfo : Type := { current : number; total : number }.

Definition pageLabelSelectors : list selector :=
  [ SelClass "page-label";
    SelAttrHas "class" "page-label";
    SelAttrHas "class" "pageLabel";
    SelAttrHas "class" "PageLabel";
    SelAttrHas "class" "page-number";
    SelAttrHas "class" "pageNumber";
    SelAttrHas "class" "slide-counter";
    SelAttrHas "class" "pagination";
    SelAttrHas "data-testid" "page" ].

Definition slash : code_unit := 47%N.

(** The source pattern /(\d+)\s*(?:\/|of|\/\s* )\s*(\d+)/i         (it has no
    space; one is written here after the inner star). *)
Definition re_pageLabel : regex :=
  RSeq (RGroup 1 (RPlus isDigit))
  (RSeq (RStar isWhiteSpace)
  (RSeq (RAlt (RChar slash)
        (RAlt (RLitI (js "of"))
              (RSeq (RChar slash) (RStar isWhiteSpace))))
  (RSeq (RStar isWhiteSpace)
        (RGroup 2 (RPlus isDigit))))).

(** The source pattern /\b(\d+)\s*(?:\/|of)\s*(\d+)\b/i *)
Definition re_bodyText : regex :=
  RSeq RWordBoundary
  (RSeq (RGroup 1 (RPlus isDigit))
  (RSeq (RStar isWhiteSpace)
  (RSeq (RAlt (RChar slash) (RLitI (js "of")))
  (RSeq (RStar isWhiteSpace)
  (RSeq (RGroup 2 (RPlus isDigit))
        RWordBoundary))))).

Definition dquote : code_unit := 34%N.

(** /"(?:pageCount|page_count|totalPages|total_pages|numPages)":\s*(\d+)/ *)
Definition re_pageCount : regex :=
  RSeq (RChar dquote)
  (RSeq (RAlt (RLit (js "pageCount"))
        (RAlt (RLit (js "page_count"))
        (RAlt (RLit (js "totalPages"))
        (RAlt (RLit (js "total_pages"))
              (RLit (js "numPages"))))))
  (RSeq (RChar dquote)
  (RSeq (RChar 58%N)
  (RSeq (RStar isWhiteSpace)
        (RGroup 1 (RPlus isDigit)))))).

(** Method 1: parse the page label element. *)
Fixpoint pageLabel_loop (d : Document) (sels : list selector) : option SlideInfo :=
  match sels with
  | [] => None
  | sel :: sels' =>
      match querySelector d sel with
      | Some el =>
          match match_ re_pageLabel (textContent el) with
          | Some m =>
              Some {| current := parseInt_opt (group 1 m);
                      total := parseInt_opt (group 2 m) |}
          | None => pageLabel_loop d sels'
          end
      | None => pageLabel_loop d sels'
      end
  end.

Definition method1 (d : Document) : option SlideInfo :=
  pageLabel_loop d pageLabelSelectors.

(** Method 2: search all the text for "X of Y" or "X / Y". *)
Definition method2 (d : Document) : option SlideInfo :=
  match match_ re_bodyText (body_innerText d) with
  | Some pagePatterns =>
      let current := parseInt_opt (group 1 pagePatterns) in
      let total := parseInt_opt (group 2 pagePatterns) in
      if nge total (Num 1) && nle total (Num 500)
         && nge current (Num 1) && nle current total
      then Some {| current := current; total := total |}
      else None
  | None => None
  end.

Definition thumbnailSelectors : list selector :=
  [ SelAttrHas "class" "thumbnail";
    SelAttrHas "class" "page-thumb";
    SelDescendant (SelAttrHas "class" "sidebar") (SelAttrHas "class" "page");
    SelAttr "data-page";
    SelAttr "data-slide";
    SelAttrHas "class" "nav-item" ].

(** Method 3: count thumbnail elements. *)
Fixpoint thumbnail_loop (d : Document) (sels : list selector) : option SlideInfo :=
  match sels with
  | [] => None
  | sel :: sels' =>
      let thumbnails := querySelectorAll d sel in
      if (1 <? List.length thumbnails)%nat
      then Some {| current := Num 1; total := of_nat (List.length thumbnails) |}
      else thumbnail_loop d sels'
  end.

Definition method3 (d : Document) : option SlideInfo :=
  thumbnail_loop d thumbnailSelectors.

(** Method 4: look for a page count in the inline scripts. *)
Fixpoint script_loop (scripts : list Element) : option SlideInfo :=
  match scripts with
  | [] => None
  | script :: scripts' =>
      match match_ re_pageCount (textContent script) with
      | Some pageCountMatch =>
          Some {| current := Num 1; total := parseInt_opt (group 1 pageCountMatch) |}
      | None => script_loop scripts'
      end
  end.

Definition method4 (d : Document) : option SlideInfo :=
  script_loop (querySelectorAll d (SelTagNotAttr "script" "src")).

(** Method 5 of the source only writes to the console. *)
Definition orElse {A} (a : option A) (b : option A) : option A :=
  match a with
  | Some x => Some x
  | None => b
  end.

Definition getSlideInfo (d : Document) : option SlideInfo :=
  orElse (method1 d) (orElse (method2 d) (orElse (method3 d) (method4 d))).

(** *** getDocumentTitle *)

Definition titleSelector : selector :=
  SelOr (SelAttrHas "class" "document-title")
  (SelOr (SelAttrHas "class" "doc-title")
  (SelOr (SelTag "h1")
         (SelDescendant (SelAttrHas "class" "header") (SelTag "h2")))).

(** /\s*[-|]\s*DocSend.*$/i *)
Definition re_titleSuffix : regex :=
  RSeq (RStar isWhiteSpace)
  (RSeq (RClass (fun c => (c =? 45) || (c =? 124))%N)
  (RSeq (RStar isWhiteSpace)
  (RSeq (RLitI (js "DocSend"))
  (RSeq (RStar (fun c => negb (isLineTerminator c)))
        REnd)))).

Definition default_title : jsstring := js "docsend-presentation".

Definition getDocumentTitle (d : Document) : jsstring :=
  match querySelector d titleSelector with
  | Some titleEl => trim (textContent titleEl)
  | None =>
      let pageTitle := trim (replace re_titleSuffix [] (title d)) in
      or_else pageTitle default_title
  end.

(** *** The GET_SLIDE_INFO branch of the message listener *)

Inductive SlideInfoResponse : Type :=
| SlidesFound (currentSlide totalSlides : number) (documentTitle : jsstring)
| AuthRequired                         (* { authRequired: true } *)
| DetectError (error : jsstring).      (* { error: ... } *)

Definition undetectable_message : jsstring :=
  js "Could not detect slides on this page. Try refreshing.".

Definition onGetSlideInfo (d : Document) : SlideInfoResponse :=
  match getSlideInfo d with
  | Some slideInfo =>
      SlidesFound (current slideInfo) (total slideInfo) (getDocumentTitle d)
  | None =>
      if isAuthRequired d then AuthRequired
      else DetectError undetectable_message
  end.

End Content.

(* ===================================================================== *)
(** ** service_worker.js: capture orchestration and PDF generation       *)
(* ===================================================================== *)

Module Worker.

Import Js.
Open Scope Z_scope.

(** *** Values *)

Definition bytes := list byte.

(** A thrown value: the name and the message of an [Error]. *)
Record Error : Type := { err_name : jsstring; message : jsstring }.

Definition newError (msg : jsstring) : Error :=
  {| err_name := js "Error"; message := msg |}.
Definition typeError (msg : jsstring) : Error :=
  {| err_name := js "TypeError"; message := msg |}.

(** [Error.prototype.toString] *)
Definition error_toString (e : Error) : jsstring :=
  match err_name e, message e with
  | [], msg => msg
  | name, [] => name
  | name, msg => (name ++ js ": " ++ msg)%list
  end.

(** How a promise settles. *)
Inductive settled (A : Type) : Type :=
| Fulfilled (a : A)
| Rejected (e : Error).
Arguments Fulfilled {A} a.
Arguments Rejected {A} e.

(** What [fetchImageWithRetry] hands back and [generatePdf] is given: an
    [ArrayBuffer], or [undefined]. *)
Inductive ImageData : Type :=
| ArrayBuf (b : bytes)
| Undefined.

(** What the script reads of a [Response]. *)
Record Response : Type := {
  status : Z;
  retry_after : option jsstring;      (* headers.get('Retry-After') *)
  body : settled bytes                (* how arrayBuffer() settles *)
}.

Definition ok (r : Response) : bool := (200 <=? status r) && (status r <=? 299).

Inductive ContentMessage : Type :=
| FETCH_SLIDE_URLS (totalSlides : Z)
| GO_TO_SLIDE (slideNumber : Z)
| GO_TO_NEXT_SLIDE
| GET_DOCUMENT_TITLE.

(** The answer of the content script: nothing, or an object of which the
    worker reads [urls] and [title]. *)
Inductive ContentResponse : Type :=
| NoResponse
| ResponseObj (urls : option (list jsstring)) (title : option jsstring).

Inductive PopupMessage : Type :=
| PROGRESS_UPDATE (current total : Z)
| CAPTURE_COMPLETE
| CAPTURE_ERROR (error : jsstring).

(** pdf-lib, as far as the script uses it. *)
Record Image : Type := { width : Z; height : Z }.
Record DrawOptions : Type := { x : Z; y : Z; draw_width : Z; draw_height : Z }.
Record Page : Type := {
  page_size : Z * Z;
  drawn : list (Image * DrawOptions)
}.
Definition PDFDocument := list Page.

(** The value of the global [activeCapture] when it is not [null]. *)
Record Capture : Type := { tabId : Z; totalSlides : Z }.

(** *** Events: what the worker asks of its surroundings *)

Inductive Event : Type :=
| Fetch (url : jsstring)                         (* fetch(url, {credentials}) *)
| ArrayBuffer (r : Response)                     (* response.arrayBuffer() *)
| SetTimeout (ms : number)                       (* delay(ms) *)
| TabsSendMessage (tab : Z) (m : ContentMessage) (* chrome.tabs.sendMessage *)
| CaptureVisibleTab                              (* chrome.tabs.captureVisibleTab *)
| EmbedPng (d : ImageData)                       (* pdfDoc.embedPng *)
| EmbedJpg (d : ImageData)                       (* pdfDoc.embedJpg *)
| PdfSave (doc : PDFDocument)                    (* pdfDoc.save() *)
| DownloadsDownload (url filename : jsstring)    (* chrome.downloads.download *)
| ReadActiveCapture                              (* activeCapture *)
| WriteActiveCapture (c : option Capture)        (* activeCapture = ... *)
| RuntimeSendMessage (m : PopupMessage)          (* chrome.runtime.sendMessage *)
| Atob (s : option jsstring)                     (* atob(s) *)
| CreateObjectURL (pdf : bytes)                  (* URL.createObjectURL(blob) *)
| RevokeObjectURLAfter (url : jsstring) (ms : Z)  (* setTimeout(revoke, ms) *)
| SendResponse (started : bool).                 (* sendResponse({ started }) *)

Definition reply (ev : Event) : Type :=
  match ev with
  | Fetch _ => settled Response
  | ArrayBuffer _ => settled bytes
  | SetTimeout _ => unit
  | TabsSendMessage _ _ => settled ContentResponse
  | CaptureVisibleTab => settled jsstring
  | EmbedPng _ => settled Image
  | EmbedJpg _ => settled Image
  | PdfSave _ => settled bytes
  | DownloadsDownload _ _ => settled unit
  | ReadActiveCapture => option Capture
  | WriteActiveCapture _ => unit
  | RuntimeSendMessage _ => unit
  | Atob _ => settled jsstring
  | CreateObjectURL _ => jsstring
  | RevokeObjectURLAfter _ _ => unit
  | SendResponse _ => unit
  end.

(** The events a function waits for; at the others it goes on at once. *)
Definition is_await (ev : Event) : bool :=
  match ev with
  | Fetch _ | ArrayBuffer _ | SetTimeout _ | TabsSendMessage _ _
  | CaptureVisibleTab | EmbedPng _ | EmbedJpg _ | PdfSave _
  | DownloadsDownload _ _ => true
  | _ => false
  end.

(** *** Programs *)

Inductive Prog (A : Type) : Type :=
| Ret (a : A)
| Throw (e : Error)
| Vis (ev : Event) (k : reply ev -> Prog A).
Arguments Ret {A} a.
Arguments Throw {A} e.
Arguments Vis {A} ev k.

Fixpoint bind {A B} (p : Prog A) (f : A -> Prog B) : Prog B :=
  match p with
  | Ret a => f a
  | Throw e => Throw e
  | Vis ev k => Vis ev (fun r => bind (k r) f)
  end.

Declare Scope prog_scope.
Delimit Scope prog_scope with prog.
Notation "x <- p ;; q" := (bind p (fun x => q))
  (at level 61, p at next level, right associativity) : prog_scope.
Notation "p ;; q" := (bind p (fun _ => q))
  (at level 61, right associativity) : prog_scope.
Open Scope prog_scope.

(** try { p } catch (error) { h error } *)
Fixpoint try_catch {A} (p : Prog A) (h : Error -> Prog A) : Prog A :=
  match p with
  | Ret a => Ret a
  | Throw e => h e
  | Vis ev k => Vis ev (fun r => try_catch (k r) h)
  end.

(** try { p } finally { f } *)
Fixpoint try_finally {A} (p : Prog A) (f : Prog unit) : Prog A :=
  match p with
  | Ret a => f ;; Ret a
  | Throw e => f ;; Throw e
  | Vis ev k => Vis ev (fun r => try_finally (k r) f)
  end.

Definition perform (ev : Event) : Prog (reply ev) := Vis ev Ret.

(** [await] of a promise: its value, or its rejection thrown. *)
Definition settle {A} (r : settled A) : Prog A :=
  match r with
  | Fulfilled a => Ret a
  | Rejected e => Throw e
  end.

Definition fetch (url : jsstring) : Prog Response := Vis (Fetch url) settle.
Definition arrayBuffer (r : Response) : Prog bytes := Vis (ArrayBuffer r) settle.
Definition atob (s : option jsstring) : Prog jsstring := Vis (Atob s) settle.

(** *** The functions of the script

    What the script writes to the console is left out. *)

Definition slideTransitionDelay : Z := 800.
Definition screenshotCooldown : Z := 500.

Definition delay (ms : number) : Prog unit := perform (SetTimeout ms).

Definition captureScreenshot (tab : Z) : Prog jsstring :=
  Vis CaptureVisibleTab settle.

Definition sendToContentScript (tab : Z) (m : ContentMessage) : Prog ContentResponse :=
  Vis (TabsSendMessage tab m) settle.

Definition sendProgressUpdate (current total : Z) : Prog unit :=
  perform (RuntimeSendMessage (PROGRESS_UPDATE current total)).

Definition sendComplete : Prog unit :=
  perform (RuntimeSendMessage CAPTURE_COMPLETE).

(** error.message || String(error) *)
Definition sendError (error : Error) : Prog unit :=
  perform (RuntimeSendMessage
             (CAPTURE_ERROR (or_else (message error) (error_toString error)))).

(** **** fetchImageWithRetry *)

Inductive loop_ctl (A : Type) : Type :=
| Continue
| Return (a : A).
Arguments Continue {A}.
Arguments Return {A} a.

Definition decimal (z : Z) : jsstring :=
  js (DecimalString.NilZero.string_of_int (Z.to_int z)).

(** response.headers.get('Retry-After') || '2' *)
Definition retryAfter_header (r : Response) : jsstring :=
  match retry_after r with
  | Some h => or_else h (js "2")
  | None => js "2"
  end.

(** retryAfter * 1000 * attempt *)
Definition backoff (r : Response) (attempt : nat) : number :=
  nmul (nmul (parseInt (retryAfter_header r)) (Num 1000)) (of_nat attempt).

(** The [try] block of one iteration. *)
Definition attempt_body (url : jsstring) (attempt : nat) : Prog (loop_ctl ImageData) :=
  response <- fetch url ;;
  if status response =? 429 then
    delay (backoff response attempt) ;;
    Ret Continue
  else if negb (ok response) then
    Throw (newError (js "HTTP " ++ decimal (status response))%list)
  else
    b <- arrayBuffer response ;;
    Ret (Return (ArrayBuf b)).

(** The [catch] block of one iteration. *)
Definition attempt_catch (maxRetries attempt : nat) (error : Error)
    : Prog (loop_ctl ImageData) :=
  if Nat.eqb attempt maxRetries then Throw error
  else delay (Num (1000 * Z.of_nat attempt)) ;; Ret Continue.

(** The loop [for (attempt = 1; attempt <= maxRetries; attempt++)], with
    [remaining = maxRetries + 1 - attempt] iterations to go; after the last
    one the function body ends without a [return]. *)
Fixpoint retry_loop (url : jsstring) (maxRetries remaining attempt : nat)
    : Prog ImageData :=
  match remaining with
  | O => Ret Undefined
  | S remaining' =>
      ctl <- try_catch (attempt_body url attempt)
                       (attempt_catch maxRetries attempt) ;;
      match ctl with
      | Return v => Ret v
      | Continue => retry_loop url maxRetries remaining' (S attempt)
      end
  end.

Definition fetchImageWithRetry (url : jsstring) (maxRetries : nat) : Prog ImageData :=
  retry_loop url maxRetries maxRetries 1.

Definition default_maxRetries : nat := 3.

(** **** fetchSlideUrlsViaApi *)

Definition fetchSlideUrlsViaApi (tab total : Z) : Prog (option (list jsstring)) :=
  try_catch
    (response <- sendToContentScript tab (FETCH_SLIDE_URLS total) ;;
     match response with
     | NoResponse => Throw (typeError (js "Cannot read properties of undefined"))
     | ResponseObj (Some urls) _ =>
         if Z.of_nat (List.length urls) =? total then Ret (Some urls) else Ret None
     | ResponseObj None _ => Ret None
     end)
    (fun _ => Ret None).

(** **** captureViaScreenshots *)

(** dataUrl.split(',')[1] *)
Fixpoint until_comma (s : jsstring) : jsstring :=
  match s with
  | c :: s' => if (c =? 44)%N then [] else c :: until_comma s'
  | [] => []
  end.
Fixpoint after_comma (s : jsstring) : option jsstring :=
  match s with
  | c :: s' => if (c =? 44)%N then Some s' else after_comma s'
  | [] => None
  end.
Definition split_comma_1 (s : jsstring) : option jsstring :=
  option_map until_comma (after_comma s).

Definition to_byte (c : code_unit) : byte :=
  match Byte.of_N (c mod 256) with
  | Some b => b
  | None => x00
  end.

Definition dataUrlToArrayBuffer (dataUrl : jsstring) : Prog ImageData :=
  let base64 := split_comma_1 dataUrl in
  binaryString <- atob base64 ;;
  Ret (ArrayBuf (map to_byte binaryString)).

(** The loop [for (i = 1; i <= totalSlides; i++)]. *)
Fixpoint screenshot_loop (tab total : Z) (remaining : nat) (i : Z)
    (screenshots : list ImageData) : Prog (list ImageData) :=
  match remaining with
  | O => Ret screenshots
  | S remaining' =>
      sendProgressUpdate i total ;;
      dataUrl <- captureScreenshot tab ;;
      buf <- dataUrlToArrayBuffer dataUrl ;;
      (if i <? total then
         sendToContentScript tab GO_TO_NEXT_SLIDE ;;
         delay (Num slideTransitionDelay) ;;
         delay (Num screenshotCooldown)
       else Ret tt) ;;
      screenshot_loop tab total remaining' (i + 1) (screenshots ++ [buf])
  end.

Definition captureViaScreenshots (tab total : Z) : Prog (list ImageData) :=
  sendToContentScript tab (GO_TO_SLIDE 1) ;;
  delay (Num slideTransitionDelay) ;;
  screenshot_loop tab total (Z.to_nat total) 1 [].

(** **** fetchImagesFromUrls *)

Fixpoint fetchImages_loop (urls : list jsstring) (len : nat) (i : nat)
    (images : list ImageData) : Prog (list ImageData) :=
  match urls with
  | [] => Ret images
  | url :: urls' =>
      sendProgressUpdate (Z.of_nat i + 1) (Z.of_nat len) ;;
      imageData <- fetchImageWithRetry url default_maxRetries ;;
      fetchImages_loop urls' len (S i) (images ++ [imageData])
  end.

Definition fetchImagesFromUrls (urls : list jsstring) : Prog (list ImageData) :=
  fetchImages_loop urls (List.length urls) 0 [].

(** **** generatePdf *)

(** new Uint8Array(imageData) *)
Definition uint8Array (d : ImageData) : bytes :=
  match d with
  | ArrayBuf b => b
  | Undefined => []
  end.

Definition byte_is (bs : bytes) (i : nat) (b : byte) : bool :=
  match nth_error bs i with
  | Some b' => Byte.eqb b' b
  | None => false
  end.

(** bytes[0] === 0x89 && bytes[1] === 0x50 && bytes[2] === 0x4E && bytes[3] === 0x47 *)
Definition has_png_signature (bs : bytes) : bool :=
  byte_is bs 0 x89 && byte_is bs 1 x50 && byte_is bs 2 x4e && byte_is bs 3 x47.

Definition embed (imageData : ImageData) : Prog Image :=
  if has_png_signature (uint8Array imageData)
  then Vis (EmbedPng imageData) settle
  else Vis (EmbedJpg imageData) settle.

(** pdfDoc.addPage([image.width, image.height]) and page.drawImage(image,
    {x: 0, y: 0, width: image.width, height: image.height}) *)
Definition page_for (image : Image) : Page :=
  {| page_size := (width image, height image);
     drawn := [ (image, {| x := 0; y := 0;
                           draw_width := width image;
                           draw_height := height image |}) ] |}.

Fixpoint addPages (imageDataArray : list ImageData) (pdfDoc : PDFDocument)
    : Prog PDFDocument :=
  match imageDataArray with
  | [] => Ret pdfDoc
  | imageData :: more =>
      image <- embed imageData ;;
      addPages more (pdfDoc ++ [page_for image])
  end.

Definition generatePdf (imageDataArray : list ImageData) : Prog bytes :=
  pdfDoc <- addPages imageDataArray [] ;;
  Vis (PdfSave pdfDoc) settle.

(** **** downloadPdf *)

(** The class of the first pattern: less-than, greater-than, colon, double
    quote, slash, backslash, bar, question mark and star. *)
Definition isIllegal (c : code_unit) : bool :=
  existsb (N.eqb c) [60; 62; 58; 34; 47; 92; 124; 63; 42]%N.

Definition default_name : jsstring := js "docsend-presentation".

Definition safeName (filename : jsstring) : jsstring :=
  or_else
    (substring0 100
       (replaceAll (RPlus isWhiteSpace) (js "-")
          (replaceAll (RClass isIllegal) [] filename)))
    default_name.

Definition downloadPdf (pdfBytes : bytes) (filename : jsstring) : Prog unit :=
  url <- perform (CreateObjectURL pdfBytes) ;;
  Vis (DownloadsDownload url (safeName filename ++ js ".pdf")%list) settle ;;
  perform (RevokeObjectURLAfter url 60000).

(** **** startCapture *)

Definition busy_message : jsstring := js "A capture is already in progress".

(** The end of the [try] block, from "Generate PDF" on. *)
Definition assemble_and_deliver (total : Z) (imageDataArray : list ImageData)
    (documentTitle : jsstring) : Prog unit :=
  sendProgressUpdate total total ;;
  pdfBytes <- generatePdf imageDataArray ;;
  downloadPdf pdfBytes documentTitle ;;
  sendComplete.

(** titleResponse.title || 'docsend-presentation' *)
Definition title_or_default (titleResponse : ContentResponse) : Prog jsstring :=
  match titleResponse with
  | NoResponse => Throw (typeError (js "Cannot read properties of undefined"))
  | ResponseObj _ (Some t) => Ret (or_else t default_name)
  | ResponseObj _ None => Ret default_name
  end.

(** The body of the [try] block. *)
Definition capture_body (tab total : Z) : Prog unit :=
  titleResponse <- sendToContentScript tab GET_DOCUMENT_TITLE ;;
  documentTitle <- title_or_default titleResponse ;;
  urls <- fetchSlideUrlsViaApi tab total ;;
  imageDataArray <-
    match urls with
    | Some urls => fetchImagesFromUrls urls
    | None => captureViaScreenshots tab total
    end ;;
  assemble_and_deliver total imageDataArray documentTitle.

Definition startCapture (tab total : Z) : Prog unit :=
  active <- perform ReadActiveCapture ;;
  match active with
  | Some _ => sendError (newError busy_message)
  | None =>
      perform (WriteActiveCapture (Some {| tabId := tab; totalSlides := total |})) ;;
      try_finally
        (try_catch (capture_body tab total) sendError)
        (perform (WriteActiveCapture None))
  end.

(** The messages the listener of the worker answers. *)
Inductive RuntimeMessage : Type :=
| START_CAPTURE (tab total : Z)
| FETCH_PROGRESS (current total : Z).

(** *** Running the worker against its surroundings *)

(** The surroundings: how the network, the content script, the screen,
    pdf-lib and the browser answer.  The network, the content script and
    the screen may answer each call differently; they are asked with the
    number of calls already made to them. *)
Record Env : Type := {
  net : nat -> jsstring -> settled Response;
  content : nat -> Z -> ContentMessage -> settled ContentResponse;
  screen : nat -> settled jsstring;
  pdf_embedPng : ImageData -> settled Image;
  pdf_embedJpg : ImageData -> settled Image;
  pdf_save : PDFDocument -> settled bytes;
  decode_base64 : option jsstring -> settled jsstring;
  object_url : bytes -> jsstring;
  download : jsstring -> jsstring -> settled unit
}.

(** The state of the worker: its global variable, and the events so far
    (oldest first). *)
Record World : Type := {
  activeCapture : option Capture;
  history : list Event
}.

Definition initial : World := {| activeCapture := None; history := [] |}.

Definition is_fetch (ev : Event) : bool :=
  match ev with Fetch _ => true | _ => false end.
Definition is_content (ev : Event) : bool :=
  match ev with TabsSendMessage _ _ => true | _ => false end.
Definition is_capture (ev : Event) : bool :=
  match ev with CaptureVisibleTab => true | _ => false end.

Definition count (p : Event -> bool) (h : list Event) : nat :=
  List.length (filter p h).

Definition fetches (w : World) : nat := count is_fetch (history w).

Definition answer (env : Env) (w : World) (ev : Event) : reply ev :=
  match ev as e return reply e with
  | Fetch url => net env (fetches w) url
  | ArrayBuffer r => body r
  | SetTimeout _ => tt
  | TabsSendMessage tab m => content env (count is_content (history w)) tab m
  | CaptureVisibleTab => screen env (count is_capture (history w))
  | EmbedPng d => pdf_embedPng env d
  | EmbedJpg d => pdf_embedJpg env d
  | PdfSave doc => pdf_save env doc
  | DownloadsDownload url filename => download env url filename
  | ReadActiveCapture => activeCapture w
  | WriteActiveCapture _ => tt
  | RuntimeSendMessage _ => tt
  | Atob s => decode_base64 env s
  | CreateObjectURL pdf => object_url env pdf
  | RevokeObjectURLAfter _ _ => tt
  | SendResponse _ => tt
  end.

Definition record (ev : Event) (w : World) : World :=
  {| activeCapture :=
       match ev with
       | WriteActiveCapture c => c
       | _ => activeCapture w
       end;
     history := history w ++ [ev] |}.

Inductive Outcome (A : Type) : Type :=
| Returned (a : A)
| Thrown (e : Error).
Arguments Returned {A} a.
Arguments Thrown {A} e.

(** A program run to its end, each event answered as it occurs. *)
Fixpoint run (env : Env) {A} (p : Prog A) (w : World) : Outcome A * World :=
  match p with
  | Ret a => (Returned a, w)
  | Throw e => (Thrown e, w)
  | Vis ev k => run env (k (answer env w ev)) (record ev w)
  end.

(** What an observer sees of a run. *)
Definition popup_messages (w : World) : list PopupMessage :=
  flat_map (fun ev => match ev with RuntimeSendMessage m => [m] | _ => [] end)
           (history w).

Definition delays (w : World) : list number :=
  flat_map (fun ev => match ev with SetTimeout ms => [ms] | _ => [] end)
           (history w).

Definition screenshots_taken (w : World) : nat := count is_capture (history w).

(** *** Several calls in flight

    A call of an [async] function runs until its first [await]; there it
    is set aside, with what it waits for and how it goes on, until that
    promise settles.  Between two such moments the listener may be called
    again. *)

Inductive Task : Type :=
| Pending (ev : Event) (k : reply ev -> Prog unit).

Inductive Progress : Type :=
| Finished (o : Outcome unit)
| Suspended (t : Task).

Fixpoint run_sync (env : Env) (p : Prog unit) (w : World) : Progress * World :=
  match p with
  | Ret a => (Finished (Returned a), w)
  | Throw e => (Finished (Thrown e), w)
  | Vis ev k =>
      if is_await ev then (Suspended (Pending ev k), record ev w)
      else run_sync env (k (answer env w ev)) (record ev w)
  end.

Record System : Type := {
  world : World;
  tasks : list Task
}.

Definition spawn (env : Env) (p : Prog unit) (tasks_before tasks_after : list Task)
    (w : World) : System :=
  match run_sync env p w with
  | (Finished _, w') => {| world := w'; tasks := tasks_before ++ tasks_after |}
  | (Suspended t, w') => {| world := w'; tasks := tasks_before ++ t :: tasks_after |}
  end.

(** The message listener is called with [m].  For START_CAPTURE it calls
    [startCapture] without awaiting it, so that call runs to its first
    [await], and then answers [{ started: true }]; for FETCH_PROGRESS it
    forwards the progress to the popup. *)
Definition deliver (env : Env) (m : RuntimeMessage) (s : System) : System :=
  match m with
  | START_CAPTURE tab total =>
      let s' := spawn env (startCapture tab total) (tasks s) [] (world s) in
      {| world := record (SendResponse true) (world s'); tasks := tasks s' |}
  | FETCH_PROGRESS current total =>
      spawn env (sendProgressUpdate current total) (tasks s) [] (world s)
  end.

Inductive step (env : Env) : System -> System -> Prop :=
| step_deliver (s : System) (m : RuntimeMessage) :
    step env s (deliver env m s)
| step_settle (w : World) (before after : list Task)
      (ev : Event) (k : reply ev -> Prog unit) (r : reply ev) :
    step env {| world := w; tasks := before ++ Pending ev k :: after |}
             (spawn env (k r) before after w).

End Worker.

(* ===================================================================== *)
(** ** content/content.js: the slide URLs from the page_data endpoint    *)
(* ===================================================================== *)

Module PageData.

Import Js Content Worker.
Open Scope Z_scope.

(** s.split(u)[0] *)
Fixpoint before_unit (u : code_unit) (s : jsstring) : jsstring :=
  match s with
  | c :: s' => if (c =? u)%N then [] else c :: before_unit u s'
  | [] => []
  end.

Definition hash : code_unit := 35%N.
Definition question : code_unit := 63%N.

(** The source pattern /\/$/ *)
Definition re_trailingSlash : regex := RSeq (RChar slash) REnd.

(** window.location.href.split('#')[0].split('?')[0].replace(/\/$/, '') *)
Definition getBaseUrl (href : jsstring) : jsstring :=
  replace re_trailingSlash [] (before_unit question (before_unit hash href)).

(** `${baseUrl}/page_data/${slideNumber}` *)
Definition endpoint (href : jsstring) (slideNumber : Z) : jsstring :=
  (getBaseUrl href ++ js "/page_data/" ++ decimal slideNumber)%list.

(** What the script reads of a value: whether it is truthy and, when it
    is, the string that it is, or that fetch makes of it when the worker
    asks for it.  [undefined], [null], [false], 0 and the empty string are
    falsy; a string that is not empty is truthy and is its own text; every
    other truthy value (a number, [true], an object, an array) has the
    text of its conversion to a string. *)
Inductive Value : Type :=
| Falsy
| Truthy (text : jsstring).

(** The four fields that the script reads of the JSON of a page. *)
Record PageJson : Type := {
  imageUrl : Value;
  image_url : Value;
  url : Value;
  src : Value
}.

(** What the script reads of the response of the endpoint.  A body that
    parses to [null] makes the property access throw inside the [try],
    like a body that does not parse: both are a rejected [page_json]. *)
Record PageResponse : Type := {
  page_ok : bool;                     (* response.ok *)
  page_json : settled PageJson        (* how response.json() settles *)
}.

(** The endpoint: its answer to the [n]-th request of the script. *)
Definition Endpoint := nat -> jsstring -> settled PageResponse.

(** What the content script does on the way. *)
Inductive Trace : Type :=
| Requested (endpoint : jsstring)            (* fetch(endpoint, ...) *)
| ConsoleError (slideNumber : Z)             (* console.error(...) *)
| OnProgress (current total : Z).            (* onProgress(i, totalSlides) *)

Definition requests (t : list Trace) : list jsstring :=
  flat_map (fun ev => match ev with Requested e => [e] | _ => [] end) t.

Definition progress (t : list Trace) : list (Z * Z) :=
  flat_map (fun ev => match ev with OnProgress i n => [(i, n)] | _ => [] end) t.

(** a || b *)
Definition or_value (a b : Value) : Value :=
  match a with
  | Truthy _ => a
  | Falsy => b
  end.

(** fetchSlideImageUrl: the value it returns ([null] is falsy), and what
    it has done. *)
Definition fetchSlideImageUrl (server : Endpoint) (href : jsstring) (slideNumber : Z)
    (t : list Trace) : Value * list Trace :=
  let asked := (t ++ [Requested (endpoint href slideNumber)])%list in
  let failed := (Falsy, (asked ++ [ConsoleError slideNumber])%list) in
  match server (List.length (requests t)) (endpoint href slideNumber) with
  | Fulfilled response =>
      if negb (page_ok response) then failed
      else match page_json response with
           | Fulfilled data =>
               (or_value (imageUrl data)
                  (or_value (image_url data) (or_value (url data) (src data))),
                asked)
           | Rejected _ => failed
           end
  | Rejected _ => failed
  end.

(** The loop [for (i = 1; i <= totalSlides; i++)] of fetchAllSlideUrls. *)
Fixpoint fetchAll_loop (server : Endpoint) (href : jsstring) (total : Z)
    (remaining : nat) (i : Z) (urls : list jsstring) (t : list Trace)
    : option (list jsstring) * list Trace :=
  match remaining with
  | O => (Some urls, t)
  | S remaining' =>
      let (found, t1) := fetchSlideImageUrl server href i t in
      match found with
      | Truthy u =>
          fetchAll_loop server href total remaining' (i + 1)
                        (urls ++ [u]) (t1 ++ [OnProgress i total])
      | Falsy => (None, t1)
      end
  end.

(** fetchAllSlideUrls(totalSlides, onProgress), with the [onProgress] its
    caller gives.  The list holds the texts of the values pushed: the
    worker, which gets the list, counts its entries and hands each to
    fetch. *)
Definition fetchAllSlideUrls (server : Endpoint) (href : jsstring) (total : Z)
    (t : list Trace) : option (list jsstring) * list Trace :=
  fetchAll_loop server href total (Z.to_nat total) 1 [] t.

(** The FETCH_SLIDE_URLS branch of the message listener: [{ urls }].
    fetchAllSlideUrls does not reject, so the [catch] of the branch is
    never entered. *)
Definition onFetchSlideUrls (server : Endpoint) (href : jsstring) (total : Z)
    : ContentResponse :=
  ResponseObj (fst (fetchAllSlideUrls server href total [])) None.

(** The GET_DOCUMENT_TITLE branch: [{ title: getDocumentTitle() }]. *)
Definition onGetDocumentTitle (d : Document) : ContentResponse :=
  ResponseObj None (Some (getDocumentTitle d)).

End PageData.

(* ===================================================================== *)
(** ** popup/popup.js: the panels of the popup                           *)
(* ===================================================================== *)

Module Popup.

Import Js Content Worker.
Open Scope Z_scope.

(** The panels, by the member of [States] that names their element. *)
Inductive State : Type :=
| READY | PROGRESS | COMPLETE | ERROR | NOT_DOCSEND | AUTH_REQUIRED.

Definition state_eqb (a b : State) : bool :=
  match a, b with
  | READY, READY | PROGRESS, PROGRESS | COMPLETE, COMPLETE | ERROR, ERROR
  | NOT_DOCSEND, NOT_DOCSEND | AUTH_REQUIRED, AUTH_REQUIRED => true
  | _, _ => false
  end.

(** What the script writes of the document of the popup. *)
Record View : Type := {
  hidden : State -> bool;             (* classList.contains('hidden') *)
  progress_fill_width : jsstring;     (* #progress-fill style.width *)
  progress_text : jsstring;           (* #progress-text textContent *)
  error_message : jsstring;           (* #error-message textContent *)
  slide_info : jsstring;              (* #slide-info textContent *)
  download_btn_disabled : bool        (* #download-btn disabled *)
}.

(** The script: its two variables, and the document. *)
Record Popup : Type := {
  currentTabId : option Z;
  slideCount : option number;         (* [None] is [undefined] *)
  view : View
}.


(** What the popup sends to the worker. *)
Inductive Sent : Type :=
| SentStartCapture (tabId : option Z) (totalSlides : option number).

(** String(x), for a number or [undefined]; numbers are printed as
    integers. *)
Definition toString (x : option number) : jsstring :=
  match x with
  | None => js "undefined"
  | Some NaN => js "NaN"
  | Some (Num z) => decimal z
  end.



Definition with_view (f : View -> View) (p : Popup) : Popup :=
  {| currentTabId := currentTabId p; slideCount := slideCount p; view := f (view p) |}.

Definition showState (stateName : State) (v : View) : View :=
  {| hidden := fun state => negb (state_eqb state stateName);
     progress_fill_width := progress_fill_width v;
     progress_text := progress_text v;
     error_message := error_message v;
     slide_info := slide_info v;
     download_btn_disabled := download_btn_disabled v |}.

Definition showError (message : jsstring) (v : View) : View :=
  showState ERROR
    {| hidden := hidden v;
       progress_fill_width := progress_fill_width v;
       progress_text := progress_text v;
       error_message := message;
       slide_info := slide_info v;
       download_btn_disabled := download_btn_disabled v |}.

Section Percent.

(** Math.round((current / total) * 100), printed: the floating-point
    arithmetic of the engine is taken as given. *)
Variable percent : option number -> option number -> jsstring.

Definition updateProgress (current total : option number) (v : View) : View :=
  {| hidden := hidden v;
     progress_fill_width := (percent current total ++ js "%")%list;
     progress_text :=
       (js "Slide " ++ toString current ++ js " of " ++ toString total)%list;
     error_message := error_message v;
     slide_info := slide_info v;
     download_btn_disabled := download_btn_disabled v |}.

(** The click on the download button.  chrome.runtime.sendMessage is
    taken not to throw. *)
Definition startDownload (p : Popup) : Popup * Sent :=
  (with_view (fun v => updateProgress (Some (Num 0)) (slideCount p)
                                      (showState PROGRESS v)) p,
   SentStartCapture (currentTabId p) (slideCount p)).

(** The message listener; other messages are ignored. *)
Definition onMessage (message : PopupMessage) (v : View) : View :=
  match message with
  | PROGRESS_UPDATE current total =>
      updateProgress (Some (Num current)) (Some (Num total)) v
  | CAPTURE_COMPLETE => showState COMPLETE v
  | CAPTURE_ERROR error => showError error v
  end.

End Percent.






(** The state of the script when it is loaded. *)
Definition loaded (v : View) : Popup :=
  {| currentTabId := None; slideCount := Some (Num 0); view := v |}.

End Popup.

(* ===================================================================== *)
(** ** Vocabulary of the properties                                      *)
(* ===================================================================== *)

(** *** Regular expressions *)

Module RegexSpec.

Import Js.

(** What a successful match of [r] does to the position. *)
Fixpoint reach (r : regex) (s s' : mstate) : Prop :=
  match r with
  | REmpty => s' = s
  | RClass p =>
      exists c, p c = true /\ rest s = c :: rest s'
                /\ consumed s' = c :: consumed s /\ caps s' = caps s
  | RSeq r1 r2 => exists m, reach r1 s m /\ reach r2 m s'
  | RAlt r1 r2 => reach r1 s s' \/ reach r2 s s'
  | RStar p =>
      exists run, Forall (fun c => p c = true) run /\ rest s = (run ++ rest s')%list
                  /\ consumed s' = (rev run ++ consumed s)%list /\ caps s' = caps s
  | RGroup i r' => exists m, reach r' s m /\ s' = set_cap i s m
  | RWordBoundary => s' = s /\ at_word_boundary s = true
  | REnd => s' = s /\ rest s = []
  end.

(** One or more decimal digits. *)
Definition digits (s : jsstring) : Prop :=
  s <> [] /\ Forall (fun c => isDigit c = true) s.

(** A pattern without capturing groups. *)
Fixpoint groupless (r : regex) : bool :=
  match r with
  | RSeq r1 r2 | RAlt r1 r2 => groupless r1 && groupless r2
  | RGroup _ _ => false
  | _ => true
  end.

End RegexSpec.

(** *** The page locator *)

Module LocatorSpec.

Import Js Content.
Open Scope string_scope.

Definition emailInput : selector := SelTagAttrEq "input" "type" "email".

Definition all_heuristics_fail (d : Document) : Prop :=
  method1 d = None /\ method2 d = None /\ method3 d = None /\ method4 d = None.

(** Computed display and visibility say that the element is shown. *)
Definition style_shown (el : Element) : Prop :=
  display el <> js "none" /\ visibility el <> js "hidden".

(** What the script takes for a rendered gate: the first email input, shown
    and with a bounding box of positive height, or the first element of a
    known gate container, shown. *)
Definition gate_rendered (d : Document) : Prop :=
  (exists el, querySelector d emailInput = Some el
              /\ style_shown el /\ (0 < rect_height el)%Z)
  \/ (exists sel el, In sel gateSelectors /\ querySelector d sel = Some el
                     /\ style_shown el).

(** The reading that judges every gating control, email input or gate
    container, by display, visibility and a nonzero bounding box. *)
Definition visibly_rendered (el : Element) : bool :=
  negb (eqb_string (display el) (js "none"))
  && negb (eqb_string (visibility el) (js "hidden"))
  && (0 <? rect_height el)%Z.

Definition gating_control_visible (d : Document) : bool :=
  existsb (fun sel => match querySelector d sel with
                      | Some el => visibly_rendered el
                      | None => false
                      end)
          (emailInput :: gateSelectors).

(** No element under the selector [sel] reads as a page label. *)
Definition no_label (d : Document) (sel : selector) : Prop :=
  match querySelector d sel with
  | Some el => match_ re_pageLabel (textContent el) = None
  | None => True
  end.

Definition in_bounds (c t : Z) : Prop := (1 <= c <= t /\ 1 <= t <= 500)%Z.

End LocatorSpec.

(** *** File names *)

Module NamingSpec.

Import Js Worker.

Definition hyphen : code_unit := 45%N.

(** The characters that may not stand in a file name, as the naming rules
    of Windows give them (those of POSIX, the slash and NUL, are among
    them): the control characters U+0000 to U+001F, and the nine reserved
    characters less-than, greater-than, colon, double quote, slash,
    backslash, bar, question mark and star. *)
Definition control (c : code_unit) : bool := (c <? 32)%N.

Definition reserved (c : code_unit) : bool :=
  match c with
  | 34 | 42 | 47 | 58 | 60 | 62 | 63 | 92 | 124 => true
  | _ => false
  end%N.

Definition illegal_in_filenames (c : code_unit) : bool := control c || reserved c.

(** Strip the reserved characters. *)
Definition strip_reserved (s : jsstring) : jsstring :=
  filter (fun c => negb (reserved c)) s.

(** One hyphen for every maximal run of white space; [in_run] says that the
    unit before was white space. *)
Fixpoint collapse_runs (in_run : bool) (s : jsstring) : jsstring :=
  match s with
  | [] => []
  | c :: s' =>
      if isWhiteSpace c
      then (if in_run then collapse_runs true s' else hyphen :: collapse_runs true s')
      else c :: collapse_runs false s'
  end.

(** Strip, collapse, truncate to 100 units, and take the fixed default
    name when nothing is left. *)
Definition derive_filename (title : jsstring) : jsstring :=
  let name := firstn 100 (collapse_runs false (strip_reserved title)) in
  match name with
  | [] => js "docsend-presentation"
  | _ :: _ => name
  end.

End NamingSpec.

(** *** Runs of the worker *)

Module RunSpec.

Import Js Worker.
Open Scope Z_scope.

(** The world after the events [evs]. *)
Definition log (evs : list Event) (w : World) : World :=
  fold_left (fun w ev => record ev w) evs w.

Definition outcome_of {A} (r : settled A) : Outcome A :=
  match r with
  | Fulfilled a => Returned a
  | Rejected e => Thrown e
  end.

(** The next fetches of [url], the [n]-th and on, are answered by the
    responses [rs], in order. *)
Definition served (env : Env) (url : jsstring) (n : nat) (rs : list Response) : Prop :=
  forall i r, nth_error rs i = Some r -> net env (n + i) url = Fulfilled r.

Definition too_many_requests (r : Response) : Prop := status r = 429.

(** The events of successive attempts that are all answered 429, the first
    of them being attempt number [attempt]. *)
Fixpoint throttled (url : jsstring) (rs : list Response) (attempt : nat) : list Event :=
  match rs with
  | [] => []
  | r :: rs' =>
      Fetch url :: SetTimeout (backoff r attempt) :: throttled url rs' (S attempt)
  end.

(** The sleeps of those attempts. *)
Fixpoint backoffs (rs : list Response) (attempt : nat) : list number :=
  match rs with
  | [] => []
  | r :: rs' => backoff r attempt :: backoffs rs' (S attempt)
  end.

(** The hint of a 429 response, in seconds. *)
Definition hint (r : Response) : number := parseInt (retryAfter_header r).

Definition strictly_increasing (l : list number) : Prop :=
  StronglySorted (fun a b => nlt a b = true) l.

(** The first four bytes of a PNG file. *)
Definition png_signature : bytes := [x89; x50; x4e; x47].

Definition bytes_eq_dec : forall a b : bytes, {a = b} + {a <> b} :=
  list_eq_dec Byte.byte_eq_dec.

(** An image counts as a PNG when its first four bytes are the signature,
    and as a JPEG otherwise. *)
Definition classified_png (d : ImageData) : bool :=
  if bytes_eq_dec (firstn 4 (uint8Array d)) png_signature then true else false.

Definition embed_call (d : ImageData) : Event :=
  if classified_png d then EmbedPng d else EmbedJpg d.

(** pdf-lib embeds [d], by the decoder of its class, as [image]. *)
Definition embeds (env : Env) (d : ImageData) (image : Image) : Prop :=
  if classified_png d then pdf_embedPng env d = Fulfilled image
  else pdf_embedJpg env d = Fulfilled image.

(** The page has the size of the image and shows it, unscaled, at the
    origin. *)
Definition sized_to (image : Image) (pg : Page) : Prop :=
  page_size pg = (width image, height image)
  /\ drawn pg = [ (image, {| x := 0; y := 0;
                            draw_width := width image;
                            draw_height := height image |}) ].

Definition error_text (e : Error) : jsstring :=
  or_else (message e) (error_toString e).

(** A response that is neither 429 nor a success. *)
Definition failed (r : Response) : Prop :=
  status r <> 429 /\ ok r = false.

(** The events of successive attempts that are all answered by a failed
    response, none of them the last attempt. *)
Fixpoint retried (url : jsstring) (rs : list Response) (attempt : nat) : list Event :=
  match rs with
  | [] => []
  | _ :: rs' =>
      Fetch url :: SetTimeout (Num (1000 * Z.of_nat attempt))
      :: retried url rs' (S attempt)
  end.

Definition http_error (r : Response) : Error :=
  newError (js "HTTP " ++ decimal (status r))%list.

(** A capture from the choice of the strategy on: the images by
    [strategy], then the document, inside the [try], [catch] and [finally]
    of [startCapture]. *)
Definition capture_with (strategy : Prog (list ImageData)) (total : Z)
    (documentTitle : jsstring) : Prog unit :=
  try_finally
    (try_catch (imageDataArray <- strategy ;;
                assemble_and_deliver total imageDataArray documentTitle)
               sendError)
    (perform (WriteActiveCapture None)).

(** *** One capture at a time *)

(** A program that never assigns [activeCapture]. *)
Inductive quiet {A} : Prog A -> Prop :=
| quiet_Ret (a : A) : quiet (Ret a)
| quiet_Throw (e : Error) : quiet (Throw e)
| quiet_Vis (ev : Event) (k : reply ev -> Prog A) :
    (forall c, ev <> WriteActiveCapture c) ->
    (forall r, quiet (k r)) ->
    quiet (Vis ev k).

(** What is left of a running capture: a program that does not assign
    [activeCapture], inside a [finally] that sets it to [null]. *)
Definition releasing (p : Prog unit) : Prop :=
  exists q, quiet q /\ p = try_finally q (perform (WriteActiveCapture None)).

Definition capture_task (t : Task) : Prop :=
  match t with
  | Pending ev k => forall r, releasing (k r)
  end.

(** Either no capture runs and nothing is set aside, or [activeCapture] is
    set and exactly one call is set aside, which is that capture. *)
Definition one_capture (s : System) : Prop :=
  (activeCapture (world s) = None /\ tasks s = [])
  \/ (exists c t, activeCapture (world s) = Some c /\ tasks s = [t] /\ capture_task t).

(** The states the worker can be in: from the start, by messages delivered
    and promises settled, in any order and with any answers. *)
Inductive reachable (env : Env) : System -> Prop :=
| reachable_start : reachable env {| world := initial; tasks := [] |}
| reachable_step (s s' : System) :
    reachable env s -> step env s s' -> reachable env s'.

End RunSpec.

(** *** The content script and the page_data endpoint *)

Module PageSpec.

Import Js Content Worker PageData.
Open Scope Z_scope.

(** The endpoints of the pages [j], [j + 1], ..., [j + k - 1]. *)
Definition endpoints (href : jsstring) (j k : nat) : list jsstring :=
  map (fun i => endpoint href (Z.of_nat i)) (seq j k).

(** The progress reported for the same pages. *)
Definition reported (total : Z) (j k : nat) : list (Z * Z) :=
  map (fun i => (Z.of_nat i, total)) (seq j k).

(** The URL that an answer of the endpoint carries: the first truthy
    value among the fields imageUrl, image_url, url and src of the JSON of
    a response that is ok; none when the request fails, the response is
    not ok, the JSON cannot be read or no field is truthy. *)
Fixpoint first_truthy (fields : list Value) : option jsstring :=
  match fields with
  | [] => None
  | Truthy text :: _ => Some text
  | Falsy :: fields' => first_truthy fields'
  end.

Definition carried (a : settled PageResponse) : option jsstring :=
  match a with
  | Rejected _ => None
  | Fulfilled response =>
      match page_ok response, page_json response with
      | true, Fulfilled data =>
          first_truthy [imageUrl data; image_url data; url data; src data]
      | _, _ => None
      end
  end.

(** The answer of the endpoint to the request for page [j], the [j]-th
    request of the script. *)
Definition page_answer (server : Endpoint) (href : jsstring) (j : nat)
    : settled PageResponse :=
  server (j - 1)%nat (endpoint href (Z.of_nat j)).

(** Neither a fragment nor a query begins in the string. *)
Definition bare (s : jsstring) : Prop :=
  Forall (fun c => c <> hash /\ c <> question) s.

(** Neither the first nor the last code unit is white space. *)
Definition trimmed (s : jsstring) : Prop :=
  (forall c rest, s = c :: rest -> isWhiteSpace c = false)
  /\ (forall c front, s = (front ++ [c])%list -> isWhiteSpace c = false).

(** The longest run of digits of a string; [current] is the length of
    the run that the string continues, [best] the longest run before. *)
Fixpoint digit_run (current best : nat) (s : jsstring) : nat :=
  match s with
  | [] => Nat.max current best
  | c :: s' =>
      if isDigit c then digit_run (S current) best s'
      else digit_run 0 (Nat.max current best) s'
  end.

Definition longest_digit_run (s : jsstring) : nat := digit_run 0 0 s.

(** A page whose numbers are written with at most 15 digits: neither its
    text nor the text of any of its elements has a longer run of digits,
    and no selector finds 10^15 elements or more.  A number of at most 15
    digits is below 2^53: the engine holds it without rounding. *)
Definition modest (d : Document) : Prop :=
  (longest_digit_run (body_innerText d) <= 15)%nat
  /\ (forall sel el, In el (querySelectorAll d sel) ->
        (longest_digit_run (textContent el) <= 15)%nat)
  /\ (forall sel, (Z.of_nat (List.length (querySelectorAll d sel)) < 10 ^ 15)%Z).

(** A natural number below 10^15: not [NaN], not negative, and held
    without rounding. *)
Definition natural (x : number) : Prop :=
  exists v : Z, x = Num v /\ (0 <= v < 10 ^ 15)%Z.

End PageSpec.

(** *** The course of a capture *)

Module CaptureSpec.

Import Js Worker RunSpec.
Open Scope Z_scope.

(** **** How a capture ends *)

(** Every event of the program, whatever the answers, satisfies [P]. *)
Inductive only {A} (P : Event -> Prop) : Prog A -> Prop :=
| only_Ret (a : A) : only P (Ret a)
| only_Throw (e : Error) : only P (Throw e)
| only_Vis (ev : Event) (k : reply ev -> Prog A) :
    P ev -> (forall r, only P (k r)) -> only P (Vis ev k).

(** The events of the work of a capture: [activeCapture] is not assigned,
    and the popup is sent nothing but progress. *)
Definition working (ev : Event) : Prop :=
  match ev with
  | WriteActiveCapture _ => False
  | RuntimeSendMessage (PROGRESS_UPDATE _ _) => True
  | RuntimeSendMessage _ => False
  | _ => True
  end.

(** A program that ends either by throwing, or by returning right after
    the download was accepted, the release of the object URL scheduled
    and CAPTURE_COMPLETE sent. *)
Inductive session : Prog unit -> Prop :=
| session_Throw (e : Error) : session (Throw e)
| session_Vis (ev : Event) (k : reply ev -> Prog unit) :
    working ev -> (forall r, session (k r)) -> session (Vis ev k)
| session_download (url title : jsstring) (k : settled unit -> Prog unit) :
    (forall e, session (k (Rejected e))) ->
    (forall a, k (Fulfilled a)
               = (perform (RevokeObjectURLAfter url 60000) ;; sendComplete)) ->
    session (Vis (DownloadsDownload url (safeName title ++ js ".pdf")%list) k).

Definition messages (evs : list Event) : list PopupMessage :=
  flat_map (fun ev => match ev with RuntimeSendMessage m => [m] | _ => [] end) evs.

Definition progress_message (m : PopupMessage) : Prop :=
  exists current total, m = PROGRESS_UPDATE current total.

(** The last message of a capture. *)
Definition terminal_message (m : PopupMessage) : Prop :=
  m = CAPTURE_COMPLETE \/ exists error, m = CAPTURE_ERROR error.

(** **** What the strategies do on the way *)

(** The events of fetching one image: requests of its URL, reads of
    response bodies, and sleeps. *)
Definition retrying (url : jsstring) (ev : Event) : Prop :=
  match ev with
  | Fetch u => u = url
  | ArrayBuffer _ | SetTimeout _ => True
  | _ => False
  end.



(** No request but for one of the URLs [us]. *)
Definition fetches_among (us : list jsstring) (ev : Event) : Prop :=
  match ev with
  | Fetch u => In u us
  | _ => True
  end.

(** The images [ds] of the URLs [urls] were fetched one after the other,
    each announced as image [i + 1], [i + 2], ... of [len] and each
    returned by its own call of fetchImageWithRetry, from the world [w]
    to the world [w']. *)
Inductive fetched_in_turn (env : Env) (len : nat)
    : nat -> list jsstring -> World -> list ImageData -> World -> Prop :=
| in_turn_nil (i : nat) (w : World) : fetched_in_turn env len i [] w [] w
| in_turn_cons (i : nat) (url : jsstring) (urls : list jsstring) (w w1 w2 : World)
      (d : ImageData) (ds : list ImageData) :
    run env (fetchImageWithRetry url default_maxRetries)
        (record (RuntimeSendMessage
                   (PROGRESS_UPDATE (Z.of_nat i + 1) (Z.of_nat len))) w)
    = (Returned d, w1) ->
    fetched_in_turn env len (S i) urls w1 ds w2 ->
    fetched_in_turn env len i (url :: urls) w (d :: ds) w2.

(** How pdf-lib answers the embedding of [d] by the decoder of its class. *)
Definition embedding (env : Env) (d : ImageData) : settled Image :=
  if classified_png d then pdf_embedPng env d else pdf_embedJpg env d.

(** **** Attempts of any kind *)

(** The bytes an answer of the network yields: those of the body of a
    response with a success status. *)
Definition yields (a : settled Response) : option bytes :=
  match a with
  | Fulfilled r =>
      if ok r then match body r with Fulfilled b => Some b | Rejected _ => None end
      else None
  | Rejected _ => None
  end.

Definition is_429 (a : settled Response) : bool :=
  match a with
  | Fulfilled r => status r =? 429
  | Rejected _ => false
  end.

(** The error of an answer that yields nothing and is not a 429: the
    rejection of the fetch, the status, or the rejection of the body. *)
Definition error_of (a : settled Response) : Error :=
  match a with
  | Rejected e => e
  | Fulfilled r =>
      if ok r then match body r with Rejected e => e | Fulfilled _ => http_error r end
      else http_error r
  end.

(** The sleep after attempt [attempt], answered by [a]. *)
Definition pause (a : settled Response) (attempt : nat) : number :=
  match a with
  | Fulfilled r =>
      if status r =? 429 then backoff r attempt else Num (1000 * Z.of_nat attempt)
  | Rejected _ => Num (1000 * Z.of_nat attempt)
  end.

(** The events of one attempt, before any sleep. *)
Definition attempted (url : jsstring) (a : settled Response) : list Event :=
  match a with
  | Fulfilled r => if ok r then [Fetch url; ArrayBuffer r] else [Fetch url]
  | Rejected _ => [Fetch url]
  end.

(** The events of successive attempts that are each followed by a sleep. *)
Fixpoint tries (url : jsstring) (answers : list (settled Response)) (attempt : nat)
    : list Event :=
  match answers with
  | [] => []
  | a :: answers' =>
      (attempted url a ++ SetTimeout (pause a attempt)
                 :: tries url answers' (S attempt))%list
  end.

(** The next fetches of [url], the [n]-th and on, are answered by
    [answers], in order. *)
Definition answered (env : Env) (url : jsstring) (n : nat)
    (answers : list (settled Response)) : Prop :=
  forall i a, nth_error answers i = Some a -> net env (n + i) url = a.

(** **** A capture in which nothing fails *)

(** The network serves each of [urls] at the first request, in order, from
    its [n]-th answer on: with the responses [rs], of success status, whose
    bodies are [bs]. *)
Inductive served_in_order (env : Env) : nat -> list jsstring -> list Response
                                       -> list bytes -> Prop :=
| in_order_nil (n : nat) : served_in_order env n [] [] []
| in_order_cons (n : nat) (url : jsstring) (urls : list jsstring)
      (r : Response) (rs : list Response) (b : bytes) (bs : list bytes) :
    net env n url = Fulfilled r -> ok r = true -> body r = Fulfilled b ->
    served_in_order env (S n) urls rs bs ->
    served_in_order env n (url :: urls) (r :: rs) (b :: bs).

(** The events of fetching images that are each served at once, the first
    of them being image [i + 1] of [len]. *)
Fixpoint fetched (urls : list jsstring) (rs : list Response) (len i : nat)
    : list Event :=
  match urls, rs with
  | url :: urls', r :: rs' =>
      RuntimeSendMessage (PROGRESS_UPDATE (Z.of_nat i + 1) (Z.of_nat len))
      :: Fetch url :: ArrayBuffer r :: fetched urls' rs' len (S i)
  | _, _ => []
  end.

(** titleResponse.title || 'docsend-presentation', for an answer that is
    an object. *)
Definition title_of (title : option jsstring) : jsstring :=
  match title with
  | Some t => or_else t default_name
  | None => default_name
  end.

(** The events of a capture by the slide URLs in which nothing fails. *)
Definition delivery (env : Env) (tab total : Z) (urls : list jsstring)
    (rs : list Response) (bs : list bytes) (images : list Image) (pdf : bytes)
    (documentTitle : jsstring) : list Event :=
  ([ReadActiveCapture;
    WriteActiveCapture (Some {| tabId := tab; totalSlides := total |});
    TabsSendMessage tab GET_DOCUMENT_TITLE;
    TabsSendMessage tab (FETCH_SLIDE_URLS total)]
   ++ fetched urls rs (List.length urls) 0
   ++ [RuntimeSendMessage (PROGRESS_UPDATE total total)]
   ++ map embed_call (map ArrayBuf bs)
   ++ [PdfSave (map page_for images);
       CreateObjectURL pdf;
       DownloadsDownload (object_url env pdf) (safeName documentTitle ++ js ".pdf")%list;
       RevokeObjectURLAfter (object_url env pdf) 60000;
       RuntimeSendMessage CAPTURE_COMPLETE;
       WriteActiveCapture None])%list.

(** **** Progress of the content script *)

(** The listener of the worker called with each progress report of the
    content script, in order. *)
Definition forward (env : Env) (reports : list (Z * Z)) (s : System) : System :=
  fold_left (fun s r => deliver env (FETCH_PROGRESS (fst r) (snd r)) s) reports s.

End CaptureSpec.

(** *** The popup *)

Module PopupSpec.

Import Js Content Worker Popup.

(** The panel [s] is shown, and no other. *)
Definition shows (v : View) (s : State) : Prop :=
  forall s', hidden v s' = false <-> s' = s.

(** The listener called with each message, in order. *)
Definition listen (percent : option number -> option number -> jsstring)
    (ms : list PopupMessage) (v : View) : View :=
  fold_left (fun v m => onMessage percent m v) ms v.

End PopupSpec.

(* ===================================================================== *)
(** ** Concrete pages and surroundings                                   *)
(* ===================================================================== *)

Module Examples.

Import Js Content Worker RunSpec.
Open Scope string_scope.
Open Scope Z_scope.

(** *** Pages *)

Definition block (text : string) (h : Z) : Element :=
  {| textContent := js text; display := js "block";
     visibility := js "visible"; rect_height := h |}.

(** A deck whose only clue is the text "Slide 2 of 24". *)
Definition doc_text_counter : Document :=
  {| querySelectorAll := fun _ => [];
     body_innerText := js "Slide 2 of 24";
     title := js "Roadmap | DocSend" |}.

(** The text shows a date before the slide counter. *)
Definition doc_date_first : Document :=
  {| querySelectorAll := fun _ => [];
     body_innerText := js "Updated 12/2024 - slide 2 of 24";
     title := js "Roadmap | DocSend" |}.

(** A page label reading "3 / 1000", beside a visible email form. *)
Definition doc_big_label : Document :=
  {| querySelectorAll := fun sel =>
       match sel with
       | SelClass "page-label" => [block "3 / 1000" 18]
       | SelTagAttrEq "input" "type" "email" => [block "" 32]
       | _ => []
       end;
     body_innerText := js "3 / 1000";
     title := js "Roadmap | DocSend" |}.

(** A page label reading "7 of 2". *)
Definition doc_label_past_end : Document :=
  {| querySelectorAll := fun sel =>
       match sel with
       | SelAttrHas "class" "pagination" => [block "7 of 2" 18]
       | _ => []
       end;
     body_innerText := js "";
     title := js "Roadmap | DocSend" |}.

(** No slides, and an empty gate container: shown, but of height zero. *)
Definition doc_flat_gate : Document :=
  {| querySelectorAll := fun sel =>
       match sel with
       | SelClass "email-gate" => [block "" 0]
       | _ => []
       end;
     body_innerText := js "";
     title := js "DocSend" |}.

(** *** Image headers *)

Definition be (bs : bytes) : Z :=
  fold_left (fun acc b => acc * 256 + Z.of_N (Byte.to_N b)) bs 0.

Definition slice (from len : nat) (bs : bytes) : bytes := firstn len (skipn from bs).

Definition bytes_eqb (a b : bytes) : bool :=
  if bytes_eq_dec a b then true else false.

Definition png_magic : bytes := [x89; x50; x4e; x47; x0d; x0a; x1a; x0a].
Definition ihdr : bytes := [x49; x48; x44; x52].

(** Width and height of a PNG, from its IHDR chunk. *)
Definition png_header (bs : bytes) : option Image :=
  if bytes_eqb (slice 0 8 bs) png_magic && bytes_eqb (slice 12 4 bs) ihdr
     && (24 <=? List.length bs)%nat
  then Some {| width := be (slice 16 4 bs); height := be (slice 20 4 bs) |}
  else None.

Definition is_sof (m : byte) : bool :=
  Byte.eqb m xc0 || Byte.eqb m xc1 || Byte.eqb m xc2.

(** Width and height of a JPEG, from its first start-of-frame segment. *)
Fixpoint jpeg_segments (fuel : nat) (bs : bytes) : option Image :=
  match fuel with
  | O => None
  | S fuel' =>
      match bs with
      | m0 :: m1 :: seg =>
          if Byte.eqb m0 xff then
            if is_sof m1 then
              if (7 <=? List.length seg)%nat
              then Some {| width := be (slice 5 2 seg); height := be (slice 3 2 seg) |}
              else None
            else jpeg_segments fuel' (skipn (Z.to_nat (be (slice 0 2 seg))) seg)
          else None
      | _ => None
      end
  end.

Definition jpeg_header (bs : bytes) : option Image :=
  if bytes_eqb (slice 0 2 bs) [xff; xd8]
  then jpeg_segments (List.length bs) (skipn 2 bs)
  else None.

Definition png_800x600 : bytes :=
  (png_magic ++ [x00; x00; x00; x0d] ++ ihdr
   ++ [x00; x00; x03; x20; x00; x00; x02; x58; x08; x02; x00; x00; x00])%list.

Definition jpeg_1024x768 : bytes :=
  [xff; xd8; xff; xe0; x00; x04; x00; x00;
   xff; xc0; x00; x11; x08; x03; x00; x04; x00; x03].

(** *** Surroundings *)

Definition url1 : jsstring := js "https://cdn.example/deck/1.png".
Definition url2 : jsstring := js "https://cdn.example/deck/2.png".

Definition payload : bytes := png_800x600.

Definition response (st : Z) (retryAfter : option string) : Response :=
  {| status := st; retry_after := option_map js retryAfter; body := Fulfilled payload |}.

Definition decoded (o : option Image) (what : string) : settled Image :=
  match o with
  | Some image => Fulfilled image
  | None => Rejected (newError (js what))
  end.

(** The network answers the successive fetches with [responses] and then
    fails; the content script knows the title and two slide URLs; pdf-lib
    reads the image headers, and its serialisation is stood for by a header
    and the number of pages the script has added. *)
Definition scripted (responses : list Response) : Env :=
  {| net := fun n _ =>
       match nth_error responses n with
       | Some r => Fulfilled r
       | None => Rejected (typeError (js "Failed to fetch"))
       end;
     content := fun _ _ m =>
       match m with
       | GET_DOCUMENT_TITLE => Fulfilled (ResponseObj None (Some (js "Quarterly Review")))
       | FETCH_SLIDE_URLS _ => Fulfilled (ResponseObj (Some [url1; url2]) None)
       | _ => Fulfilled (ResponseObj None None)
       end;
     screen := fun _ => Fulfilled (js "data:image/png;base64,iVBORw0KGgo=");
     pdf_embedPng := fun d => decoded (png_header (uint8Array d)) "not a PNG";
     pdf_embedJpg := fun d => decoded (jpeg_header (uint8Array d)) "not a JPEG";
     pdf_save := fun doc =>
       Fulfilled ([x25; x50; x44; x46] ++ [to_byte (N.of_nat (List.length doc))])%list;
     decode_base64 := fun _ => Fulfilled (map Byte.to_N png_800x600);
     object_url := fun _ => js "blob:1";
     download := fun _ _ => Fulfilled tt |}.

(** Three answers "429 Too Many Requests", each asking for one second. *)
Definition three_429 : list Response :=
  [response 429 (Some "1"); response 429 (Some "1"); response 429 (Some "1")].

(** The first image is served; every later fetch is answered 500. *)
Definition second_image_fails : list Response :=
  [response 200 None; response 500 None; response 500 None; response 500 None].

(** The same surroundings, with a content script that finds no slide URL. *)
Definition without_urls (env : Env) : Env :=
  {| net := net env;
     content := fun n tab m =>
       match m with
       | FETCH_SLIDE_URLS _ => Fulfilled (ResponseObj None None)
       | _ => content env n tab m
       end;
     screen := screen env;
     pdf_embedPng := pdf_embedPng env;
     pdf_embedJpg := pdf_embedJpg env;
     pdf_save := pdf_save env;
     decode_base64 := decode_base64 env;
     object_url := object_url env;
     download := download env |}.

Definition idle : System := {| world := initial; tasks := [] |}.

(** A capture of three slides of tab 7 has started and waits for the title. *)
Definition capturing : System := deliver (scripted []) (START_CAPTURE 7 3) idle.

End Examples.

(** *** A deck behind the page_data endpoint *)

Module PageExamples.

Import Js Content Worker PageData RunSpec Examples.
Open Scope string_scope.
Open Scope Z_scope.

(** The address of a deck, with a trailing slash, a query and a fragment. *)
Definition deck_href : jsstring := js "https://docsend.com/view/abc123/?utm=mail#page=2".

Definition page (image : jsstring) : settled PageResponse :=
  Fulfilled {| page_ok := true;
               page_json := Fulfilled {| imageUrl := Truthy image; image_url := Falsy;
                                         url := Falsy; src := Falsy |} |}.

Definition not_found : settled PageResponse :=
  Fulfilled {| page_ok := false; page_json := Rejected (newError (js "no JSON")) |}.

(** A deck of two pages. *)
Definition deck_server : Endpoint := fun _ e =>
  if eqb_string e (js "https://docsend.com/view/abc123/page_data/1") then page url1
  else if eqb_string e (js "https://docsend.com/view/abc123/page_data/2") then page url2
  else not_found.

(** The same surroundings, with a content script that asks [server] for
    the slide URLs of the page at [href]. *)
Definition with_pages (server : Endpoint) (href : jsstring) (env : Env) : Env :=
  {| net := net env;
     content := fun n tab m =>
       match m with
       | FETCH_SLIDE_URLS total => Fulfilled (onFetchSlideUrls server href total)
       | _ => content env n tab m
       end;
     screen := screen env;
     pdf_embedPng := pdf_embedPng env;
     pdf_embedJpg := pdf_embedJpg env;
     pdf_save := pdf_save env;
     decode_base64 := decode_base64 env;
     object_url := object_url env;
     download := download env |}.

End PageExamples.

(** *** A popup *)

Module PopupExamples.

Import Js Content Worker Popup Examples.
Open Scope string_scope.
Open Scope Z_scope.

(** The popup as it is opened: every panel hidden, the button disabled. *)
Definition blank : View :=
  {| hidden := fun _ => true;
     progress_fill_width := js "0%";
     progress_text := [];
     error_message := [];
     slide_info := [];
     download_btn_disabled := true |}.

(** The percentage of whole numbers, rounded half up. *)
Definition whole_percent (current total : option number) : jsstring :=
  match current, total with
  | Some (Num c), Some (Num t) =>
      if (t =? 0)%Z then js "NaN" else decimal ((200 * c + t) / (2 * t))
  | _, _ => js "NaN"
  end.


End PopupExamples.

(* ===================================================================== *)
(** ** Properties of the regular expressions                             *)
(* ===================================================================== *)

Module JsFacts.

Import Js RegexSpec.

Lemma length_dropWhile (p : code_unit -> bool) (s : jsstring) :
  (List.length (dropWhile p s) <= List.length s)%nat.
Proof.
  induction s as [| c s IH]; cbn; [lia |]. destruct (p c); cbn; lia.
Qed.

(** A greedy star followed by nothing takes the whole run. *)
Lemma star_loop_total (p : code_unit -> bool) (inp : jsstring) :
  forall pre cs, exists pre',
    star_loop p Some pre inp cs = Some (MState pre' (dropWhile p inp) cs)
    /\ (List.length pre <= List.length pre')%nat.
Proof.
  induction inp as [| c inp IH]; intros pre cs; cbn.
  - exists pre. split; [reflexivity | lia].
  - destruct (p c).
    + destruct (IH (c :: pre) cs) as [pre' [-> Hlen]].
      exists pre'. split; [reflexivity | cbn in Hlen; lia].
    + exists pre. split; [reflexivity | lia].
Qed.

Lemma replace_loop_class (p : code_unit -> bool) :
  forall fuel pre inp,
  (List.length inp < fuel)%nat ->
  replace_loop fuel (RClass p) [] pre inp = filter (fun c => negb (p c)) inp.
Proof.
  induction fuel as [| fuel IH]; intros pre inp Hlen; [lia |].
  destruct inp as [| c inp]; [reflexivity |].
  cbn [replace_loop rmatch rest consumed caps filter]. cbn in Hlen.
  destruct (p c); cbn [negb].
  - cbn [consumed rest List.length].
    replace (List.length pre <? S (List.length pre))%nat with true
      by (symmetry; apply Nat.ltb_lt; lia).
    cbn [app]. apply IH. lia.
  - f_equal. apply IH. lia.
Qed.

(** Replacing every unit of a class by nothing filters the class out. *)
Lemma replaceAll_class (p : code_unit -> bool) (s : jsstring) :
  replaceAll (RClass p) [] s = filter (fun c => negb (p c)) s.
Proof. unfold replaceAll. apply replace_loop_class. lia. Qed.

(** *** Soundness of the matcher *)

Lemma star_loop_reach (p : code_unit -> bool) (k : mstate -> option mstate) :
  forall inp pre cs out,
  star_loop p k pre inp cs = Some out ->
  exists s', reach (RStar p) (MState pre inp cs) s' /\ k s' = Some out.
Proof.
  induction inp as [| c inp IH]; intros pre cs out H; cbn [star_loop] in H.
  - exists (MState pre [] cs). split; [| exact H].
    exists []. cbn. auto.
  - destruct (p c) eqn:Hp.
    + destruct (star_loop p k (c :: pre) inp cs) as [r |] eqn:Hloop.
      * injection H as <-. destruct (IH _ _ _ Hloop) as [s' [Hreach Hk]].
        exists s'. split; [| exact Hk].
        destruct Hreach as [run [Hrun [Hrest [Hcons Hcaps]]]]. cbn in *.
        exists (c :: run). cbn. repeat split.
        -- constructor; assumption.
        -- now rewrite Hrest.
        -- rewrite Hcons. now rewrite <- app_assoc.
        -- exact Hcaps.
      * exists (MState pre (c :: inp) cs). split; [| exact H].
        exists []. cbn. auto.
    + exists (MState pre (c :: inp) cs). split; [| exact H].
      exists []. cbn. auto.
Qed.

(** The matcher is sound: when it succeeds, [r] has taken the position
    from [s] to some [s'], and the continuation has succeeded from [s']. *)
Lemma rmatch_reach (r : regex) :
  forall k s out,
  rmatch r k s = Some out ->
  exists s', reach r s s' /\ k s' = Some out.
Proof.
  induction r as [| p | r1 IH1 r2 IH2 | r1 IH1 r2 IH2 | p | i r IH | |];
    intros k s out H; cbn [rmatch] in H.
  - exists s. split; [reflexivity | exact H].
  - destruct (rest s) as [| c inp] eqn:Hrest; [discriminate |].
    destruct (p c) eqn:Hp; [| discriminate].
    exists (MState (c :: consumed s) inp (caps s)). split; [| exact H].
    exists c. cbn. auto.
  - destruct (IH1 _ _ _ H) as [m [H1 Hm]].
    destruct (IH2 _ _ _ Hm) as [s' [H2 Hk]].
    exists s'. split; [exists m; auto | exact Hk].
  - destruct (rmatch r1 k s) as [x |] eqn:H1.
    + injection H as <-. destruct (IH1 _ _ _ H1) as [s' [Hr Hk]].
      exists s'. split; [now left | exact Hk].
    + destruct (IH2 _ _ _ H) as [s' [Hr Hk]].
      exists s'. split; [now right | exact Hk].
  - destruct s as [pre inp cs]. apply star_loop_reach in H. exact H.
  - destruct (IH _ _ _ H) as [m [Hr Hk]].
    exists (set_cap i s m). split; [exists m; auto | exact Hk].
  - destruct (at_word_boundary s) eqn:Hb; [| discriminate].
    exists s. cbn. auto.
  - destruct (rest s) eqn:Hrest; [| discriminate].
    exists s. cbn. auto.
Qed.

Lemma search_found (r : regex) :
  forall inp pre m,
  search r pre inp = Some m ->
  exists pre' inp' s',
    rmatch r Some (MState pre' inp' []) = Some s' /\ m_groups m = caps s'.
Proof.
  induction inp as [| c inp IH]; intros pre m H; cbn [search] in H.
  - destruct (rmatch r Some (MState pre [] [])) as [s' |] eqn:Hm; [| discriminate].
    injection H as <-. exists pre, [], s'. auto.
  - destruct (rmatch r Some (MState pre (c :: inp) [])) as [s' |] eqn:Hm.
    + injection H as <-. exists pre, (c :: inp), s'. auto.
    + apply IH in H. exact H.
Qed.

(** The text of a group that is one or more digits. *)
Lemma reach_group_digits (i : nat) (s s' : mstate) :
  reach (RGroup i (RPlus isDigit)) s s' ->
  exists text, digits text /\ caps s' = (i, text) :: caps s
               /\ rest s = (text ++ rest s')%list.
Proof.
  intros [m [[m1 [[c [Hc [Hrest1 [Hcons1 Hcaps1]]]]
                  [run [Hrun [Hrest2 [Hcons2 Hcaps2]]]]]] ->]].
  exists (c :: run). split; [| split].
  - split; [discriminate | constructor; assumption].
  - unfold set_cap. cbn [caps consumed]. rewrite Hcaps2, Hcaps1. f_equal. f_equal.
    rewrite Hcons2, Hcons1.
    replace (List.length (rev run ++ c :: consumed s) - List.length (consumed s))%nat
      with (List.length (rev run ++ [c])).
    + replace (rev run ++ c :: consumed s)%list with ((rev run ++ [c]) ++ consumed s)%list
        by now rewrite <- app_assoc.
      rewrite firstn_app, Nat.sub_diag, firstn_all. cbn [firstn].
      rewrite app_nil_r, rev_app_distr, rev_involutive. reflexivity.
    + rewrite !length_app. cbn. lia.
  - unfold set_cap. cbn [rest]. rewrite Hrest1, Hrest2. reflexivity.
Qed.

Lemma isDigit_val (c : code_unit) :
  isDigit c = true -> digit_val 10 c = Some (c - 48)%N.
Proof.
  unfold isDigit, digit_val. intro H. rewrite H.
  unfold in_range in H. apply andb_prop in H. destruct H as [Hlo Hhi].
  apply N.leb_le in Hlo, Hhi.
  replace (c - 48 <? 10)%N with true; [reflexivity |].
  symmetry. apply N.ltb_lt. lia.
Qed.

Lemma isDigit_not_space (c : code_unit) : isDigit c = true -> isWhiteSpace c = false.
Proof.
  unfold isDigit, in_range. intro H. apply andb_prop in H. destruct H as [Hlo Hhi].
  apply N.leb_le in Hlo, Hhi. unfold isWhiteSpace, in_range.
  repeat match goal with
         | |- (_ || _)%bool = false => apply orb_false_intro
         | |- (_ && _)%bool = false => apply andb_false_iff
         end;
    try (apply N.eqb_neq; lia).
  - right. apply N.leb_gt. lia.
  - left. apply N.leb_gt. lia.
Qed.

(** [parseInt] of one or more digits is a natural number. *)
Lemma parseInt_digits (text : jsstring) :
  digits text -> exists v, (0 <= v)%Z /\ parseInt text = Num v.
Proof.
  intros [Hne Hall]. destruct text as [| c text]; [now elim Hne |].
  inversion Hall as [| ? ? Hc Hrest]; subst.
  exists (Z.of_N (digits_val 10 0 (c :: text))). split; [lia |].
  unfold parseInt. cbn [dropWhile]. rewrite (isDigit_not_space c Hc).
  assert (Hrange : (48 <= c <= 57)%N).
  { unfold isDigit, in_range in Hc. apply andb_prop in Hc. destruct Hc as [Hlo Hhi].
    apply N.leb_le in Hlo, Hhi. lia. }
  unfold strip_sign.
  replace (c =? 45)%N with false by (symmetry; apply N.eqb_neq; lia).
  replace (c =? 43)%N with false by (symmetry; apply N.eqb_neq; lia).
  assert (Hprefix : strip_hex_prefix (c :: text) = (10%N, c :: text)).
  { unfold strip_hex_prefix. destruct text as [| cx text]; [reflexivity |].
    inversion Hrest as [| ? ? Hcx _]; subst.
    unfold isDigit, in_range in Hcx. apply andb_prop in Hcx. destruct Hcx as [Hlo Hhi].
    apply N.leb_le in Hlo, Hhi.
    replace (cx =? 120)%N with false by (symmetry; apply N.eqb_neq; lia).
    replace (cx =? 88)%N with false by (symmetry; apply N.eqb_neq; lia).
    now rewrite andb_false_r. }
  rewrite Hprefix. now rewrite (isDigit_val c Hc).
Qed.


Lemma reach_groupless (r : regex) :
  groupless r = true -> forall s s', reach r s s' -> caps s' = caps s.
Proof.
  induction r as [| p | r1 IH1 r2 IH2 | r1 IH1 r2 IH2 | p | i r IH | |];
    cbn [groupless reach]; intros Hg s s' H.
  - now subst.
  - destruct H as [c [_ [_ [_ H]]]]. exact H.
  - apply andb_prop in Hg. destruct Hg as [Hg1 Hg2].
    destruct H as [m [H1 H2]]. rewrite (IH2 Hg2 _ _ H2). now apply IH1.
  - apply andb_prop in Hg. destruct Hg as [Hg1 Hg2].
    destruct H as [H | H]; [now apply IH1 | now apply IH2].
  - destruct H as [run [_ [_ [_ H]]]]. exact H.
  - discriminate.
  - destruct H as [-> _]. reflexivity.
  - destruct H as [-> _]. reflexivity.
Qed.

End JsFacts.

(* ===================================================================== *)
(** ** Properties of the page locator                                    *)
(* ===================================================================== *)

Module LocatorFacts.

Import Js Content RegexSpec JsFacts LocatorSpec Examples.

(** A match of the page pattern of the body text has two groups of digits. *)
Lemma bodyText_groups (s : jsstring) (m : match_result) :
  match_ re_bodyText s = Some m ->
  exists g1 g2, digits g1 /\ digits g2 /\ group 1 m = Some g1 /\ group 2 m = Some g2.
Proof.
  intro H. apply search_found in H. destruct H as [pre [inp [s' [H Hgroups]]]].
  apply rmatch_reach in H. destruct H as [s'' [H E]]. injection E as ->.
  unfold re_bodyText in H. cbn [reach] in H.
  destruct H as [m1 [[-> _] [m2 [H1 [m3 [Hs1 [m4 [Hsep [m5 [Hs2 [m6 [H2 [-> _]]]]]]]]]]]]].
  apply (reach_group_digits 1) in H1. destruct H1 as [g1 [Hd1 [Hc1 _]]].
  apply (reach_group_digits 2) in H2. destruct H2 as [g2 [Hd2 [Hc2 _]]].
  destruct Hs1 as [_ [_ [_ [_ Hc3]]]]. destruct Hs2 as [_ [_ [_ [_ Hc5]]]].
  assert (Hc4 : caps m4 = caps m3).
  { apply (reach_groupless (RAlt (RChar slash) (RLitI (js "of")))); [reflexivity | exact Hsep]. }
  exists g1, g2. unfold group. rewrite Hgroups, Hc2, Hc5, Hc4, Hc3, Hc1.
  cbn. auto.
Qed.

(** A match of the page pattern of a label has two groups of digits. *)
Lemma pageLabel_groups (s : jsstring) (m : match_result) :
  match_ re_pageLabel s = Some m ->
  exists g1 g2, digits g1 /\ digits g2 /\ group 1 m = Some g1 /\ group 2 m = Some g2.
Proof.
  intro H. apply search_found in H. destruct H as [pre [inp [s' [H Hgroups]]]].
  apply rmatch_reach in H. destruct H as [s'' [H E]]. injection E as ->.
  unfold re_pageLabel in H. cbn [reach] in H.
  destruct H as [m2 [H1 [m3 [Hs1 [m4 [Hsep [m5 [Hs2 H2]]]]]]]].
  apply (reach_group_digits 1) in H1. destruct H1 as [g1 [Hd1 [Hc1 _]]].
  apply (reach_group_digits 2) in H2. destruct H2 as [g2 [Hd2 [Hc2 _]]].
  destruct Hs1 as [_ [_ [_ [_ Hc3]]]]. destruct Hs2 as [_ [_ [_ [_ Hc5]]]].
  assert (Hc4 : caps m4 = caps m3).
  { apply (reach_groupless
             (RAlt (RChar slash)
                   (RAlt (RLitI (js "of")) (RSeq (RChar slash) (RStar isWhiteSpace)))));
      [reflexivity |].
    cbn [reach RLitI js map list_ascii_of_string].  exact Hsep. }
  exists g1, g2. unfold group. rewrite Hgroups, Hc2, Hc5, Hc4, Hc3, Hc1.
  cbn. auto.
Qed.

(** The pair a page pattern matches is a pair of natural numbers. *)
Lemma groups_numeric (m : match_result) (g1 g2 : jsstring) :
  digits g1 -> digits g2 -> group 1 m = Some g1 -> group 2 m = Some g2 ->
  exists c t, (0 <= c /\ 0 <= t)%Z
              /\ parseInt_opt (group 1 m) = Num c /\ parseInt_opt (group 2 m) = Num t.
Proof.
  intros Hd1 Hd2 -> ->.
  destruct (parseInt_digits g1 Hd1) as [c [Hc Ec]].
  destruct (parseInt_digits g2 Hd2) as [t [Ht Et]].
  exists c, t. cbn. auto.
Qed.

Lemma eqb_string_eq (a b : jsstring) : eqb_string a b = true <-> a = b.
Proof.
  unfold eqb_string. destruct (list_eq_dec N.eq_dec a b); split; congruence.
Qed.

Lemma shown_spec (el : Element) : shown el = true <-> style_shown el.
Proof.
  unfold shown, style_shown. rewrite andb_true_iff, !negb_true_iff.
  split; intros [H1 H2]; split.
  - intro E. apply eqb_string_eq in E. congruence.
  - intro E. apply eqb_string_eq in E. congruence.
  - destruct (eqb_string (display el) (js "none")) eqn:E; [| reflexivity].
    apply eqb_string_eq in E. contradiction.
  - destruct (eqb_string (visibility el) (js "hidden")) eqn:E; [| reflexivity].
    apply eqb_string_eq in E. contradiction.
Qed.

Lemma gate_loop_spec (d : Document) (sels : list selector) :
  gate_loop d sels = true <->
  exists sel el, In sel sels /\ querySelector d sel = Some el /\ style_shown el.
Proof.
  induction sels as [| sel sels IH]; cbn [gate_loop].
  - split; [discriminate | intros [? [? [[] _]]]].
  - destruct (querySelector d sel) as [el |] eqn:Hq.
    + destruct (shown el) eqn:Hs.
      * split; [intros _ | reflexivity].
        exists sel, el. split; [now left |]. split; [exact Hq |].
        now apply shown_spec.
      * rewrite IH. split.
        -- intros [s [e [Hin H]]]. exists s, e. split; [now right | exact H].
        -- intros [s [e [[<- | Hin] [Hq' Hsh]]]].
           ++ rewrite Hq in Hq'. injection Hq' as <-.
              apply shown_spec in Hsh. congruence.
           ++ exists s, e. auto.
    + rewrite IH. split.
      * intros [s [e [Hin H]]]. exists s, e. split; [now right | exact H].
      * intros [s [e [[<- | Hin] [Hq' Hsh]]]]; [congruence |].
        exists s, e. auto.
Qed.

Lemma emailInputVisible_spec (d : Document) :
  emailInputVisible d = true <->
  exists el, querySelector d emailInput = Some el
             /\ style_shown el /\ (0 < rect_height el)%Z.
Proof.
  unfold emailInputVisible. fold emailInput.
  destruct (querySelector d emailInput) as [el |].
  - rewrite andb_true_iff, shown_spec, Z.ltb_lt. split.
    + intros [H1 H2]. exists el. auto.
    + intros [el' [E [H1 H2]]]. injection E as <-. auto.
  - split; [discriminate | intros [el [E _]]; discriminate].
Qed.

Lemma isAuthRequired_spec (d : Document) :
  isAuthRequired d = true <-> gate_rendered d.
Proof.
  unfold isAuthRequired, gate_rendered.
  rewrite <- emailInputVisible_spec, <- gate_loop_spec.
  destruct (emailInputVisible d); intuition congruence.
Qed.

Lemma getSlideInfo_None (d : Document) :
  getSlideInfo d = None <-> all_heuristics_fail d.
Proof.
  unfold getSlideInfo, all_heuristics_fail, orElse.
  destruct (method1 d), (method2 d), (method3 d), (method4 d);
    intuition congruence.
Qed.

Lemma pageLabel_loop_first (d : Document) (pre : list selector) :
  forall sel post el m,
  Forall (no_label d) pre ->
  querySelector d sel = Some el ->
  match_ re_pageLabel (textContent el) = Some m ->
  pageLabel_loop d (pre ++ sel :: post) =
  Some {| current := parseInt_opt (group 1 m); total := parseInt_opt (group 2 m) |}.
Proof.
  induction pre as [| s pre IH]; intros sel post el m Hpre Hq Hm.
  - cbn. now rewrite Hq, Hm.
  - inversion Hpre as [| ? ? Hs Hpre']; subst.
    cbn [app pageLabel_loop]. unfold no_label in Hs.
    destruct (querySelector d s) as [el' |].
    + rewrite Hs. now apply IH with (el := el).
    + now apply IH with (el := el).
Qed.

(** C6.  The pair [{current, total}] that the free-text scan (heuristic 2)
    matches is a pair of natural numbers.  It is accepted exactly when
    [1 <= current <= total] and [1 <= total <= 500]; then it is the answer
    of [getSlideInfo] (no page label having matched).  A pair with
    [total > 500] or [current > total], as any pair out of these bounds, is
    rejected, and the answer is that of heuristics 3 and 4. *)
Theorem method2_bounds (d : Document) (m : match_result) :
  method1 d = None ->
  match_ re_bodyText (body_innerText d) = Some m ->
  exists c t,
    (0 <= c /\ 0 <= t)%Z
    /\ parseInt_opt (group 1 m) = Num c /\ parseInt_opt (group 2 m) = Num t
    /\ (method2 d = Some {| current := Num c; total := Num t |} <-> in_bounds c t)
    /\ (in_bounds c t -> getSlideInfo d = Some {| current := Num c; total := Num t |})
    /\ ((500 < t \/ t < c)%Z ->
        method2 d = None /\ getSlideInfo d = orElse (method3 d) (method4 d))
    /\ (~ in_bounds c t ->
        method2 d = None /\ getSlideInfo d = orElse (method3 d) (method4 d)).
Proof.
  intros H1 Hm.
  destruct (bodyText_groups _ _ Hm) as [g1 [g2 [Hd1 [Hd2 [Hg1 Hg2]]]]].
  destruct (groups_numeric m g1 g2 Hd1 Hd2 Hg1 Hg2) as [c [t [Hpos [Hc Ht]]]].
  exists c, t. split; [exact Hpos |]. split; [exact Hc |]. split; [exact Ht |].
  assert (E : method2 d =
              if ((1 <=? t) && (t <=? 500) && (1 <=? c) && (c <=? t))%Z
              then Some {| current := Num c; total := Num t |} else None).
  { unfold method2. rewrite Hm, Hc, Ht. reflexivity. }
  assert (B : ((1 <=? t) && (t <=? 500) && (1 <=? c) && (c <=? t))%Z = true
              <-> in_bounds c t).
  { unfold in_bounds. rewrite !andb_true_iff, !Z.leb_le. lia. }
  unfold getSlideInfo. rewrite H1, E. cbn [orElse].
  destruct ((1 <=? t) && (t <=? 500) && (1 <=? c) && (c <=? t))%Z.
  - assert (Hb : in_bounds c t) by now apply B.
    split; [| split; [| split]].
    + split; auto.
    + auto.
    + intro H. exfalso. unfold in_bounds in Hb. lia.
    + intro H. contradiction.
  - assert (Hb : ~ in_bounds c t) by (intro H; apply B in H; discriminate).
    split; [| split; [| split]].
    + split; [discriminate | intro; contradiction].
    + intro. contradiction.
    + intros _. split; reflexivity.
    + intros _. split; reflexivity.
Qed.

(** The text "Slide 2 of 24" is read as slide 2 of 24. *)
Lemma method2_bounds_witness :
  getSlideInfo doc_text_counter = Some {| current := Num 2; total := Num 24 |}.
Proof.
  destruct (method2_bounds doc_text_counter _ eq_refl eq_refl)
    as [c [t [_ [Hc [Ht [_ [Hin _]]]]]]].
  vm_compute in Hc. vm_compute in Ht.
  injection Hc as Hc. injection Ht as Ht. subst c t.
  apply Hin. unfold in_bounds. lia.
Defined.

(** "12/2024" comes first in the text, is out of bounds, and nothing else of
    the text is tried. *)
Example method2_rejects_a_date :
  method2 doc_date_first = None /\ getSlideInfo doc_date_first = None.
Proof. split; vm_compute; reflexivity. Qed.

(** C10.  When an element under one of the page-label selectors reads as
    "current / total" or "current of total" (the first such selector
    deciding), [getSlideInfo] answers the two numbers written there as they
    stand: they are natural numbers and nothing more is asked of them, no
    bound is checked; and the listener answers with the slides, without
    looking for a gate or trying another heuristic. *)
Theorem method1_unbounded (d : Document) (pre post : list selector)
    (sel : selector) (el : Element) (m : match_result) :
  pageLabelSelectors = (pre ++ sel :: post)%list ->
  Forall (no_label d) pre ->
  querySelector d sel = Some el ->
  match_ re_pageLabel (textContent el) = Some m ->
  exists c t,
    (0 <= c /\ 0 <= t)%Z
    /\ parseInt_opt (group 1 m) = Num c /\ parseInt_opt (group 2 m) = Num t
    /\ getSlideInfo d = Some {| current := Num c; total := Num t |}
    /\ onGetSlideInfo d = SlidesFound (Num c) (Num t) (getDocumentTitle d).
Proof.
  intros Hsels Hpre Hq Hm.
  destruct (pageLabel_groups _ _ Hm) as [g1 [g2 [Hd1 [Hd2 [Hg1 Hg2]]]]].
  destruct (groups_numeric m g1 g2 Hd1 Hd2 Hg1 Hg2) as [c [t [Hpos [Hc Ht]]]].
  exists c, t. split; [exact Hpos |]. split; [exact Hc |]. split; [exact Ht |].
  assert (E : getSlideInfo d = Some {| current := Num c; total := Num t |}).
  { unfold getSlideInfo, method1. rewrite Hsels.
    rewrite (pageLabel_loop_first d pre sel post el m Hpre Hq Hm).
    now rewrite Hc, Ht. }
  split; [exact E |]. unfold onGetSlideInfo. now rewrite E.
Qed.

(** A label "3 / 1000" is answered as 3 of 1000, although an email form is
    visible on the page. *)
Lemma method1_unbounded_witness :
  isAuthRequired doc_big_label = true
  /\ onGetSlideInfo doc_big_label = SlidesFound (Num 3) (Num 1000) (js "Roadmap").
Proof.
  split; [reflexivity |].
  destruct (method1_unbounded doc_big_label [] (tl pageLabelSelectors)
              (hd (SelTag "") pageLabelSelectors) _ _
              eq_refl (Forall_nil _) eq_refl eq_refl)
    as [c [t [_ [Hc [Ht [_ Hanswer]]]]]].
  vm_compute in Hc. vm_compute in Ht.
  injection Hc as Hc. injection Ht as Ht. subst c t.
  exact Hanswer.
Defined.

(** A label "7 of 2", found under the eighth selector, is answered as
    slide 7 of 2. *)
Example method1_accepts_current_past_total :
  getSlideInfo doc_label_past_end = Some {| current := Num 7; total := Num 2 |}.
Proof. vm_compute. reflexivity. Qed.

(** What the listener answers: "access gated" exactly when the four
    heuristics have failed and the script takes a gate for rendered,
    "undetectable" exactly when they have failed and it does not, and the
    slides when a heuristic succeeds, whatever the gate. *)
Lemma onGetSlideInfo_answers (d : Document) :
  (onGetSlideInfo d = AuthRequired <-> all_heuristics_fail d /\ gate_rendered d)
  /\ (onGetSlideInfo d = DetectError undetectable_message
      <-> all_heuristics_fail d /\ ~ gate_rendered d)
  /\ (forall si, getSlideInfo d = Some si ->
        onGetSlideInfo d = SlidesFound (current si) (total si) (getDocumentTitle d)).
Proof.
  unfold onGetSlideInfo.
  rewrite <- getSlideInfo_None, <- isAuthRequired_spec.
  destruct (getSlideInfo d) as [si |]; [| destruct (isAuthRequired d)].
  - split; [| split].
    + split; [discriminate | intros [E _]; discriminate E].
    + split; [discriminate | intros [E _]; discriminate E].
    + intros si' E. now injection E as <-.
  - split; [| split].
    + split; [intros _; now split | reflexivity].
    + split; [discriminate | intros [_ H]; now elim H].
    + discriminate.
  - split; [| split].
    + split; [discriminate | intros [_ H]; discriminate H].
    + split; [intros _; split; [reflexivity | discriminate] | reflexivity].
    + discriminate.
Qed.

Lemma visibly_rendered_height (el : Element) :
  visibly_rendered el = true -> (0 < rect_height el)%Z.
Proof.
  unfold visibly_rendered. intro H. apply andb_prop in H. destruct H as [_ H].
  now apply Z.ltb_lt.
Qed.

(** C8, on the code.  The gate check of [isAuthRequired] asks a bounding
    box of positive height of the email input only.  For the first
    element of a known gate container it reads computed display and
    visibility and nothing else: when the heuristics have failed and such
    an element is shown by its style, the listener answers "access
    gated" whatever its bounding box, also when the box is empty, so that
    the element is not visibly rendered, and when no gating control of the
    page is. *)
Theorem onGetSlideInfo_gate (d : Document) (sel : selector) (el : Element) :
  all_heuristics_fail d ->
  In sel gateSelectors ->
  querySelector d sel = Some el ->
  style_shown el ->
  onGetSlideInfo d = AuthRequired
  /\ ((rect_height el <= 0)%Z -> visibly_rendered el = false)
  /\ (forall input, querySelector d emailInput = Some input ->
        emailInputVisible d = true -> (0 < rect_height input)%Z).
Proof.
  intros Hfail Hsel Hq Hshown. split; [| split].
  - apply (proj1 (onGetSlideInfo_answers d)). split; [exact Hfail |].
    right. now exists sel, el.
  - intro Hflat. destruct (visibly_rendered el) eqn:E; [| reflexivity].
    apply visibly_rendered_height in E. lia.
  - intros input Hinput Hvisible. apply emailInputVisible_spec in Hvisible.
    destruct Hvisible as [input' [Hq' [_ Hheight]]].
    rewrite Hinput in Hq'. now injection Hq' as <-.
Qed.

(** The page without slides whose gate container has an empty box: gated,
    with no gating control visibly rendered. *)
Lemma onGetSlideInfo_gate_witness :
  onGetSlideInfo doc_flat_gate = AuthRequired
  /\ visibly_rendered (block "" 0) = false
  /\ gating_control_visible doc_flat_gate = false.
Proof.
  assert (Hshown : style_shown (block "" 0)).
  { split; intro H; vm_compute in H; discriminate H. }
  destruct (onGetSlideInfo_gate doc_flat_gate (SelClass "email-gate") (block "" 0))
    as [Hgated [Hflat _]].
  - repeat split; reflexivity.
  - vm_compute. tauto.
  - reflexivity.
  - exact Hshown.
  - split; [exact Hgated |]. split; [apply Hflat; cbn; lia | reflexivity].
Defined.

End LocatorFacts.

(* ===================================================================== *)
(** ** Properties of the file name                                       *)
(* ===================================================================== *)

Module NamingFacts.

Import Js Worker NamingSpec JsFacts.

Lemma collapse_runs_dropWhile (s : jsstring) :
  collapse_runs true s = collapse_runs false (dropWhile isWhiteSpace s).
Proof.
  induction s as [| c s IH]; [reflexivity |].
  cbn [collapse_runs dropWhile]. destruct (isWhiteSpace c) eqn:E.
  - exact IH.
  - cbn [collapse_runs]. now rewrite E.
Qed.

Lemma replace_loop_whitespace :
  forall fuel pre inp,
  (List.length inp < fuel)%nat ->
  replace_loop fuel (RPlus isWhiteSpace) (js "-") pre inp = collapse_runs false inp.
Proof.
  induction fuel as [| fuel IH]; intros pre inp Hlen; [lia |].
  destruct inp as [| c inp]; [reflexivity |].
  cbn in Hlen.
  cbn [replace_loop RPlus rmatch rest consumed caps collapse_runs].
  destruct (isWhiteSpace c) eqn:E.
  - destruct (star_loop_total isWhiteSpace inp (c :: pre) []) as [pre' [-> Hpre]].
    cbn [consumed rest]. cbn [List.length] in Hpre.
    replace (List.length pre <? List.length pre')%nat with true
      by (symmetry; apply Nat.ltb_lt; lia).
    rewrite IH by (pose proof (length_dropWhile isWhiteSpace inp); lia).
    rewrite collapse_runs_dropWhile. reflexivity.
  - f_equal. apply IH. lia.
Qed.

Lemma replaceAll_whitespace (s : jsstring) :
  replaceAll (RPlus isWhiteSpace) (js "-") s = collapse_runs false s.
Proof. unfold replaceAll. apply replace_loop_whitespace. lia. Qed.

Lemma isIllegal_reserved (c : code_unit) : isIllegal c = reserved c.
Proof.
  unfold isIllegal. cbn [existsb].
  destruct (N.eq_dec c 60) as [-> | H60]; [reflexivity |].
  destruct (N.eq_dec c 62) as [-> | H62]; [reflexivity |].
  destruct (N.eq_dec c 58) as [-> | H58]; [reflexivity |].
  destruct (N.eq_dec c 34) as [-> | H34]; [reflexivity |].
  destruct (N.eq_dec c 47) as [-> | H47]; [reflexivity |].
  destruct (N.eq_dec c 92) as [-> | H92]; [reflexivity |].
  destruct (N.eq_dec c 124) as [-> | H124]; [reflexivity |].
  destruct (N.eq_dec c 63) as [-> | H63]; [reflexivity |].
  destruct (N.eq_dec c 42) as [-> | H42]; [reflexivity |].
  apply N.eqb_neq in H60, H62, H58, H34, H47, H92, H124, H63, H42.
  rewrite H60, H62, H58, H34, H47, H92, H124, H63, H42. cbn [orb].
  unfold reserved.
  repeat match goal with
         | |- context [match ?x with _ => _ end] => destruct x; try reflexivity
         end;
    repeat match goal with
           | H : (_ =? _)%N = false |- _ => try discriminate H; clear H
           end.
Qed.

Lemma strip_reserved_class (s : jsstring) :
  replaceAll (RClass isIllegal) [] s = strip_reserved s.
Proof.
  rewrite replaceAll_class. unfold strip_reserved.
  apply filter_ext. intro c. now rewrite isIllegal_reserved.
Qed.

Lemma collapse_runs_clean (s : jsstring) :
  Forall (fun c => reserved c = false) s ->
  forall in_run,
  Forall (fun c => reserved c = false /\ isWhiteSpace c = false) (collapse_runs in_run s).
Proof.
  induction 1 as [| c s Hc _ IH]; intro in_run; cbn [collapse_runs]; [constructor |].
  destruct (isWhiteSpace c) eqn:E.
  - destruct in_run; [apply IH |]. constructor; [split; reflexivity | apply IH].
  - constructor; [split; assumption | apply IH].
Qed.

Lemma strip_reserved_clean (s : jsstring) :
  Forall (fun c => reserved c = false) (strip_reserved s).
Proof.
  apply Forall_forall. intros c Hc. apply filter_In in Hc.
  destruct Hc as [_ Hc]. now apply negb_true_iff in Hc.
Qed.

(** C9, as stated, fails on a title with a control character that is not
    white space: U+0001 may not stand in a file name, and it is kept. *)
Lemma safeName_keeps_control_character :
  illegal_in_filenames 1%N = true
  /\ safeName [97; 1; 98]%N = [97; 1; 98]%N.
Proof. split; vm_compute; reflexivity. Qed.

(** C9, amended.  The file name [downloadPdf] derives from a title is the
    title with the nine reserved characters stripped, then every maximal
    run of white space put as one hyphen, then cut to its first 100 units;
    the default name stands in exactly when that result is empty.  So the
    name has at most 100 units and holds neither a reserved character nor
    white space; of the characters that may not stand in a file name it
    can hold only control characters that are not white space, and these
    are not stripped. *)
Theorem safeName_derivation (title : jsstring) :
  safeName title = derive_filename title
  /\ (List.length (safeName title) <= 100)%nat
  /\ Forall (fun c => reserved c = false /\ isWhiteSpace c = false) (safeName title)
  /\ (forall c, In c (safeName title) -> illegal_in_filenames c = true ->
        control c = true /\ isWhiteSpace c = false)
  /\ (forall c, control c = true -> isWhiteSpace c = false ->
        safeName [c] = [c])
  /\ (firstn 100 (collapse_runs false (strip_reserved title)) = []
      -> safeName title = js "docsend-presentation")
  /\ (firstn 100 (collapse_runs false (strip_reserved title)) <> []
      -> safeName title = firstn 100 (collapse_runs false (strip_reserved title))).
Proof.
  assert (E : forall t, safeName t = derive_filename t).
  { intro t. unfold safeName, derive_filename, substring0, or_else.
    rewrite strip_reserved_class, replaceAll_whitespace. reflexivity. }
  assert (Hclean : Forall (fun c => reserved c = false /\ isWhiteSpace c = false)
                          (safeName title)).
  { rewrite E. unfold derive_filename. cbv zeta.
    pose proof (collapse_runs_clean _ (strip_reserved_clean title) false) as H.
    rewrite <- (firstn_skipn 100) in H. apply Forall_app in H. destruct H as [H _].
    destruct (firstn 100 (collapse_runs false (strip_reserved title))) as [| c s];
      [| exact H].
    vm_compute. repeat constructor. }
  split; [apply E |]. split; [| split; [exact Hclean | split; [| split; [| split]]]].
  - rewrite E. unfold derive_filename. cbv zeta.
    pose proof (length_firstn 100 (collapse_runs false (strip_reserved title))) as Hlen.
    destruct (firstn 100 (collapse_runs false (strip_reserved title))) as [| c s].
    + cbn. lia.
    + lia.
  - intros c Hin Hillegal. rewrite Forall_forall in Hclean.
    destruct (Hclean c Hin) as [Hres Hws]. split; [| exact Hws].
    unfold illegal_in_filenames in Hillegal. rewrite Hres, orb_false_r in Hillegal.
    exact Hillegal.
  - intros c Hctl Hws. rewrite E. unfold derive_filename, strip_reserved. cbv zeta.
    assert (Hres : reserved c = false).
    { unfold control in Hctl. apply N.ltb_lt in Hctl.
      destruct (reserved c) eqn:R; [| reflexivity].
      unfold reserved in R.
      repeat match type of R with
             | match ?x with _ => _ end = true => destruct x; try discriminate R
             end; lia. }
    cbn [filter]. rewrite Hres. cbn [negb collapse_runs]. rewrite Hws. reflexivity.
  - intro H. rewrite E. unfold derive_filename. cbv zeta. now rewrite H.
  - intro H. rewrite E. unfold derive_filename. cbv zeta.
    destruct (firstn 100 (collapse_runs false (strip_reserved title))); [now elim H |].
    reflexivity.
Qed.

Example safeName_of_a_title :
  safeName (js "Q3: Plan   <final> v2?") = js "Q3-Plan-final-v2".
Proof. vm_compute. reflexivity. Qed.

Example safeName_of_nothing_legal :
  safeName [58; 63; 42]%N = default_name.
Proof. vm_compute. reflexivity. Qed.

End NamingFacts.

(* ===================================================================== *)
(** ** Properties of the worker                                          *)
(* ===================================================================== *)

Module WorkerFacts.

Import Js Worker RunSpec Examples.
Open Scope Z_scope.

Section Running.

Variable env : Env.

Lemma run_bind {A B} (p : Prog A) (f : A -> Prog B) (w : World) :
  run env (bind p f) w =
  match run env p w with
  | (Returned a, w') => run env (f a) w'
  | (Thrown e, w') => (Thrown e, w')
  end.
Proof.
  revert w. induction p as [a | e | ev k IH]; intro w; simpl; auto.
Qed.

Lemma run_try_catch {A} (p : Prog A) (h : Error -> Prog A) (w : World) :
  run env (try_catch p h) w =
  match run env p w with
  | (Returned a, w') => (Returned a, w')
  | (Thrown e, w') => run env (h e) w'
  end.
Proof.
  revert w. induction p as [a | e | ev k IH]; intro w; simpl; auto.
Qed.

Lemma run_try_finally {A} (p : Prog A) (f : Prog unit) (w : World) :
  run env (try_finally p f) w =
  match run env p w with
  | (Returned a, w') =>
      match run env f w' with
      | (Returned _, w'') => (Returned a, w'')
      | (Thrown e, w'') => (Thrown e, w'')
      end
  | (Thrown e, w') =>
      match run env f w' with
      | (Returned _, w'') => (Thrown e, w'')
      | (Thrown e', w'') => (Thrown e', w'')
      end
  end.
Proof.
  revert w. induction p as [a | e | ev k IH]; intro w; simpl; auto.
  - rewrite run_bind. destruct (run env f w) as [[u | e] w']; reflexivity.
  - rewrite run_bind. destruct (run env f w) as [[u | e'] w']; reflexivity.
Qed.

Lemma log_app (a b : list Event) (w : World) : log (a ++ b) w = log b (log a w).
Proof. apply fold_left_app. Qed.

Lemma history_log (evs : list Event) (w : World) :
  history (log evs w) = (history w ++ evs)%list.
Proof.
  revert w. induction evs as [| ev evs IH]; intro w; simpl.
  - now rewrite app_nil_r.
  - rewrite IH. simpl. now rewrite <- app_assoc.
Qed.

Lemma count_app (p : Event -> bool) (a b : list Event) :
  count p (a ++ b) = (count p a + count p b)%nat.
Proof. unfold count. now rewrite filter_app, length_app. Qed.

Lemma fetches_record (ev : Event) (w : World) :
  fetches (record ev w) = (fetches w + if is_fetch ev then 1 else 0)%nat.
Proof.
  unfold fetches. simpl. rewrite count_app. unfold count. simpl.
  destruct (is_fetch ev); reflexivity.
Qed.

Lemma fetches_log (evs : list Event) (w : World) :
  fetches (log evs w) = (fetches w + count is_fetch evs)%nat.
Proof. unfold fetches. now rewrite history_log, count_app. Qed.

Lemma delays_log (evs : list Event) (w : World) :
  delays (log evs w) =
  (delays w ++ flat_map (fun ev => match ev with SetTimeout ms => [ms] | _ => [] end) evs)%list.
Proof. unfold delays. now rewrite history_log, flat_map_app. Qed.

(** **** The retry loop *)

Lemma served_cons (url : jsstring) (n : nat) (r : Response) (rs : list Response) :
  served env url n (r :: rs) ->
  net env n url = Fulfilled r /\ served env url (S n) rs.
Proof.
  intro H. split.
  - specialize (H 0%nat r eq_refl). now rewrite Nat.add_0_r in H.
  - intros i x Hx. specialize (H (S i) x Hx). now rewrite Nat.add_succ_r in H.
Qed.

(** An attempt answered 429 sleeps and leaves the rest of the budget to the
    next attempt. *)
Lemma iteration_429 (url : jsstring) (maxRetries remaining attempt : nat)
    (w : World) (r : Response) :
  net env (fetches w) url = Fulfilled r ->
  too_many_requests r ->
  run env (retry_loop url maxRetries (S remaining) attempt) w =
  run env (retry_loop url maxRetries remaining (S attempt))
      (log [Fetch url; SetTimeout (backoff r attempt)] w).
Proof.
  intros Hnet H429. unfold too_many_requests in H429.
  cbn [retry_loop]. rewrite run_bind, run_try_catch.
  unfold attempt_body, fetch. cbn [bind run answer]. rewrite Hnet.
  cbn [settle bind]. rewrite H429. cbn [Z.eqb Pos.eqb].
  reflexivity.
Qed.

(** An attempt answered with a success status returns the body. *)
Lemma iteration_ok (url : jsstring) (maxRetries remaining attempt : nat)
    (w : World) (r : Response) (b : bytes) :
  net env (fetches w) url = Fulfilled r ->
  ok r = true ->
  body r = Fulfilled b ->
  run env (retry_loop url maxRetries (S remaining) attempt) w =
  (Returned (ArrayBuf b), log [Fetch url; ArrayBuffer r] w).
Proof.
  intros Hnet Hok Hbody.
  assert (H429 : (status r =? 429) = false).
  { unfold ok in Hok. apply andb_prop in Hok. destruct Hok as [_ Hhi].
    apply Z.leb_le in Hhi. apply Z.eqb_neq. lia. }
  cbn [retry_loop]. rewrite run_bind, run_try_catch.
  unfold attempt_body, fetch. cbn [bind run answer]. rewrite Hnet.
  cbn [settle bind]. rewrite H429, Hok. cbn [negb].
  unfold arrayBuffer. cbn [bind run answer]. rewrite Hbody.
  reflexivity.
Qed.

Lemma count_fetch_throttled (url : jsstring) (rs : list Response) (attempt : nat) :
  count is_fetch (throttled url rs attempt) = List.length rs.
Proof.
  revert attempt. induction rs as [| r rs IH]; intro attempt; [reflexivity |].
  unfold count in *. cbn. now rewrite IH.
Qed.

Lemma delays_throttled (url : jsstring) (rs : list Response) (attempt : nat) :
  flat_map (fun ev => match ev with SetTimeout ms => [ms] | _ => [] end)
           (throttled url rs attempt)
  = backoffs rs attempt.
Proof.
  revert attempt. induction rs as [| r rs IH]; intro attempt; cbn;
    [| rewrite IH]; reflexivity.
Qed.

Lemma retry_loop_throttled (url : jsstring) (maxRetries : nat) (rs : list Response) :
  forall remaining attempt w,
  served env url (fetches w) rs ->
  Forall too_many_requests rs ->
  (List.length rs <= remaining)%nat ->
  run env (retry_loop url maxRetries remaining attempt) w =
  run env (retry_loop url maxRetries (remaining - List.length rs)
                      (attempt + List.length rs))
      (log (throttled url rs attempt) w).
Proof.
  induction rs as [| r rs IH]; intros remaining attempt w Hs H429 Hlen.
  - cbn. now rewrite Nat.sub_0_r, Nat.add_0_r.
  - destruct remaining as [| remaining]; [cbn in Hlen; lia |].
    apply served_cons in Hs. destruct Hs as [Hr Hs].
    inversion H429 as [| ? ? Hst H429']; subst.
    rewrite (iteration_429 url maxRetries remaining attempt w r Hr Hst).
    rewrite IH.
    + cbn [List.length throttled]. rewrite Nat.add_succ_r. reflexivity.
    + rewrite fetches_log. unfold count. cbn.
      now replace (fetches w + 1)%nat with (S (fetches w)) by lia.
    + exact H429'.
    + cbn in Hlen. lia.
Qed.

Lemma backoffs_constant (h : Z) (rs : list Response) :
  Forall (fun r => hint r = Num h) rs ->
  forall attempt,
  backoffs rs attempt =
  map (fun n => Num (h * 1000 * Z.of_nat n)) (seq attempt (List.length rs)).
Proof.
  induction 1 as [| r rs Hr _ IH]; intro attempt; cbn [backoffs List.length seq map].
  - reflexivity.
  - rewrite IH. unfold backoff. unfold hint in Hr. rewrite Hr. reflexivity.
Qed.

Lemma increasing_multiples (h : Z) :
  0 < h ->
  forall len attempt,
  strictly_increasing (map (fun n => Num (h * 1000 * Z.of_nat n)) (seq attempt len)).
Proof.
  intros Hh. induction len as [| len IH]; intro attempt; cbn [seq map].
  - constructor.
  - constructor; [apply IH |].
    apply Forall_forall. intros y Hy. apply in_map_iff in Hy.
    destruct Hy as [n [<- Hn]]. apply in_seq in Hn. cbn. apply Z.ltb_lt. nia.
Qed.

(** **** The assembler *)

Lemma has_png_signature_spec (bs : bytes) :
  has_png_signature bs = true <-> firstn 4 bs = png_signature.
Proof.
  unfold has_png_signature, byte_is, png_signature.
  destruct bs as [| b0 [| b1 [| b2 [| b3 bs]]]]; cbn [nth_error firstn];
    (split; [intro H | intro H; try discriminate H]).
  - discriminate H.
  - destruct (Byte.eqb b0 x89); discriminate H.
  - destruct (Byte.eqb b0 x89), (Byte.eqb b1 x50); discriminate H.
  - destruct (Byte.eqb b0 x89), (Byte.eqb b1 x50), (Byte.eqb b2 x4e); discriminate H.
  - repeat (apply andb_prop in H; destruct H as [H ?]).
    repeat match goal with E : Byte.eqb _ _ = true |- _ => apply Byte.byte_dec_bl in E end.
    now subst.
  - injection H as -> -> -> ->. reflexivity.
Qed.

Lemma classified_png_signature (d : ImageData) :
  classified_png d = has_png_signature (uint8Array d).
Proof.
  unfold classified_png. destruct (bytes_eq_dec _ _) as [E | E].
  - symmetry. now apply has_png_signature_spec.
  - destruct (has_png_signature (uint8Array d)) eqn:H; [| reflexivity].
    apply has_png_signature_spec in H. contradiction.
Qed.

Lemma run_embed (d : ImageData) (image : Image) (w : World) :
  embeds env d image ->
  run env (embed d) w = (Returned image, record (embed_call d) w).
Proof.
  unfold embeds, embed, embed_call. rewrite <- classified_png_signature.
  destruct (classified_png d); intro H; cbn; rewrite H; reflexivity.
Qed.

Lemma run_addPages (imgs : list ImageData) (images : list Image) :
  Forall2 (embeds env) imgs images ->
  forall pdfDoc w,
  run env (addPages imgs pdfDoc) w =
  (Returned (pdfDoc ++ map page_for images)%list, log (map embed_call imgs) w).
Proof.
  induction 1 as [| d image imgs images Hd _ IH]; intros pdfDoc w.
  - cbn. now rewrite app_nil_r.
  - cbn [addPages]. rewrite run_bind, (run_embed d image w Hd), IH.
    cbn. now rewrite <- app_assoc.
Qed.

End Running.

(** **** Attempts that fail *)

Section Exhaustion.

Variable env : Env.

Lemma failed_body (url : jsstring) (attempt : nat) (w : World) (r : Response) :
  net env (fetches w) url = Fulfilled r ->
  failed r ->
  run env (attempt_body url attempt) w = (Thrown (http_error r), record (Fetch url) w).
Proof.
  intros Hnet [H429 Hok].
  unfold attempt_body, fetch. cbn [bind run answer]. rewrite Hnet.
  cbn [settle bind]. apply Z.eqb_neq in H429. rewrite H429, Hok. reflexivity.
Qed.

Lemma iteration_failed (url : jsstring) (maxRetries remaining attempt : nat)
    (w : World) (r : Response) :
  net env (fetches w) url = Fulfilled r ->
  failed r ->
  attempt <> maxRetries ->
  run env (retry_loop url maxRetries (S remaining) attempt) w =
  run env (retry_loop url maxRetries remaining (S attempt))
      (log [Fetch url; SetTimeout (Num (1000 * Z.of_nat attempt))] w).
Proof.
  intros Hnet Hfailed Hne.
  cbn [retry_loop]. rewrite run_bind, run_try_catch, (failed_body url attempt w r Hnet Hfailed).
  unfold attempt_catch. apply Nat.eqb_neq in Hne. rewrite Hne. reflexivity.
Qed.

Lemma iteration_failed_last (url : jsstring) (maxRetries remaining : nat)
    (w : World) (r : Response) :
  net env (fetches w) url = Fulfilled r ->
  failed r ->
  run env (retry_loop url maxRetries (S remaining) maxRetries) w =
  (Thrown (http_error r), log [Fetch url] w).
Proof.
  intros Hnet Hfailed.
  cbn [retry_loop]. rewrite run_bind, run_try_catch, (failed_body url maxRetries w r Hnet Hfailed).
  unfold attempt_catch. rewrite Nat.eqb_refl. reflexivity.
Qed.

Lemma count_fetch_retried (url : jsstring) (rs : list Response) (attempt : nat) :
  count is_fetch (retried url rs attempt) = List.length rs.
Proof.
  revert attempt. induction rs as [| r rs IH]; intro attempt; [reflexivity |].
  unfold count in *. cbn. now rewrite IH.
Qed.

Lemma retry_loop_retried (url : jsstring) (maxRetries : nat) (rs : list Response) :
  forall remaining attempt w,
  served env url (fetches w) rs ->
  Forall failed rs ->
  (List.length rs <= remaining)%nat ->
  (attempt + List.length rs <= maxRetries)%nat ->
  run env (retry_loop url maxRetries remaining attempt) w =
  run env (retry_loop url maxRetries (remaining - List.length rs)
                      (attempt + List.length rs))
      (log (retried url rs attempt) w).
Proof.
  induction rs as [| r rs IH]; intros remaining attempt w Hs Hf Hlen Hmax.
  - cbn. now rewrite Nat.sub_0_r, Nat.add_0_r.
  - destruct remaining as [| remaining]; [cbn in Hlen; lia |].
    apply served_cons in Hs. destruct Hs as [Hr Hs].
    inversion Hf as [| ? ? Hfr Hf']; subst. cbn [List.length] in *.
    rewrite (iteration_failed url maxRetries remaining attempt w r Hr Hfr) by lia.
    rewrite IH.
    + cbn [retried]. rewrite Nat.add_succ_r. reflexivity.
    + rewrite fetches_log. unfold count. cbn.
      now replace (fetches w + 1)%nat with (S (fetches w)) by lia.
    + exact Hf'.
    + lia.
    + lia.
Qed.

End Exhaustion.

(** **** Retrying fetch *)

(** C3, on the code.  When every one of the [maxRetries] attempts is
    answered 429, [fetchImageWithRetry] sleeps after each of them and then
    returns [undefined]: no error reaches the caller. *)
Theorem fetchImageWithRetry_all_429 (env : Env) (url : jsstring) (maxRetries : nat)
    (w : World) (rs : list Response) :
  served env url (fetches w) rs ->
  Forall too_many_requests rs ->
  List.length rs = maxRetries ->
  run env (fetchImageWithRetry url maxRetries) w =
  (Returned Undefined, log (throttled url rs 1) w).
Proof.
  intros Hs H429 Hlen. unfold fetchImageWithRetry.
  rewrite (retry_loop_throttled env url maxRetries rs maxRetries 1 w Hs H429) by lia.
  rewrite Hlen, Nat.sub_diag. reflexivity.
Qed.

Lemma served_scripted (rs : list Response) (url : jsstring) :
  served (scripted rs) url (fetches initial) rs.
Proof. intros i r H. cbn. now rewrite H. Qed.

(** Three answers 429 with [maxRetries = 3]: three sleeps, then [undefined]. *)
Lemma fetchImageWithRetry_all_429_witness :
  run (scripted three_429) (fetchImageWithRetry url1 3) initial =
  (Returned Undefined,
   {| activeCapture := None;
      history := [Fetch url1; SetTimeout (Num 1000);
                  Fetch url1; SetTimeout (Num 2000);
                  Fetch url1; SetTimeout (Num 3000)] |}).
Proof.
  refine (fetchImageWithRetry_all_429 (scripted three_429) url1 3 initial three_429
            (served_scripted three_429 url1) _ eq_refl).
  repeat constructor.
Defined.

(** C5, amended.  Any attempt [n] that is answered 429 sleeps [hint * 1000 * n]
    milliseconds, the hint being the Retry-After header read by [parseInt],
    or 2 when the header is absent or empty, and then the loop goes on with
    attempt [n + 1] and one iteration less: a 429 uses up one attempt of the
    one budget [maxRetries].  So, when the first [k] attempts are answered
    429, with [k] less than [maxRetries], and the next one with a success
    status and the body [b], [fetchImageWithRetry] returns [b] after [k + 1]
    fetches and the [k] sleeps: each sleep follows the hint of its own
    response.  When the hints are one number [h > 0] of seconds the sleeps
    are [h * 1000 * 1], ..., [h * 1000 * k], strictly increasing; with
    other hints they need not increase. *)
Theorem fetchImageWithRetry_429_backoff (env : Env) (url : jsstring) (maxRetries : nat)
    (w : World) (rs : list Response) (r : Response) (b : bytes) :
  (List.length rs < maxRetries)%nat ->
  Forall too_many_requests rs ->
  served env url (fetches w) (rs ++ [r]) ->
  ok r = true ->
  body r = Fulfilled b ->
  let w' := log (throttled url rs 1 ++ [Fetch url; ArrayBuffer r]) w in
  (forall remaining n w0 r0,
     net env (fetches w0) url = Fulfilled r0 ->
     too_many_requests r0 ->
     run env (retry_loop url maxRetries (S remaining) n) w0 =
     run env (retry_loop url maxRetries remaining (S n))
         (log [Fetch url; SetTimeout (backoff r0 n)] w0))
  /\ run env (fetchImageWithRetry url maxRetries) w = (Returned (ArrayBuf b), w')
  /\ delays w' = (delays w ++ backoffs rs 1)%list
  /\ fetches w' = (fetches w + List.length rs + 1)%nat
  /\ (forall r' n, retry_after r' = None ->
        backoff r' n = Num (2 * 1000 * Z.of_nat n))
  /\ (forall r' n c s v, retry_after r' = Some (c :: s) -> parseInt (c :: s) = Num v ->
        backoff r' n = Num (v * 1000 * Z.of_nat n))
  /\ (forall h, 0 < h ->
       Forall (fun r' => hint r' = Num h) rs ->
       backoffs rs 1 = map (fun n => Num (h * 1000 * Z.of_nat n)) (seq 1 (List.length rs))
       /\ strictly_increasing (backoffs rs 1)).
Proof.
  intros Hlen H429 Hs Hok Hbody w'.
  assert (Hs1 : served env url (fetches w) rs).
  { intros i x Hx. apply Hs. rewrite nth_error_app1; [exact Hx |].
    apply nth_error_Some. congruence. }
  assert (Hr : net env (fetches w + List.length rs) url = Fulfilled r).
  { apply Hs. rewrite nth_error_app2, Nat.sub_diag by lia. reflexivity. }
  split; [| split; [| split; [| split; [| split; [| split]]]]].
  - intros remaining n w0 r0. apply iteration_429.
  - unfold fetchImageWithRetry.
    rewrite (retry_loop_throttled env url maxRetries rs maxRetries 1 w Hs1 H429) by lia.
    destruct (maxRetries - List.length rs)%nat as [| remaining] eqn:Hrem; [lia |].
    rewrite (iteration_ok env url maxRetries remaining _ _ r b); auto.
    + unfold w'. now rewrite log_app.
    + now rewrite fetches_log, count_fetch_throttled.
  - unfold w'. rewrite delays_log, flat_map_app, delays_throttled.
    cbn. now rewrite app_nil_r.
  - unfold w'. rewrite fetches_log, count_app, count_fetch_throttled.
    unfold count. cbn. lia.
  - intros r' n Hnone. unfold backoff, retryAfter_header. rewrite Hnone. reflexivity.
  - intros r' n c s v Hsome Hv. unfold backoff, retryAfter_header.
    rewrite Hsome. cbn [or_else]. rewrite Hv. reflexivity.
  - intros h Hh Hhints. split.
    + now apply backoffs_constant.
    + rewrite (backoffs_constant h rs Hhints). now apply increasing_multiples.
Qed.

(** Three answers 429 asking for one second each, then 200, with
    [maxRetries = 4]: the body, after sleeps of 1000, 2000 and 3000 ms. *)
Lemma fetchImageWithRetry_429_backoff_witness :
  fst (run (scripted (three_429 ++ [response 200 None]))
           (fetchImageWithRetry url1 4) initial)
  = Returned (ArrayBuf payload)
  /\ delays (snd (run (scripted (three_429 ++ [response 200 None]))
                     (fetchImageWithRetry url1 4) initial))
     = [Num 1000; Num 2000; Num 3000]
  /\ strictly_increasing [Num 1000; Num 2000; Num 3000].
Proof.
  pose proof (fetchImageWithRetry_429_backoff
                (scripted (three_429 ++ [response 200 None])) url1 4 initial
                three_429 (response 200 None) payload) as H.
  destruct H as [_ [Hrun [Hdelays [_ [_ [_ Hinc]]]]]].
  - cbn. lia.
  - repeat constructor.
  - apply served_scripted.
  - reflexivity.
  - reflexivity.
  - rewrite Hrun. split; [reflexivity |]. split; [exact Hdelays |].
    refine (proj2 (Hinc 1 _ _)); [lia | repeat constructor].
Defined.

(** C5, as stated, fails when the hints differ: three answers 429 asking
    for 3, 1 and 1 seconds and then 200, with [maxRetries = 4], give the
    bytes after sleeps of 3000, 2000 and 3000 ms, the second shorter than
    the first. *)
Lemma fetchImageWithRetry_delays_follow_hints :
  fst (run (scripted [response 429 (Some "3"); response 429 (Some "1");
                      response 429 (Some "1"); response 200 None])
           (fetchImageWithRetry url1 4) initial)
  = Returned (ArrayBuf payload)
  /\ delays (snd (run (scripted [response 429 (Some "3"); response 429 (Some "1");
                                 response 429 (Some "1"); response 200 None])
                      (fetchImageWithRetry url1 4) initial))
     = [Num 3000; Num 2000; Num 3000]
  /\ nlt (Num 3000) (Num 2000) = false.
Proof. repeat split; vm_compute; reflexivity. Qed.

(** Sleeps of 3000, 2000 and 3000 ms are not strictly increasing. *)
Example delays_not_increasing :
  ~ strictly_increasing [Num 3000; Num 2000; Num 3000].
Proof.
  unfold strictly_increasing. intro H. apply StronglySorted_inv in H.
  destruct H as [_ H]. apply Forall_inv in H. vm_compute in H. discriminate H.
Qed.

(** The sleeps follow the hints: with a hint of zero seconds they are all
    zero, and with hints of 3, 1 and 1 seconds they are 3000, 2000 and
    3000 ms. *)
Example backoffs_follow_the_hints :
  backoffs [response 429 (Some "0"); response 429 (Some "0"); response 429 (Some "0")] 1
  = [Num 0; Num 0; Num 0]
  /\ backoffs [response 429 (Some "3"); response 429 (Some "1"); response 429 (Some "1")] 1
     = [Num 3000; Num 2000; Num 3000].
Proof. split; reflexivity. Qed.

(** **** The assembler *)

(** C7.  [generatePdf] takes an image for a PNG exactly when its first four
    bytes are the PNG signature, and for a JPEG otherwise.  When pdf-lib
    embeds every image of the sequence (each by the decoder of its class)
    and serialises the document, [generatePdf] returns the serialisation of
    a document with one page per image, in order, each of the size of its
    image and showing it unscaled at the origin. *)
Theorem generatePdf_pages (env : Env) (imgs : list ImageData) (images : list Image)
    (out : bytes) (w : World) :
  Forall2 (embeds env) imgs images ->
  pdf_save env (map page_for images) = Fulfilled out ->
  (forall d, has_png_signature (uint8Array d) = true
             <-> firstn 4 (uint8Array d) = png_signature)
  /\ exists doc,
       run env (generatePdf imgs) w =
       (Returned out, log (map embed_call imgs ++ [PdfSave doc]) w)
       /\ List.length doc = List.length imgs
       /\ Forall2 sized_to images doc.
Proof.
  intros Himgs Hsave. split; [intro d; apply has_png_signature_spec |].
  exists (map page_for images). split; [| split].
  - unfold generatePdf. rewrite run_bind, (run_addPages env imgs images Himgs).
    cbn [app run answer]. rewrite Hsave, log_app. reflexivity.
  - rewrite length_map. symmetry. eapply Forall2_length; eauto.
  - clear. induction images as [| image images IH]; constructor; [| exact IH].
    split; reflexivity.
Qed.

(** A PNG of 800 by 600 and a JPEG of 1024 by 768 give two pages, of 800 by
    600 and of 1024 by 768. *)
Lemma generatePdf_pages_witness :
  exists doc,
    run (scripted []) (generatePdf [ArrayBuf png_800x600; ArrayBuf jpeg_1024x768]) initial
    = (Returned [x25; x50; x44; x46; x02],
       log [EmbedPng (ArrayBuf png_800x600); EmbedJpg (ArrayBuf jpeg_1024x768);
            PdfSave doc] initial)
    /\ map page_size doc = [(800, 600); (1024, 768)].
Proof.
  pose proof (generatePdf_pages (scripted [])
                [ArrayBuf png_800x600; ArrayBuf jpeg_1024x768]
                [ {| width := 800; height := 600 |};
                  {| width := 1024; height := 768 |} ]
                [x25; x50; x44; x46; x02] initial) as H.
  destruct H as [_ [doc [Hrun [_ Hsized]]]].
  - repeat constructor.
  - reflexivity.
  - exists doc. split; [exact Hrun |].
    inversion Hsized as [| ? p1 ? ps1 [H1 _] Hrest]; subst.
    inversion Hrest as [| ? p2 ? ps2 [H2 _] Hnil]; subst.
    inversion Hnil; subst. cbn [map]. now rewrite H1, H2.
Defined.

(** C4, as stated, fails: the empty sequence is assembled without an error,
    into the serialisation of a document to which no page was added. *)
Lemma generatePdf_empty_succeeds :
  run (scripted []) (generatePdf []) initial =
  (Returned [x25; x50; x44; x46; x00],
   {| activeCapture := None; history := [PdfSave []] |}).
Proof. reflexivity. Qed.

(** C4, amended.  For the empty sequence [generatePdf] embeds nothing, adds
    no page, and hands back whatever pdf-lib's [save] yields for the
    document without pages, as a success whenever [save] succeeds; it raises
    no error of its own. *)
Theorem generatePdf_empty (env : Env) (w : World) :
  run env (generatePdf []) w = (outcome_of (pdf_save env []), record (PdfSave []) w).
Proof.
  cbn. destruct (pdf_save env []); reflexivity.
Qed.

(** **** One capture at a time *)

Lemma quiet_bind {A B} (p : Prog A) (f : A -> Prog B) :
  quiet p -> (forall a, quiet (f a)) -> quiet (bind p f).
Proof.
  intros Hp Hf. induction Hp as [a | e | ev k Hev _ IH]; cbn.
  - apply Hf.
  - constructor.
  - constructor; [exact Hev | exact IH].
Qed.

Lemma quiet_try_catch {A} (p : Prog A) (h : Error -> Prog A) :
  quiet p -> (forall e, quiet (h e)) -> quiet (try_catch p h).
Proof.
  intros Hp Hh. induction Hp as [a | e | ev k Hev _ IH]; cbn.
  - constructor.
  - apply Hh.
  - constructor; [exact Hev | exact IH].
Qed.

Lemma quiet_settle {A} (r : settled A) : quiet (settle r).
Proof. destruct r; constructor. Qed.

Ltac quiet_event :=
  apply quiet_Vis; [intros ? ?; discriminate | intro].

Ltac quiet_step :=
  first [ apply quiet_bind; [| intro]
        | apply quiet_try_catch; [| intro]
        | quiet_event
        | apply quiet_settle
        | apply quiet_Ret
        | apply quiet_Throw ].

Lemma quiet_retry_loop (url : jsstring) (maxRetries remaining : nat) :
  forall attempt, quiet (retry_loop url maxRetries remaining attempt).
Proof.
  induction remaining as [| remaining IH]; intro attempt; cbn [retry_loop].
  - constructor.
  - apply quiet_bind.
    + apply quiet_try_catch.
      * unfold attempt_body, fetch, arrayBuffer, delay, perform.
        apply quiet_bind; [quiet_event; apply quiet_settle | intro response].
        destruct (status response =? 429); [| destruct (negb (ok response))];
          repeat quiet_step.
      * intro e. unfold attempt_catch, delay, perform.
        destruct (Nat.eqb attempt maxRetries); repeat quiet_step.
    + intros [| v]; [apply IH | constructor].
Qed.

Lemma quiet_fetchImages_loop (urls : list jsstring) (len : nat) :
  forall i images, quiet (fetchImages_loop urls len i images).
Proof.
  induction urls as [| url urls IH]; intros i images; cbn [fetchImages_loop].
  - constructor.
  - unfold sendProgressUpdate, perform, fetchImageWithRetry.
    apply quiet_bind; [quiet_event; constructor | intros _].
    apply quiet_bind; [apply quiet_retry_loop | intro; apply IH].
Qed.

Lemma quiet_screenshot_loop (tab total : Z) (remaining : nat) :
  forall i screenshots, quiet (screenshot_loop tab total remaining i screenshots).
Proof.
  induction remaining as [| remaining IH]; intros i screenshots; cbn [screenshot_loop].
  - constructor.
  - unfold sendProgressUpdate, captureScreenshot, dataUrlToArrayBuffer, atob,
      sendToContentScript, delay, perform.
    apply quiet_bind; [quiet_event; constructor | intros _].
    apply quiet_bind; [quiet_event; apply quiet_settle | intro dataUrl].
    apply quiet_bind; [repeat quiet_step | intro buf].
    apply quiet_bind; [destruct (i <? total); repeat quiet_step | intros _; apply IH].
Qed.

Lemma quiet_addPages (imgs : list ImageData) :
  forall pdfDoc, quiet (addPages imgs pdfDoc).
Proof.
  induction imgs as [| d imgs IH]; intro pdfDoc; cbn [addPages].
  - constructor.
  - apply quiet_bind; [| intro; apply IH].
    unfold embed. destruct (has_png_signature (uint8Array d)); repeat quiet_step.
Qed.

Lemma quiet_capture_body (tab total : Z) : quiet (capture_body tab total).
Proof.
  unfold capture_body, sendToContentScript.
  apply quiet_bind; [repeat quiet_step | intro titleResponse].
  apply quiet_bind; [destruct titleResponse as [| u [t |]]; constructor | intro documentTitle].
  apply quiet_bind.
  { unfold fetchSlideUrlsViaApi, sendToContentScript.
    apply quiet_try_catch; [| intro; constructor].
    apply quiet_bind; [repeat quiet_step | intros [| [urls |] t]]; try constructor.
    destruct (Z.of_nat (List.length urls) =? total); constructor. }
  intro urls.
  apply quiet_bind.
  { destruct urls as [urls |].
    - apply quiet_fetchImages_loop.
    - unfold captureViaScreenshots, sendToContentScript, delay, perform.
      apply quiet_bind; [repeat quiet_step | intros _].
      apply quiet_bind; [repeat quiet_step | intros _].
      apply quiet_screenshot_loop. }
  intro imageDataArray.
  unfold assemble_and_deliver, sendProgressUpdate, generatePdf, downloadPdf,
    sendComplete, perform.
  apply quiet_bind; [repeat quiet_step | intros _].
  apply quiet_bind.
  { apply quiet_bind; [apply quiet_addPages | intro; repeat quiet_step]. }
  intro pdfBytes. repeat quiet_step.
Qed.

Lemma quiet_session (tab total : Z) :
  quiet (try_catch (capture_body tab total) sendError).
Proof.
  apply quiet_try_catch; [apply quiet_capture_body | intro e].
  unfold sendError, perform. repeat quiet_step.
Qed.

Section OneCapture.

Variable env : Env.

Lemma activeCapture_record (ev : Event) (w : World) :
  (forall c, ev <> WriteActiveCapture c) ->
  activeCapture (record ev w) = activeCapture w.
Proof.
  intro H. destruct ev; try reflexivity. now elim (H c).
Qed.

Lemma run_sync_releasing (q : Prog unit) :
  quiet q ->
  forall w c,
  activeCapture w = Some c ->
  match run_sync env (try_finally q (perform (WriteActiveCapture None))) w with
  | (Finished _, w') => activeCapture w' = None
  | (Suspended t, w') => activeCapture w' = Some c /\ capture_task t
  end.
Proof.
  induction 1 as [a | e | ev k Hev Hk IH]; intros w c Hactive.
  - reflexivity.
  - reflexivity.
  - cbn [try_finally run_sync]. destruct (is_await ev).
    + split.
      * now rewrite activeCapture_record.
      * intro r. exists (k r). split; [apply Hk | reflexivity].
    + apply IH. now rewrite activeCapture_record.
Qed.

Lemma deliver_busy (s : System) (tab total : Z) (c : Capture) :
  activeCapture (world s) = Some c ->
  deliver env (START_CAPTURE tab total) s =
  {| world := log [ReadActiveCapture;
                   RuntimeSendMessage (CAPTURE_ERROR busy_message);
                   SendResponse true] (world s);
     tasks := tasks s |}.
Proof.
  intro Hactive. unfold deliver, spawn, startCapture.
  cbn [perform bind run_sync is_await answer]. rewrite Hactive.
  cbn. now rewrite app_nil_r.
Qed.

Lemma one_capture_step (s s' : System) :
  one_capture s -> step env s s' -> one_capture s'.
Proof.
  intros Hinv Hstep. destruct Hstep as [s [tab total | current total] | w before after ev k r].
  - (* a capture request *)
    destruct Hinv as [[Hidle Hnone] | [c [t [Hactive [Hone Htask]]]]].
    + unfold deliver, spawn, startCapture.
      cbn [perform bind run_sync is_await answer]. rewrite Hidle, Hnone.
      cbn [bind run_sync is_await answer].
      pose proof (run_sync_releasing _ (quiet_session tab total)
                    (record (WriteActiveCapture (Some {| tabId := tab; totalSlides := total |}))
                            (record ReadActiveCapture (world s)))
                    {| tabId := tab; totalSlides := total |} eq_refl) as H.
      destruct (run_sync env _ _) as [[o | t] w'].
      * left. split; [exact H | reflexivity].
      * right. destruct H as [Ha Ht].
        exists {| tabId := tab; totalSlides := total |}, t. auto.
    + rewrite (deliver_busy s tab total c Hactive). right.
      exists c, t. auto.
  - (* progress forwarded *)
    unfold deliver, spawn, sendProgressUpdate. cbn. rewrite app_nil_r.
    destruct Hinv as [[Hidle Hnone] | [c [t [Hactive [Hone Htask]]]]].
    + left. auto.
    + right. exists c, t. auto.
  - (* a promise settles *)
    destruct Hinv as [[Hidle Hnone] | [c [t [Hactive [Hone Htask]]]]];
      cbn [world tasks] in *.
    + destruct before; discriminate Hnone.
    + destruct before as [| t0 before].
      * cbn in Hone. injection Hone as Ht Hafter. subst t after.
        destruct (Htask r) as [q [Hq Hk]].
        unfold spawn. rewrite Hk.
        pose proof (run_sync_releasing q Hq w c Hactive) as H.
        destruct (run_sync env _ w) as [[o | t] w'].
        -- left. split; [exact H | reflexivity].
        -- right. destruct H as [Ha Ht]. exists c, t. auto.
      * destruct before; discriminate Hone.
Qed.

End OneCapture.

(** **** The orchestrator *)

(** C2.  When the listener is called with a capture request while
    [activeCapture] is set, [startCapture] reads the variable, sends the
    error "A capture is already in progress" and returns at once (the
    listener then answers [{ started: true }], as it does to any request):
    the variable (tab and number of slides of the running capture) is
    unchanged, the calls set aside (the running capture, with its progress
    and its images) are unchanged, and no call is added to them. *)
Theorem startCapture_busy (env : Env) (s : System) (tab total : Z) (c : Capture) :
  activeCapture (world s) = Some c ->
  let s' := deliver env (START_CAPTURE tab total) s in
  s' = {| world := log [ReadActiveCapture;
                        RuntimeSendMessage (CAPTURE_ERROR busy_message);
                        SendResponse true] (world s);
          tasks := tasks s |}
  /\ activeCapture (world s') = Some c
  /\ tasks s' = tasks s
  /\ popup_messages (world s') =
     (popup_messages (world s) ++ [CAPTURE_ERROR busy_message])%list.
Proof.
  intros Hactive s'.
  pose proof (deliver_busy env s tab total c Hactive) as E. fold s' in E.
  split; [exact E |]. rewrite E. cbn [world tasks]. split; [| split].
  - cbn. exact Hactive.
  - reflexivity.
  - unfold popup_messages. rewrite history_log, flat_map_app. reflexivity.
Qed.

(** While the capture of tab 7 waits for the title, a request for tab 9 is
    refused and changes nothing of it. *)
Lemma startCapture_busy_witness :
  activeCapture (world capturing) = Some {| tabId := 7; totalSlides := 3 |}
  /\ List.length (tasks capturing) = 1%nat
  /\ tasks (deliver (scripted []) (START_CAPTURE 9 5) capturing) = tasks capturing
  /\ activeCapture (world (deliver (scripted []) (START_CAPTURE 9 5) capturing))
     = Some {| tabId := 7; totalSlides := 3 |}
  /\ popup_messages (world (deliver (scripted []) (START_CAPTURE 9 5) capturing))
     = [CAPTURE_ERROR busy_message].
Proof.
  split; [reflexivity |]. split; [reflexivity |].
  destruct (startCapture_busy (scripted []) capturing 9 5
              {| tabId := 7; totalSlides := 3 |} eq_refl) as [_ [Ha [Ht Hp]]].
  split; [exact Ht |]. split; [exact Ha | exact Hp].
Defined.

(** C1, as stated, fails: the content script gives both slide URLs, the
    second image is answered 500 three times, and the capture ends with the
    error "HTTP 500" sent to the popup, without a screenshot taken. *)
Lemma startCapture_no_fallback :
  fst (run (scripted second_image_fails) (fetchSlideUrlsViaApi 7 2) initial)
  = Returned (Some [url1; url2])
  /\ fst (run (scripted [response 500 None; response 500 None; response 500 None])
              (fetchImageWithRetry url2 3) initial)
     = Thrown (newError (js "HTTP 500"))
  /\ popup_messages (snd (run (scripted second_image_fails) (startCapture 7 2) initial))
     = [PROGRESS_UPDATE 1 2; PROGRESS_UPDATE 2 2; CAPTURE_ERROR (js "HTTP 500")]
  /\ screenshots_taken (snd (run (scripted second_image_fails) (startCapture 7 2) initial))
     = 0%nat.
Proof. repeat split; vm_compute; reflexivity. Qed.

(** C1, amended.  When the content script has given the URLs of all the
    slides and fetching the images then throws (a fetch has used up its
    attempts), [startCapture] does not turn to screenshots: it sends the
    error to the popup, sets [activeCapture] back to [null] and ends.
    Nothing else happens after the failure: no screenshot, no completion
    message. *)
Theorem startCapture_fetch_failure (env : Env) (tab total : Z) (w w1 w2 w3 : World)
    (u : option (list jsstring)) (t : option jsstring)
    (urls : list jsstring) (e : Error) :
  activeCapture w = None ->
  run env (sendToContentScript tab GET_DOCUMENT_TITLE)
      (log [ReadActiveCapture;
            WriteActiveCapture (Some {| tabId := tab; totalSlides := total |})] w)
  = (Returned (ResponseObj u t), w1) ->
  run env (fetchSlideUrlsViaApi tab total) w1 = (Returned (Some urls), w2) ->
  run env (fetchImagesFromUrls urls) w2 = (Thrown e, w3) ->
  let final := log [RuntimeSendMessage (CAPTURE_ERROR (error_text e));
                    WriteActiveCapture None] w3 in
  run env (startCapture tab total) w = (Returned tt, final)
  /\ activeCapture final = None
  /\ screenshots_taken final = screenshots_taken w3
  /\ popup_messages final = (popup_messages w3 ++ [CAPTURE_ERROR (error_text e)])%list.
Proof.
  intros Hidle Htitle Hurls Himages final.
  split; [| split; [| split]].
  - unfold startCapture. cbn [perform bind run answer]. rewrite Hidle.
    cbn [bind run answer].
    rewrite run_try_finally, run_try_catch.
    unfold capture_body. rewrite run_bind.
    unfold log in Htitle. cbn [fold_left] in Htitle. rewrite Htitle.
    rewrite run_bind.
    assert (Ht : exists name,
               run env (title_or_default (ResponseObj u t)) w1 = (Returned name, w1)).
    { destruct t; eexists; reflexivity. }
    destruct Ht as [name Ht]. rewrite Ht.
    rewrite run_bind, Hurls, run_bind, Himages.
    reflexivity.
  - reflexivity.
  - unfold screenshots_taken, final. rewrite history_log, count_app.
    unfold count. cbn. lia.
  - unfold popup_messages, final. rewrite history_log, flat_map_app. reflexivity.
Qed.

(** With both URLs given and the second image answered 500 three times, the
    capture ends with the error "HTTP 500" and [activeCapture] cleared. *)
Lemma startCapture_fetch_failure_witness :
  fst (run (scripted second_image_fails) (startCapture 7 2) initial) = Returned tt
  /\ activeCapture (snd (run (scripted second_image_fails) (startCapture 7 2) initial))
     = None
  /\ popup_messages (snd (run (scripted second_image_fails) (startCapture 7 2) initial))
     = [PROGRESS_UPDATE 1 2; PROGRESS_UPDATE 2 2; CAPTURE_ERROR (js "HTTP 500")].
Proof.
  destruct (startCapture_fetch_failure (scripted second_image_fails) 7 2 initial
              _ _ _ _ _ _ _ eq_refl eq_refl eq_refl eq_refl) as [Hrun [Ha [_ Hp]]].
  rewrite Hrun. cbn [fst snd]. split; [reflexivity |]. split; [exact Ha |].
  rewrite Hp. reflexivity.
Defined.

(** **** Further properties of the orchestrator and of the retrying fetch *)

(** Whatever messages are delivered and however the promises settle, in
    any order, at most one call of [startCapture] is under way: either
    [activeCapture] is [null] and no call is set aside, or it is set and
    exactly one call is set aside, which clears it when it ends. *)
Theorem one_capture_at_a_time (env : Env) (s : System) :
  reachable env s ->
  one_capture s /\ (List.length (tasks s) <= 1)%nat.
Proof.
  intro Hreach.
  assert (Hinv : one_capture s).
  { induction Hreach as [| s s' _ IH Hstep].
    - left. split; reflexivity.
    - exact (one_capture_step env s s' IH Hstep). }
  split; [exact Hinv |].
  destruct Hinv as [[_ ->] | [c [t [_ [-> _]]]]]; cbn; lia.
Qed.


(** A capture that waits for the title is such a state. *)
Lemma one_capture_at_a_time_witness :
  one_capture capturing /\ (List.length (tasks capturing) <= 1)%nat.
Proof.
  exact (one_capture_at_a_time (scripted []) capturing
           (reachable_step (scripted []) idle capturing
              (reachable_start (scripted []))
              (step_deliver (scripted []) idle (START_CAPTURE 7 3)))).
Defined.

(** The strategy is chosen by the answer of [fetchSlideUrlsViaApi] alone:
    the images are fetched from the URLs when it gives them, and taken as
    screenshots when it gives [null]. *)
Theorem startCapture_strategy (env : Env) (tab total : Z) (w w1 w2 : World)
    (u : option (list jsstring)) (t : option jsstring)
    (urls : option (list jsstring)) (documentTitle : jsstring) :
  activeCapture w = None ->
  run env (sendToContentScript tab GET_DOCUMENT_TITLE)
      (log [ReadActiveCapture;
            WriteActiveCapture (Some {| tabId := tab; totalSlides := total |})] w)
  = (Returned (ResponseObj u t), w1) ->
  run env (title_or_default (ResponseObj u t)) w1 = (Returned documentTitle, w1) ->
  run env (fetchSlideUrlsViaApi tab total) w1 = (Returned urls, w2) ->
  run env (startCapture tab total) w =
  run env (capture_with
             match urls with
             | Some urls => fetchImagesFromUrls urls
             | None => captureViaScreenshots tab total
             end total documentTitle) w2.
Proof.
  intros Hidle Htitle Hname Hurls.
  unfold startCapture. cbn [perform bind run answer]. rewrite Hidle.
  cbn [bind run answer].
  unfold capture_with. rewrite !run_try_finally, !run_try_catch.
  unfold capture_body. rewrite run_bind.
  unfold log in Htitle. cbn [fold_left] in Htitle. rewrite Htitle.
  rewrite run_bind, Hname, run_bind, Hurls. reflexivity.
Qed.

(** Without slide URLs the capture goes to the first slide and takes two
    screenshots. *)
Lemma startCapture_strategy_witness :
  firstn 6 (history (snd (run (without_urls (scripted [])) (startCapture 7 2) initial)))
  = [ReadActiveCapture;
     WriteActiveCapture (Some {| tabId := 7; totalSlides := 2 |});
     TabsSendMessage 7 GET_DOCUMENT_TITLE;
     TabsSendMessage 7 (FETCH_SLIDE_URLS 2);
     TabsSendMessage 7 (GO_TO_SLIDE 1);
     SetTimeout (Num 800)]
  /\ screenshots_taken (snd (run (without_urls (scripted [])) (startCapture 7 2) initial))
     = 2%nat.
Proof.
  rewrite (startCapture_strategy (without_urls (scripted [])) 7 2 initial _ _ _ _ _ _
             eq_refl eq_refl eq_refl eq_refl).
  split; vm_compute; reflexivity.
Defined.

(** When every one of the [maxRetries] attempts is answered by a failed
    response (not 429, not a success), [fetchImageWithRetry] sleeps
    [1000 * n] ms after attempt [n] and throws the error of the last
    attempt. *)
Theorem fetchImageWithRetry_exhausted (env : Env) (url : jsstring) (maxRetries : nat)
    (w : World) (rs : list Response) (r : Response) :
  served env url (fetches w) (rs ++ [r]) ->
  Forall failed (rs ++ [r]) ->
  List.length (rs ++ [r]) = maxRetries ->
  run env (fetchImageWithRetry url maxRetries) w =
  (Thrown (http_error r), log (retried url rs 1 ++ [Fetch url]) w).
Proof.
  intros Hs Hf Hlen. rewrite length_app in Hlen. cbn in Hlen.
  assert (Hs1 : served env url (fetches w) rs).
  { intros i x Hx. apply Hs. rewrite nth_error_app1; [exact Hx |].
    apply nth_error_Some. congruence. }
  assert (Hr : net env (fetches w + List.length rs) url = Fulfilled r).
  { apply Hs. rewrite nth_error_app2, Nat.sub_diag by lia. reflexivity. }
  apply Forall_app in Hf. destruct Hf as [Hf Hfr].
  inversion Hfr as [| ? ? Hfailed _]; subst.
  unfold fetchImageWithRetry.
  rewrite (retry_loop_retried env url _ rs _ 1 w Hs1 Hf) by lia.
  replace (List.length rs + 1 - List.length rs)%nat with 1%nat by lia.
  replace (1 + List.length rs)%nat with (List.length rs + 1)%nat by lia.
  rewrite (iteration_failed_last env url (List.length rs + 1) 0 _ r).
  - now rewrite log_app.
  - now rewrite fetches_log, count_fetch_retried.
  - exact Hfailed.
Qed.

(** 500, 503 and 404 with [maxRetries = 3]: the error "HTTP 404". *)
Lemma fetchImageWithRetry_exhausted_witness :
  run (scripted [response 500 None; response 503 None; response 404 None])
      (fetchImageWithRetry url1 3) initial
  = (Thrown (newError (js "HTTP 404")),
     {| activeCapture := None;
        history := [Fetch url1; SetTimeout (Num 1000);
                    Fetch url1; SetTimeout (Num 2000); Fetch url1] |}).
Proof.
  refine (fetchImageWithRetry_exhausted
            (scripted [response 500 None; response 503 None; response 404 None])
            url1 3 initial [response 500 None; response 503 None] (response 404 None)
            (served_scripted _ url1) _ eq_refl).
  repeat constructor; discriminate.
Defined.

End WorkerFacts.

(* ===================================================================== *)
(** ** Properties of the content script                                  *)
(* ===================================================================== *)

Module PageFacts.

Import Js Content Worker PageData RegexSpec LocatorSpec PageSpec Examples PageExamples.
Import JsFacts LocatorFacts.
Open Scope Z_scope.

(** **** getBaseUrl *)

Lemma before_unit_prefix (u : code_unit) (s : jsstring) :
  exists rest, s = (before_unit u s ++ rest)%list.
Proof.
  induction s as [| c s [rest IH]]; cbn.
  - now exists [].
  - destruct (c =? u)%N.
    + now exists (c :: s).
    + exists rest. cbn. now rewrite <- IH.
Qed.

Lemma before_unit_free (u : code_unit) (s : jsstring) :
  Forall (fun c => c <> u) (before_unit u s).
Proof.
  induction s as [| c s IH]; cbn; [constructor |].
  destruct (c =? u)%N eqn:E; [constructor |].
  constructor; [now apply N.eqb_neq | exact IH].
Qed.

Lemma before_unit_keeps (P : code_unit -> Prop) (u : code_unit) (s : jsstring) :
  Forall P s -> Forall P (before_unit u s).
Proof.
  induction 1 as [| c s Hc _ IH]; cbn; [constructor |].
  destruct (c =? u)%N; constructor; assumption.
Qed.

Lemma rmatch_trailingSlash (pre inp : jsstring) :
  rmatch re_trailingSlash Some (MState pre inp []) =
  match inp with
  | [c] => if (slash =? c)%N then Some (MState (c :: pre) [] []) else None
  | _ => None
  end.
Proof.
  destruct inp as [| c [| c' inp]]; cbn; try reflexivity.
  destruct c as [| q]; [reflexivity |]. now destruct (47 =? q)%positive.
Qed.

(** The match of the trailing-slash pattern: a slash that ends the string. *)
Lemma search_trailingSlash (inp : jsstring) :
  forall pre,
  search re_trailingSlash pre inp =
  match rev inp with
  | c :: front =>
      if (slash =? c)%N
      then Some (MatchResult (rev pre ++ rev front)%list [c] [] [])
      else None
  | [] => None
  end.
Proof.
  induction inp as [| c inp IH]; intro pre; [reflexivity |].
  cbn [search]. rewrite rmatch_trailingSlash.
  destruct inp as [| c' inp].
  - cbn [rev app]. destruct (slash =? c)%N eqn:E.
    + unfold result_of. cbn [consumed rest caps List.length].
      replace (S (List.length pre) - List.length pre)%nat with 1%nat by lia.
      cbn. now rewrite app_nil_r.
    + reflexivity.
  - rewrite IH.
    cbn [rev]. destruct (rev inp ++ [c'])%list as [| x front] eqn:Hrev.
    + destruct (rev inp); discriminate Hrev.
    + cbn [app]. destruct (slash =? x)%N; [| reflexivity].
      rewrite rev_app_distr. cbn [rev app]. now rewrite <- app_assoc.
Qed.

Lemma replace_trailingSlash_prefix (s : jsstring) :
  exists rest, s = (replace re_trailingSlash [] s ++ rest)%list.
Proof.
  unfold replace, match_. rewrite search_trailingSlash.
  destruct (rev s) as [| c front] eqn:Hrev.
  - exists []. now rewrite app_nil_r.
  - destruct (slash =? c)%N.
    + cbn. exists [c]. rewrite app_nil_r.
      rewrite <- (rev_involutive s), Hrev. reflexivity.
    + exists []. now rewrite app_nil_r.
Qed.

Lemma prefix_Forall {A} (P : A -> Prop) (a b l : list A) :
  l = (a ++ b)%list -> Forall P l -> Forall P a.
Proof. intros -> H. apply Forall_app in H. tauto. Qed.

(** The base URL is the beginning of the address, up to the fragment or
    the query at most: neither is part of it. *)
Theorem getBaseUrl_bare_prefix (href : jsstring) :
  (exists rest, href = (getBaseUrl href ++ rest)%list)
  /\ bare (getBaseUrl href).
Proof.
  unfold getBaseUrl.
  destruct (replace_trailingSlash_prefix (before_unit question (before_unit hash href)))
    as [r1 H1].
  destruct (before_unit_prefix question (before_unit hash href)) as [r2 H2].
  destruct (before_unit_prefix hash href) as [r3 H3].
  split.
  - exists (r1 ++ r2 ++ r3)%list.
    rewrite app_assoc, app_assoc, <- (app_assoc _ r1 r2) at 1.
    rewrite H3 at 1. rewrite H2 at 1. rewrite H1 at 1.
    now rewrite <- !app_assoc.
  - apply (prefix_Forall _ _ r1 _ H1).
    assert (Hq : Forall (fun c => c <> question) (before_unit question (before_unit hash href)))
      by apply before_unit_free.
    assert (Hh : Forall (fun c => c <> hash) (before_unit question (before_unit hash href)))
      by (apply before_unit_keeps, before_unit_free).
    rewrite Forall_forall in *. intros c Hc. split; auto.
Qed.

(** The address of the deck without its slash, query and fragment. *)
Example getBaseUrl_deck :
  getBaseUrl deck_href = js "https://docsend.com/view/abc123"
  /\ endpoint deck_href 12 = js "https://docsend.com/view/abc123/page_data/12".
Proof. split; reflexivity. Qed.

(** **** fetchAllSlideUrls *)

Lemma requests_app (a b : list Trace) :
  requests (a ++ b) = (requests a ++ requests b)%list.
Proof. apply flat_map_app. Qed.

Lemma progress_app (a b : list Trace) :
  progress (a ++ b) = (progress a ++ progress b)%list.
Proof. apply flat_map_app. Qed.

(** One page: one request, no progress, and the URL that the answer to
    that request carries. *)
Lemma fetchSlideImageUrl_trace (server : Endpoint) (href : jsstring) (i : Z)
    (t : list Trace) :
  requests (snd (fetchSlideImageUrl server href i t))
    = (requests t ++ [endpoint href i])%list
  /\ progress (snd (fetchSlideImageUrl server href i t)) = progress t
  /\ match fst (fetchSlideImageUrl server href i t) with
     | Truthy u =>
         carried (server (List.length (requests t)) (endpoint href i)) = Some u
     | Falsy =>
         carried (server (List.length (requests t)) (endpoint href i)) = None
     end.
Proof.
  unfold fetchSlideImageUrl, carried.
  destruct (server _ _) as [response | e].
  - destruct (page_ok response); cbn [negb].
    + destruct (page_json response) as [data | e]; cbn [fst snd].
      * rewrite !requests_app, !progress_app. cbn [requests progress flat_map app].
        rewrite !app_nil_r. split; [reflexivity |]. split; [reflexivity |].
        unfold or_value. cbn [first_truthy].
        destruct (imageUrl data), (image_url data), (url data), (src data); reflexivity.
      * rewrite !requests_app, !progress_app. cbn. now rewrite !app_nil_r.
    + cbn [fst snd]. rewrite !requests_app, !progress_app. cbn. now rewrite !app_nil_r.
  - cbn [fst snd]. rewrite !requests_app, !progress_app. cbn. now rewrite !app_nil_r.
Qed.

Lemma requests_length_app (t : list Trace) (l : list jsstring) (n : nat) :
  List.length (requests t) = n ->
  forall t', requests t' = (requests t ++ l)%list ->
  List.length (requests t') = (n + List.length l)%nat.
Proof. intros <- t' ->. apply length_app. Qed.

Lemma fetchAll_loop_spec (server : Endpoint) (href : jsstring) (total : Z) :
  forall (remaining j : nat) (urls : list jsstring) (t : list Trace),
  List.length (requests t) = j ->
  let R := fetchAll_loop server href total remaining (Z.of_nat (S j)) urls t in
  exists k : nat,
    (k <= remaining)%nat
    /\ requests (snd R) = (requests t ++ endpoints href (S j) k)%list
    /\ match fst R with
       | Some all =>
           k = remaining
           /\ (exists new, all = (urls ++ new)%list
                           /\ map Some new
                              = map (fun i => carried (page_answer server href i))
                                    (seq (S j) remaining))
           /\ progress (snd R) = (progress t ++ reported total (S j) k)%list
       | None =>
           (1 <= k)%nat
           /\ (forall i, (S j <= i < j + k)%nat ->
                 carried (page_answer server href i) <> None)
           /\ carried (page_answer server href (j + k)) = None
           /\ progress (snd R) = (progress t ++ reported total (S j) (k - 1))%list
       end.
Proof.
  induction remaining as [| remaining IH]; intros j urls t Hj R; subst R.
  - exists 0%nat. cbn. rewrite !app_nil_r. repeat split; auto.
    exists []. rewrite app_nil_r. split; reflexivity.
  - cbn [fetchAll_loop].
    destruct (fetchSlideImageUrl_trace server href (Z.of_nat (S j)) t)
      as [Hreq [Hprog Hcarried]].
    rewrite Hj in Hcarried.
    destruct (fetchSlideImageUrl server href (Z.of_nat (S j)) t) as [found t1].
    cbn [fst snd] in Hreq, Hprog, Hcarried.
    assert (Hpage : carried (page_answer server href (S j))
                    = match found with Truthy u => Some u | Falsy => None end).
    { unfold page_answer. cbn [Nat.sub]. rewrite Nat.sub_0_r.
      destruct found; exact Hcarried. }
    clear Hcarried.
    destruct found as [| u].
    + exists 1%nat. cbn [fst snd]. split; [lia |]. split; [exact Hreq |].
      split; [lia |]. split; [intros i Hi; lia |].
      split; [now replace (j + 1)%nat with (S j) by lia |].
      cbn. now rewrite app_nil_r.
    + replace (Z.of_nat (S j) + 1)%Z with (Z.of_nat (S (S j))) by lia.
      destruct (IH (S j) (urls ++ [u])%list (t1 ++ [OnProgress (Z.of_nat (S j)) total])%list)
        as [k [Hk [Hr Hm]]].
      { rewrite requests_app, Hreq, !length_app. cbn. lia. }
      exists (S k). split; [lia |]. split.
      * rewrite Hr, requests_app, Hreq. cbn. rewrite app_nil_r, <- app_assoc. reflexivity.
      * destruct (fst (fetchAll_loop _ _ _ _ _ _ _)) as [all |].
        -- destruct Hm as [-> [[new [-> Hnew]] Hp]].
           split; [reflexivity |]. split.
           ++ exists (u :: new). rewrite <- app_assoc. split; [reflexivity |].
              cbn [map seq]. now rewrite Hpage, Hnew.
           ++ rewrite Hp, progress_app, Hprog. cbn. now rewrite <- app_assoc.
        -- destruct Hm as [Hk1 [Hbefore [Hlast Hp]]]. split; [lia |].
           split.
           { intros i Hi. destruct (Nat.eq_dec i (S j)) as [-> | Hne].
             - rewrite Hpage. discriminate.
             - apply Hbefore. lia. }
           split; [now replace (j + S k)%nat with (S j + k)%nat by lia |].
           rewrite Hp, progress_app, Hprog. cbn [progress flat_map app].
           replace (S k - 1)%nat with (S (k - 1)) by lia.
           cbn. now rewrite <- app_assoc.
Qed.

(** The page URLs are fetched all or nothing, in page order.  Whatever
    the endpoint answers, fetchAllSlideUrls requests the pages 1, 2, ...
    in order and reports each page that gave a URL.  It returns a list
    exactly when the answer to every page 1..totalSlides carries a URL
    (the first truthy one among imageUrl, image_url, url and src of the
    JSON of an ok response), and then the list of these URLs in page
    order.  At the first page whose answer carries none (request failed,
    response not ok, JSON unreadable, no truthy field) it returns null
    without requesting a later page, having reported the pages before. *)
Theorem fetchAllSlideUrls_all_or_nothing (server : Endpoint) (href : jsstring)
    (total : Z) :
  match fetchAllSlideUrls server href total [] with
  | (Some urls, t) =>
      map Some urls
      = map (fun i => carried (page_answer server href i)) (seq 1 (Z.to_nat total))
      /\ requests t = endpoints href 1 (Z.to_nat total)
      /\ progress t = reported total 1 (Z.to_nat total)
  | (None, t) =>
      exists k : nat,
        (1 <= k <= Z.to_nat total)%nat
        /\ (forall i, (1 <= i < k)%nat -> carried (page_answer server href i) <> None)
        /\ carried (page_answer server href k) = None
        /\ requests t = endpoints href 1 k
        /\ progress t = reported total 1 (k - 1)
  end.
Proof.
  unfold fetchAllSlideUrls.
  destruct (fetchAll_loop_spec server href total (Z.to_nat total) 0 [] [] eq_refl)
    as [k [Hk [Hr Hm]]].
  change (Z.of_nat 1) with 1%Z in *.
  destruct (fetchAll_loop server href total (Z.to_nat total) 1 [] []) as [[all |] t].
  - cbn [fst snd] in *. destruct Hm as [-> [[new [-> Hnew]] Hp]]. auto.
  - cbn [fst snd] in *. destruct Hm as [Hk1 [Hbefore [Hlast Hp]]].
    exists k. split; [lia |]. split; [exact Hbefore |]. auto.
Qed.

Lemma fetchAllSlideUrls_length (server : Endpoint) (href : jsstring) (total : Z)
    (urls : list jsstring) :
  fst (fetchAllSlideUrls server href total []) = Some urls ->
  List.length urls = Z.to_nat total.
Proof.
  unfold fetchAllSlideUrls. intro H.
  destruct (fetchAll_loop_spec server href total (Z.to_nat total) 0 [] [] eq_refl)
    as [k [_ [_ Hm]]].
  change (Z.of_nat 1) with 1%Z in *. rewrite H in Hm.
  destruct Hm as [_ [[new [-> Hnew]] _]]. cbn [app].
  apply (f_equal (@List.length (option jsstring))) in Hnew.
  now rewrite !length_map, length_seq in Hnew.
Qed.

(** What fetchAllSlideUrls reports: the pages that gave a URL. *)
Lemma fetchAllSlideUrls_reports (server : Endpoint) (href : jsstring) (total : Z) :
  progress (snd (fetchAllSlideUrls server href total []))
  = reported total 1
      (List.length (requests (snd (fetchAllSlideUrls server href total [])))
       - match fst (fetchAllSlideUrls server href total []) with
         | Some _ => 0
         | None => 1
         end).
Proof.
  unfold fetchAllSlideUrls.
  destruct (fetchAll_loop_spec server href total (Z.to_nat total) 0 [] [] eq_refl)
    as [k [_ [Hr Hm]]].
  change (Z.of_nat 1) with 1%Z in *. rewrite Hr. cbn [requests flat_map app].
  unfold endpoints. rewrite length_map, length_seq.
  destruct (fst (fetchAll_loop server href total (Z.to_nat total) 1 [] [])).
  - destruct Hm as [_ [_ Hp]]. rewrite Hp, Nat.sub_0_r. reflexivity.
  - destruct Hm as [_ [_ [_ Hp]]]. exact Hp.
Qed.

(** Two pages of two; and the third page of three is missing. *)
Example fetchAllSlideUrls_deck :
  fetchAllSlideUrls deck_server deck_href 2 []
  = (Some [url1; url2],
     [Requested (endpoint deck_href 1); OnProgress 1 2;
      Requested (endpoint deck_href 2); OnProgress 2 2])
  /\ fetchAllSlideUrls deck_server deck_href 3 []
     = (None,
        [Requested (endpoint deck_href 1); OnProgress 1 3;
         Requested (endpoint deck_href 2); OnProgress 2 3;
         Requested (endpoint deck_href 3); ConsoleError 3]).
Proof. split; reflexivity. Qed.

(** **** getSlideInfo *)

(** A match of the page-count pattern has one group, of digits. *)
Lemma pageCount_group (s : jsstring) (m : match_result) :
  match_ re_pageCount s = Some m ->
  exists g, digits g /\ group 1 m = Some g.
Proof.
  intro H. apply search_found in H. destruct H as [pre [inp [s' [H Hgroups]]]].
  apply rmatch_reach in H. destruct H as [s'' [H E]]. injection E as ->.
  unfold re_pageCount in H. cbn [reach] in H.
  destruct H as [m1 [H1 [m2 [H2 [m3 [H3 [m4 [H4 [m5 [H5 H6]]]]]]]]]].
  apply (reach_group_digits 1) in H6. destruct H6 as [g [Hd [Hc _]]].
  exists g. split; [exact Hd |].
  unfold group. rewrite Hgroups, Hc. reflexivity.
Qed.

(** What a match consumes, and where its groups lie: every group that a
    successful match of [r] adds is a piece of the text it has consumed. *)
Lemma reach_consumed (r : regex) :
  forall s s', reach r s s' ->
  exists mid,
    rest s = (mid ++ rest s')%list
    /\ consumed s' = (rev mid ++ consumed s)%list
    /\ (forall i text, In (i, text) (caps s') ->
          In (i, text) (caps s) \/ exists a b, mid = (a ++ text ++ b)%list).
Proof.
  induction r as [| p | r1 IH1 r2 IH2 | r1 IH1 r2 IH2 | p | i r IH | |];
    cbn [reach]; intros s s' H.
  - subst. exists []. repeat split; auto.
  - destruct H as [c [_ [Hrest [Hcons Hcaps]]]]. exists [c].
    split; [exact Hrest |]. split; [exact Hcons |].
    intros i text Hin. left. now rewrite <- Hcaps.
  - destruct H as [m [H1 H2]].
    destruct (IH1 _ _ H1) as [mid1 [Hr1 [Hc1 Hg1]]].
    destruct (IH2 _ _ H2) as [mid2 [Hr2 [Hc2 Hg2]]].
    exists (mid1 ++ mid2)%list.
    split; [rewrite Hr1, Hr2; now rewrite app_assoc |].
    split; [rewrite Hc2, Hc1, rev_app_distr; now rewrite app_assoc |].
    intros i text Hin. destruct (Hg2 i text Hin) as [Hm | [a [b ->]]].
    + destruct (Hg1 i text Hm) as [Hs | [a [b ->]]]; [now left |].
      right. exists a, (b ++ mid2)%list. now rewrite <- !app_assoc.
    + right. exists (mid1 ++ a)%list, b. now rewrite <- !app_assoc.
  - destruct H as [H | H]; [apply (IH1 _ _ H) | apply (IH2 _ _ H)].
  - destruct H as [run [_ [Hrest [Hcons Hcaps]]]]. exists run.
    split; [exact Hrest |]. split; [exact Hcons |].
    intros i text Hin. left. now rewrite <- Hcaps.
  - destruct H as [m [H ->]].
    destruct (IH _ _ H) as [mid [Hr [Hc Hg]]].
    exists mid. unfold set_cap. cbn [rest consumed caps].
    split; [exact Hr |]. split; [exact Hc |].
    intros j text [E | Hin].
    + injection E as _ <-. right. exists [], [].
      rewrite Hc, length_app, length_rev, Nat.add_sub.
      rewrite <- (length_rev mid), firstn_app, Nat.sub_diag, firstn_all. cbn [firstn].
      now rewrite !app_nil_r, rev_involutive.
    + apply (Hg j text Hin).
  - destruct H as [-> _]. exists []. repeat split; auto.
  - destruct H as [-> _]. exists []. repeat split; auto.
Qed.

(** Where the leftmost match is found. *)
Lemma search_position (r : regex) :
  forall inp pre m,
  search r pre inp = Some m ->
  exists pre' inp' s',
    rmatch r Some (MState pre' inp' []) = Some s'
    /\ m_groups m = caps s'
    /\ (rev pre' ++ inp')%list = (rev pre ++ inp)%list.
Proof.
  induction inp as [| c inp IH]; intros pre m H; cbn [search] in H.
  - destruct (rmatch r Some (MState pre [] [])) as [s' |] eqn:Hm; [| discriminate].
    injection H as <-. exists pre, [], s'. auto.
  - destruct (rmatch r Some (MState pre (c :: inp) [])) as [s' |] eqn:Hm.
    + injection H as <-. exists pre, (c :: inp), s'. auto.
    + apply IH in H. destruct H as [pre' [inp' [s' [H1 [H2 H3]]]]].
      exists pre', inp', s'. split; [exact H1 |]. split; [exact H2 |].
      rewrite H3. cbn [rev]. now rewrite <- app_assoc.
Qed.

Lemma lookup_group_In (i : nat) (g : list (nat * jsstring)) (text : jsstring) :
  lookup_group i g = Some text -> In (i, text) g.
Proof.
  induction g as [| [j v] g IH]; cbn [lookup_group]; [discriminate |].
  destruct (Nat.eqb i j) eqn:E.
  - intro H. injection H as ->. apply Nat.eqb_eq in E. subst. now left.
  - intro H. right. now apply IH.
Qed.

(** A group of a match is a piece of the text searched. *)
Lemma group_within (r : regex) (s : jsstring) (m : match_result) (i : nat)
    (text : jsstring) :
  match_ r s = Some m -> group i m = Some text ->
  exists a b, s = (a ++ text ++ b)%list.
Proof.
  unfold match_, group. intros Hm Hg.
  apply search_position in Hm. destruct Hm as [pre [inp [s' [Hm [Hgroups Hpos]]]]].
  apply rmatch_reach in Hm. destruct Hm as [s'' [Hreach E]]. injection E as ->.
  apply reach_consumed in Hreach. destruct Hreach as [mid [Hrest [_ Hcaps]]].
  rewrite Hgroups in Hg. apply lookup_group_In in Hg.
  destruct (Hcaps i text Hg) as [[] | [a [b ->]]].
  cbn [rest rev app] in *. subst inp. rewrite <- Hpos.
  exists (rev pre ++ a)%list, (b ++ rest s')%list. now rewrite <- !app_assoc.
Qed.

Lemma digit_run_ge (s : jsstring) :
  forall current best, (Nat.max current best <= digit_run current best s)%nat.
Proof.
  induction s as [| c s IH]; intros current best; cbn [digit_run]; [lia |].
  destruct (isDigit c).
  - specialize (IH (S current) best). lia.
  - specialize (IH 0%nat (Nat.max current best)). lia.
Qed.

Lemma digit_run_digits (g b : jsstring) :
  Forall (fun c => isDigit c = true) g ->
  forall current best,
  (current + List.length g <= digit_run current best (g ++ b)%list)%nat.
Proof.
  induction 1 as [| c g Hc _ IH]; intros current best; cbn [app List.length].
  - pose proof (digit_run_ge b current best). lia.
  - cbn [digit_run]. rewrite Hc. specialize (IH (S current) best). lia.
Qed.

Lemma digit_run_within (a g b : jsstring) :
  Forall (fun c => isDigit c = true) g ->
  forall current best,
  (List.length g <= digit_run current best (a ++ g ++ b)%list)%nat.
Proof.
  intro Hg. induction a as [| c a IH]; intros current best; cbn [app].
  - pose proof (digit_run_digits g b Hg current best). lia.
  - cbn [digit_run]. destruct (isDigit c); apply IH.
Qed.

Lemma digits_val_bound (s : jsstring) :
  forall acc, (digits_val 10 acc s < (acc + 1) * 10 ^ N.of_nat (List.length s))%N.
Proof.
  induction s as [| c s IH]; intro acc; cbn [digits_val List.length].
  - cbn. lia.
  - rewrite Nat2N.inj_succ, N.pow_succ_r'.
    assert (Hpos : (0 < 10 ^ N.of_nat (List.length s))%N).
    { apply N.neq_0_lt_0, N.pow_nonzero. discriminate. }
    destruct (digit_val 10 c) as [d |] eqn:Hd.
    + assert (Hlt : (d < 10)%N).
      { unfold digit_val in Hd.
        match type of Hd with match ?v with _ => _ end = _ =>
          destruct v as [x |]; [| discriminate] end.
        destruct (x <? 10)%N eqn:E; [| discriminate]. injection Hd as <-.
        now apply N.ltb_lt. }
      specialize (IH (acc * 10 + d)%N). nia.
    + nia.
Qed.

Lemma parseInt_digits_value (text : jsstring) :
  digits text -> parseInt text = Num (Z.of_N (digits_val 10 0 text)).
Proof.
  intros [Hne Hall]. destruct text as [| c text]; [now elim Hne |].
  inversion Hall as [| ? ? Hc Hrest]; subst.
  unfold parseInt. cbn [dropWhile]. rewrite (isDigit_not_space c Hc).
  assert (Hrange : (48 <= c <= 57)%N).
  { unfold isDigit, in_range in Hc. apply andb_prop in Hc. destruct Hc as [Hlo Hhi].
    apply N.leb_le in Hlo, Hhi. lia. }
  unfold strip_sign.
  replace (c =? 45)%N with false by (symmetry; apply N.eqb_neq; lia).
  replace (c =? 43)%N with false by (symmetry; apply N.eqb_neq; lia).
  assert (Hprefix : strip_hex_prefix (c :: text) = (10%N, c :: text)).
  { unfold strip_hex_prefix. destruct text as [| cx text]; [reflexivity |].
    inversion Hrest as [| ? ? Hcx _]; subst.
    unfold isDigit, in_range in Hcx. apply andb_prop in Hcx. destruct Hcx as [Hlo Hhi].
    apply N.leb_le in Hlo, Hhi.
    replace (cx =? 120)%N with false by (symmetry; apply N.eqb_neq; lia).
    replace (cx =? 88)%N with false by (symmetry; apply N.eqb_neq; lia).
    now rewrite andb_false_r. }
  rewrite Hprefix. now rewrite (isDigit_val c Hc).
Qed.

(** A group of digits of a text without a run of more than 15 digits is
    read as a natural number below 10^15. *)
Lemma group_natural (r : regex) (s : jsstring) (m : match_result) (i : nat)
    (text : jsstring) :
  (longest_digit_run s <= 15)%nat ->
  match_ r s = Some m -> group i m = Some text -> digits text ->
  natural (parseInt_opt (group i m)).
Proof.
  intros Hshort Hm Hg Hd.
  destruct (group_within r s m i text Hm Hg) as [a [b ->]].
  pose proof (digit_run_within a text b (proj2 Hd) 0 0) as Hlen.
  fold (longest_digit_run (a ++ text ++ b)%list) in Hlen.
  rewrite Hg. cbn [parseInt_opt]. rewrite (parseInt_digits_value text Hd).
  exists (Z.of_N (digits_val 10 0 text)). split; [reflexivity |].
  pose proof (digits_val_bound text 0) as Hb.
  assert (Hpow : (10 ^ N.of_nat (List.length text) <= 10 ^ 15)%N).
  { apply N.pow_le_mono_r; [discriminate | lia]. }
  split; [lia |].
  change (10 ^ 15)%Z with (Z.of_N (10 ^ 15)%N). lia.
Qed.

Lemma querySelector_In (d : Document) (sel : selector) (el : Element) :
  querySelector d sel = Some el -> In el (querySelectorAll d sel).
Proof.
  unfold querySelector. destruct (querySelectorAll d sel); [discriminate |].
  intro H. injection H as ->. now left.
Qed.

Section Modest.

Variable d : Document.
Hypothesis Hmodest : modest d.

Lemma pageLabel_loop_natural (sels : list selector) (info : SlideInfo) :
  pageLabel_loop d sels = Some info ->
  natural (current info) /\ natural (total info).
Proof.
  induction sels as [| sel sels IH]; cbn [pageLabel_loop]; [discriminate |].
  destruct (querySelector d sel) as [el |] eqn:Hq; [| exact IH].
  destruct (match_ re_pageLabel (textContent el)) as [m |] eqn:Hm; [| exact IH].
  intro H. injection H as <-. cbn [current total].
  destruct (pageLabel_groups _ _ Hm) as [g1 [g2 [Hd1 [Hd2 [E1 E2]]]]].
  pose proof (proj1 (proj2 Hmodest) sel el (querySelector_In d sel el Hq)) as Hshort.
  split; [apply (group_natural _ _ m 1 g1 Hshort Hm E1 Hd1)
         | apply (group_natural _ _ m 2 g2 Hshort Hm E2 Hd2)].
Qed.

Lemma method2_natural (info : SlideInfo) :
  method2 d = Some info ->
  natural (current info) /\ natural (total info).
Proof.
  unfold method2.
  destruct (match_ re_bodyText (body_innerText d)) as [m |] eqn:Hm; [| discriminate].
  destruct (bodyText_groups _ _ Hm) as [g1 [g2 [Hd1 [Hd2 [E1 E2]]]]].
  destruct (_ && _); [| discriminate].
  intro H. injection H as <-. cbn [current total].
  split; [apply (group_natural _ _ m 1 g1 (proj1 Hmodest) Hm E1 Hd1)
         | apply (group_natural _ _ m 2 g2 (proj1 Hmodest) Hm E2 Hd2)].
Qed.

Lemma thumbnail_loop_natural (sels : list selector) (info : SlideInfo) :
  thumbnail_loop d sels = Some info ->
  natural (current info) /\ natural (total info).
Proof.
  induction sels as [| sel sels IH]; cbn [thumbnail_loop]; [discriminate |].
  destruct (1 <? List.length (querySelectorAll d sel))%nat; [| exact IH].
  intro H. injection H as <-. cbn [current total]. unfold of_nat.
  pose proof (proj2 (proj2 Hmodest) sel) as Hcount.
  split; eexists; (split; [reflexivity | lia]).
Qed.

Lemma script_loop_natural (scripts : list Element) (info : SlideInfo) :
  (forall script, In script scripts -> (longest_digit_run (textContent script) <= 15)%nat) ->
  script_loop scripts = Some info ->
  natural (current info) /\ natural (total info).
Proof.
  induction scripts as [| script scripts IH]; intro Hshort; cbn [script_loop];
    [discriminate |].
  destruct (match_ re_pageCount (textContent script)) as [m |] eqn:Hm.
  - intro H. injection H as <-. cbn [current total].
    destruct (pageCount_group _ _ Hm) as [g [Hd E]].
    split; [exists 1%Z; split; [reflexivity | lia] |].
    apply (group_natural _ _ m 1 g (Hshort script (or_introl eq_refl)) Hm E Hd).
  - apply IH. intros x Hx. apply Hshort. now right.
Qed.

End Modest.

(** The numbers of getSlideInfo are natural numbers.  On a page whose
    numbers are written with at most 15 digits, whichever of the four
    methods answers, the current slide and the total are natural numbers
    below 10^15: neither is [NaN] or negative, and the engine holds both
    without rounding. *)
Theorem getSlideInfo_natural (d : Document) (info : SlideInfo) :
  modest d ->
  getSlideInfo d = Some info ->
  natural (current info) /\ natural (total info).
Proof.
  intro Hmodest. unfold getSlideInfo, orElse.
  destruct (method1 d) as [i1 |] eqn:H1.
  { intro H. injection H as <-.
    now apply (pageLabel_loop_natural d Hmodest pageLabelSelectors). }
  destruct (method2 d) as [i2 |] eqn:H2.
  { intro H. injection H as <-. now apply (method2_natural d Hmodest). }
  destruct (method3 d) as [i3 |] eqn:H3.
  { intro H. injection H as <-.
    now apply (thumbnail_loop_natural d Hmodest thumbnailSelectors). }
  unfold method4. intro H. eapply script_loop_natural; [| exact H].
  intros script Hin. apply (proj1 (proj2 Hmodest) _ script Hin).
Qed.

(** The deck whose text reads "Slide 2 of 24". *)
Lemma getSlideInfo_natural_witness :
  getSlideInfo doc_text_counter = Some {| current := Num 2; total := Num 24 |}
  /\ natural (Num 2) /\ natural (Num 24).
Proof.
  split; [reflexivity |].
  refine (getSlideInfo_natural doc_text_counter {| current := Num 2; total := Num 24 |}
            _ eq_refl).
  split; [vm_compute; lia |]. split.
  - intros sel el [].
  - intro sel. cbn. lia.
Defined.

(** **** getDocumentTitle *)

Lemma dropWhile_suffix (p : code_unit -> bool) (s : jsstring) :
  exists front, s = (front ++ dropWhile p s)%list.
Proof.
  induction s as [| c s [front IH]]; cbn.
  - now exists [].
  - destruct (p c).
    + exists (c :: front). cbn. now rewrite <- IH.
    + now exists [].
Qed.

Lemma dropWhile_head (p : code_unit -> bool) (s : jsstring) (c : code_unit)
    (rest : jsstring) :
  dropWhile p s = c :: rest -> p c = false.
Proof.
  induction s as [| x s IH]; cbn; [discriminate |].
  destruct (p x) eqn:Hx; [exact IH |].
  intro H. injection H as -> _. exact Hx.
Qed.

Lemma trim_trimmed (s : jsstring) : trimmed (trim s).
Proof.
  unfold trim. split.
  - intros c rest H.
    destruct (dropWhile_suffix isWhiteSpace (rev (dropWhile isWhiteSpace s)))
      as [front Hfront].
    apply (f_equal (@rev code_unit)) in Hfront.
    rewrite rev_involutive, rev_app_distr, H in Hfront. cbn in Hfront.
    now apply dropWhile_head in Hfront.
  - intros c front H.
    apply (f_equal (@rev code_unit)) in H.
    rewrite rev_involutive, rev_app_distr in H. cbn in H.
    now apply dropWhile_head in H.
Qed.

Lemma trimmed_default_title : trimmed default_title.
Proof.
  split.
  - intros c rest H. injection H as <- _. reflexivity.
  - intros c front H.
    apply (f_equal (@rev code_unit)) in H. rewrite rev_app_distr in H.
    cbn in H. injection H as <- _. reflexivity.
Qed.

Lemma trimmed_or_else (a b : jsstring) :
  trimmed a -> trimmed b -> trimmed (or_else a b).
Proof. destruct a; auto. Qed.

(** The title is trimmed, and the worker never gets an empty one.
    getDocumentTitle returns a string without white space at either end;
    when the page has no title element it is not empty; and what the
    worker makes of the answer to GET_DOCUMENT_TITLE is a trimmed string
    that is not empty. *)
Theorem getDocumentTitle_trimmed (d : Document) :
  trimmed (getDocumentTitle d)
  /\ (querySelector d titleSelector = None -> getDocumentTitle d <> [])
  /\ exists documentTitle,
       title_or_default (onGetDocumentTitle d) = Ret documentTitle
       /\ documentTitle <> [] /\ trimmed documentTitle.
Proof.
  assert (Ht : trimmed (getDocumentTitle d)).
  { unfold getDocumentTitle. destruct (querySelector d titleSelector).
    - apply trim_trimmed.
    - apply trimmed_or_else; [apply trim_trimmed | apply trimmed_default_title]. }
  split; [exact Ht |]. split.
  - intro Hq. unfold getDocumentTitle. rewrite Hq.
    destruct (trim (replace re_titleSuffix [] (title d))); discriminate.
  - exists (or_else (getDocumentTitle d) default_name). split; [reflexivity |].
    split.
    + destruct (getDocumentTitle d); discriminate.
    + apply trimmed_or_else; [exact Ht | apply trimmed_default_title].
Qed.

End PageFacts.

(* ===================================================================== *)
(** ** Properties of the course of a capture                             *)
(* ===================================================================== *)

Module CaptureFacts.

Import Js Worker RunSpec CaptureSpec Examples.
Import WorkerFacts.
Open Scope Z_scope.
Open Scope list_scope.

(** **** How a capture ends *)

Lemma only_bind {A B} (P : Event -> Prop) (p : Prog A) (f : A -> Prog B) :
  only P p -> (forall a, only P (f a)) -> only P (bind p f).
Proof.
  intros Hp Hf. induction Hp as [a | e | ev k Hev _ IH]; cbn.
  - apply Hf.
  - constructor.
  - constructor; [exact Hev | exact IH].
Qed.

Lemma only_try_catch {A} (P : Event -> Prop) (p : Prog A) (h : Error -> Prog A) :
  only P p -> (forall e, only P (h e)) -> only P (try_catch p h).
Proof.
  intros Hp Hh. induction Hp as [a | e | ev k Hev _ IH]; cbn.
  - constructor.
  - apply Hh.
  - constructor; [exact Hev | exact IH].
Qed.

Lemma only_settle {A} (P : Event -> Prop) (r : settled A) : only P (settle r).
Proof. destruct r; constructor. Qed.

Lemma session_bind {A} (p : Prog A) (f : A -> Prog unit) :
  only working p -> (forall a, session (f a)) -> session (bind p f).
Proof.
  intros Hp Hf. induction Hp as [a | e | ev k Hev _ IH]; cbn.
  - apply Hf.
  - constructor.
  - apply session_Vis; [exact Hev | exact IH].
Qed.

Ltac work_event := apply only_Vis; [exact I | intro].

Ltac work_step :=
  first [ apply only_bind; [| intro]
        | apply only_try_catch; [| intro]
        | work_event
        | apply only_settle
        | apply only_Ret
        | apply only_Throw ].

Lemma working_retry_loop (url : jsstring) (maxRetries remaining : nat) :
  forall attempt, only working (retry_loop url maxRetries remaining attempt).
Proof.
  induction remaining as [| remaining IH]; intro attempt; cbn [retry_loop].
  - constructor.
  - apply only_bind.
    + apply only_try_catch.
      * unfold attempt_body, fetch, arrayBuffer, delay, perform.
        apply only_bind; [work_event; apply only_settle | intro response].
        destruct (status response =? 429); [| destruct (negb (ok response))];
          repeat work_step.
      * intro e. unfold attempt_catch, delay, perform.
        destruct (Nat.eqb attempt maxRetries); repeat work_step.
    + intros [| v]; [apply IH | constructor].
Qed.

Lemma working_fetchImages_loop (urls : list jsstring) (len : nat) :
  forall i images, only working (fetchImages_loop urls len i images).
Proof.
  induction urls as [| url urls IH]; intros i images; cbn [fetchImages_loop].
  - constructor.
  - unfold sendProgressUpdate, perform, fetchImageWithRetry.
    apply only_bind; [work_event; constructor | intros _].
    apply only_bind; [apply working_retry_loop | intro; apply IH].
Qed.

Lemma working_screenshot_loop (tab total : Z) (remaining : nat) :
  forall i screenshots, only working (screenshot_loop tab total remaining i screenshots).
Proof.
  induction remaining as [| remaining IH]; intros i screenshots; cbn [screenshot_loop].
  - constructor.
  - unfold sendProgressUpdate, captureScreenshot, dataUrlToArrayBuffer, atob,
      sendToContentScript, delay, perform.
    apply only_bind; [work_event; constructor | intros _].
    apply only_bind; [work_event; apply only_settle | intro dataUrl].
    apply only_bind; [repeat work_step | intro buf].
    apply only_bind; [destruct (i <? total); repeat work_step | intros _; apply IH].
Qed.

Lemma working_addPages (imgs : list ImageData) :
  forall pdfDoc, only working (addPages imgs pdfDoc).
Proof.
  induction imgs as [| d imgs IH]; intro pdfDoc; cbn [addPages].
  - constructor.
  - apply only_bind; [| intro; apply IH].
    unfold embed. destruct (has_png_signature (uint8Array d)); repeat work_step.
Qed.

Lemma session_downloadPdf (pdfBytes : bytes) (filename : jsstring) :
  session (downloadPdf pdfBytes filename ;; sendComplete).
Proof.
  unfold downloadPdf, perform. cbn [bind].
  apply session_Vis; [exact I | intro url].
  apply session_download.
  - intro e. cbn. constructor.
  - intro a. reflexivity.
Qed.

Lemma session_capture_body (tab total : Z) : session (capture_body tab total).
Proof.
  unfold capture_body, sendToContentScript.
  apply session_bind; [repeat work_step | intro titleResponse].
  apply session_bind;
    [destruct titleResponse as [| u [t |]]; constructor | intro documentTitle].
  apply session_bind.
  { unfold fetchSlideUrlsViaApi, sendToContentScript.
    apply only_try_catch; [| intro; constructor].
    apply only_bind; [repeat work_step | intros [| [urls |] t]]; try constructor.
    destruct (Z.of_nat (List.length urls) =? total); constructor. }
  intro urls.
  apply session_bind.
  { destruct urls as [urls |].
    - apply working_fetchImages_loop.
    - unfold captureViaScreenshots, sendToContentScript, delay, perform.
      apply only_bind; [repeat work_step | intros _].
      apply only_bind; [repeat work_step | intros _].
      apply working_screenshot_loop. }
  intro imageDataArray.
  unfold assemble_and_deliver, sendProgressUpdate, generatePdf.
  apply session_bind; [unfold perform; repeat work_step | intros _].
  apply session_bind.
  { apply only_bind; [apply working_addPages | intro; repeat work_step]. }
  intro pdfBytes. apply session_downloadPdf.
Qed.

Section Settling.

Variable env : Env.

(** How a session ends. *)
Lemma run_session (p : Prog unit) :
  session p ->
  forall w, exists evs,
    snd (run env p w) = log evs w
    /\ match fst (run env p w) with
       | Thrown _ => Forall working evs
       | Returned _ =>
           exists work url title,
             evs = (work ++ [DownloadsDownload url (safeName title ++ js ".pdf")%list;
                             RevokeObjectURLAfter url 60000;
                             RuntimeSendMessage CAPTURE_COMPLETE])%list
             /\ Forall working work
             /\ download env url (safeName title ++ js ".pdf")%list = Fulfilled tt
       end.
Proof.
  induction 1 as [e | ev k Hev _ IH | url title k _ IH Hk]; intro w;
    [| | set (filename := (safeName title ++ js ".pdf")%list) in *].
  - exists []. split; [reflexivity | constructor].
  - cbn [run]. destruct (IH (answer env w ev) (record ev w)) as [evs [E Hend]].
    exists (ev :: evs). split; [exact E |].
    destruct (fst (run env (k (answer env w ev)) (record ev w))).
    + destruct Hend as [work [url [filename [-> [Hall Hd]]]]].
      exists (ev :: work), url, filename. split; [reflexivity |].
      split; [constructor; assumption | exact Hd].
    + constructor; assumption.
  - cbn [run answer]. destruct (download env url filename) as [[] | e] eqn:Hd.
    + rewrite Hk. cbn.
      exists [DownloadsDownload url filename; RevokeObjectURLAfter url 60000;
              RuntimeSendMessage CAPTURE_COMPLETE].
      split; [reflexivity |]. exists [], url, title.
      split; [reflexivity |]. split; [constructor | exact Hd].
    + destruct (IH e (record (DownloadsDownload url filename) w)) as [evs [E Hend]].
      exists (DownloadsDownload url filename :: evs). split; [exact E |].
      destruct (fst (run env (k (Rejected e)) (record (DownloadsDownload url filename) w))).
      * destruct Hend as [work [url' [filename' [-> [Hall Hd']]]]].
        exists (DownloadsDownload url filename :: work), url', filename'.
        split; [reflexivity |]. split; [constructor; [exact I | assumption] | exact Hd'].
      * constructor; [exact I | assumption].
Qed.

Lemma activeCapture_log (evs : list Event) :
  Forall working evs -> forall w, activeCapture (log evs w) = activeCapture w.
Proof.
  induction 1 as [| ev evs Hev _ IH]; intro w; [reflexivity |].
  cbn [log fold_left]. change (activeCapture (log evs (record ev w)) = activeCapture w).
  rewrite IH. destruct ev; try reflexivity. destruct Hev.
Qed.

Lemma popup_messages_log (evs : list Event) (w : World) :
  popup_messages (log evs w) = (popup_messages w ++ messages evs)%list.
Proof. unfold popup_messages, messages. now rewrite history_log, flat_map_app. Qed.

Lemma messages_app (a b : list Event) :
  messages (a ++ b) = (messages a ++ messages b)%list.
Proof. apply flat_map_app. Qed.

Lemma messages_working (evs : list Event) :
  Forall working evs -> Forall progress_message (messages evs).
Proof.
  induction 1 as [| ev evs Hev _ IH]; [constructor |].
  destruct ev; cbn; try exact IH.
  destruct m; try destruct Hev.
  constructor; [now exists current, total | exact IH].
Qed.

End Settling.

(** The course of a capture that starts while none runs. *)
Lemma startCapture_course (env : Env) (tab total : Z) (w : World) :
  activeCapture w = None ->
  exists (work : list Event) (last : PopupMessage),
    run env (startCapture tab total) w =
      (Returned tt,
       log ([ReadActiveCapture;
             WriteActiveCapture (Some {| tabId := tab; totalSlides := total |})]
            ++ work ++ [RuntimeSendMessage last; WriteActiveCapture None]) w)
    /\ Forall working work
    /\ terminal_message last
    /\ (last = CAPTURE_COMPLETE ->
        exists before url title,
          work = (before ++ [DownloadsDownload url (safeName title ++ js ".pdf")%list;
                             RevokeObjectURLAfter url 60000])%list
          /\ download env url (safeName title ++ js ".pdf")%list = Fulfilled tt).
Proof.
  intro Hidle.
  unfold startCapture, perform. cbn [bind run answer]. rewrite Hidle.
  cbn [bind run answer]. rewrite run_try_finally, run_try_catch.
  set (w1 := record (WriteActiveCapture _) (record ReadActiveCapture w)).
  destruct (run_session env _ (session_capture_body tab total) w1) as [evs [E Hend]].
  destruct (run env (capture_body tab total) w1) as [[[] | e] w2]; cbn [fst snd] in *.
  - destruct Hend as [work [url [title [-> [Hall Hd]]]]].
    set (filename := (safeName title ++ js ".pdf")%list) in *.
    exists (work ++ [DownloadsDownload url filename;
                     RevokeObjectURLAfter url 60000])%list,
      CAPTURE_COMPLETE.
    split; [| split; [| split]].
    + cbn [run answer]. subst w2 w1. f_equal. rewrite !log_app. reflexivity.
    + apply Forall_app. split; [exact Hall | repeat constructor].
    + now left.
    + intros _. now exists work, url, title.
  - exists evs, (CAPTURE_ERROR (or_else (message e) (error_toString e))).
    split; [| split; [exact Hend | split]].
    + unfold sendError, perform. cbn [run answer]. subst w2 w1. f_equal.
      rewrite !log_app. reflexivity.
    + right. eauto.
    + discriminate.
Qed.

Lemma popup_messages_course (tab total : Z) (work : list Event) (last : PopupMessage)
    (w : World) :
  popup_messages
    (log ([ReadActiveCapture;
           WriteActiveCapture (Some {| tabId := tab; totalSlides := total |})]
          ++ work ++ [RuntimeSendMessage last; WriteActiveCapture None]) w)
  = (popup_messages w ++ messages work ++ [last])%list.
Proof. rewrite popup_messages_log, !messages_app. reflexivity. Qed.

(** A capture always comes to an end, and in order.  Whatever the content
    script, the network, the screen, pdf-lib and the browser answer, a
    call of startCapture made while no capture runs returns normally; it
    has set [activeCapture] and set it back to [null]; in between it
    sends the popup progress updates only, and then exactly one last
    message, CAPTURE_COMPLETE or CAPTURE_ERROR; and CAPTURE_COMPLETE is
    sent only when the browser has accepted the download, under the safe
    name of some title, after the release of the object URL was
    scheduled. *)
Theorem startCapture_settles (env : Env) (tab total : Z) (w : World) :
  activeCapture w = None ->
  exists (work : list Event) (last : PopupMessage),
    run env (startCapture tab total) w =
      (Returned tt,
       log ([ReadActiveCapture;
             WriteActiveCapture (Some {| tabId := tab; totalSlides := total |})]
            ++ work ++ [RuntimeSendMessage last; WriteActiveCapture None]) w)
    /\ Forall working work
    /\ activeCapture (snd (run env (startCapture tab total) w)) = None
    /\ popup_messages (snd (run env (startCapture tab total) w))
       = (popup_messages w ++ messages work ++ [last])%list
    /\ Forall progress_message (messages work)
    /\ terminal_message last
    /\ (last = CAPTURE_COMPLETE ->
        exists before url title,
          work = (before ++ [DownloadsDownload url (safeName title ++ js ".pdf")%list;
                             RevokeObjectURLAfter url 60000])%list
          /\ download env url (safeName title ++ js ".pdf")%list = Fulfilled tt).
Proof.
  intro Hidle.
  destruct (startCapture_course env tab total w Hidle)
    as [work [last [E [Hwork [Hlast Hdone]]]]].
  exists work, last. rewrite E. cbn [snd].
  split; [reflexivity |]. split; [exact Hwork |].
  split; [rewrite !log_app; reflexivity |].
  split; [apply popup_messages_course |].
  split; [now apply messages_working | split; assumption].
Qed.

Lemma startCapture_settles_witness :
  fst (run (scripted second_image_fails) (startCapture 7 2) initial) = Returned tt
  /\ activeCapture (snd (run (scripted second_image_fails) (startCapture 7 2) initial)) = None.
Proof.
  destruct (startCapture_settles (scripted second_image_fails) 7 2 initial eq_refl)
    as [work [last [E [_ [Hnone _]]]]].
  split; [now rewrite E | exact Hnone].
Defined.

(** **** Fetching one image *)

Section Budget.

Variable env : Env.

Lemma count_cons (p : Event -> bool) (ev : Event) (evs : list Event) :
  count p (ev :: evs) = ((if p ev then 1 else 0) + count p evs)%nat.
Proof. unfold count. cbn. now destruct (p ev). Qed.

(** What fetching one image does, whatever the network answers. *)
Lemma retry_loop_events (url : jsstring) (maxRetries : nat) :
  forall remaining attempt w,
  exists evs,
    snd (run env (retry_loop url maxRetries remaining attempt) w) = log evs w
    /\ Forall (retrying url) evs
    /\ (count is_fetch evs <= remaining)%nat
    /\ (forall b, fst (run env (retry_loop url maxRetries remaining attempt) w)
                  = Returned (ArrayBuf b) ->
        exists front r,
          evs = (front ++ [Fetch url; ArrayBuffer r])%list
          /\ ok r = true /\ body r = Fulfilled b).
Proof.
  induction remaining as [| remaining IH]; intros attempt w.
  - exists []. cbn. repeat split; auto. discriminate.
  - assert (Hnext : forall pre,
              Forall (retrying url) pre -> count is_fetch pre = 1%nat ->
              exists evs,
                snd (run env (retry_loop url maxRetries remaining (S attempt)) (log pre w))
                  = log evs w
                /\ Forall (retrying url) evs
                /\ (count is_fetch evs <= S remaining)%nat
                /\ (forall b,
                    fst (run env (retry_loop url maxRetries remaining (S attempt)) (log pre w))
                      = Returned (ArrayBuf b) ->
                    exists front r,
                      evs = (front ++ [Fetch url; ArrayBuffer r])%list
                      /\ ok r = true /\ body r = Fulfilled b)).
    { intros pre Hpre Hcount.
      destruct (IH (S attempt) (log pre w)) as [evs [E [Hall [Hle Hret]]]].
      exists (pre ++ evs)%list. split; [now rewrite log_app |].
      split; [now apply Forall_app |].
      split; [rewrite count_app; lia |].
      intros b Hb. destruct (Hret b Hb) as [front [r [-> Hr]]].
      exists (pre ++ front)%list, r. now rewrite <- app_assoc. }
    assert (Hcatch : forall (e : Error) pre,
              Forall (retrying url) pre -> count is_fetch pre = 1%nat ->
              exists evs,
                snd (run env (ctl <- attempt_catch maxRetries attempt e ;;
                              match ctl with
                              | Return v => Ret v
                              | Continue => retry_loop url maxRetries remaining (S attempt)
                              end) (log pre w)) = log evs w
                /\ Forall (retrying url) evs
                /\ (count is_fetch evs <= S remaining)%nat
                /\ (forall b,
                    fst (run env (ctl <- attempt_catch maxRetries attempt e ;;
                                  match ctl with
                                  | Return v => Ret v
                                  | Continue => retry_loop url maxRetries remaining (S attempt)
                                  end) (log pre w)) = Returned (ArrayBuf b) ->
                    exists front r,
                      evs = (front ++ [Fetch url; ArrayBuffer r])%list
                      /\ ok r = true /\ body r = Fulfilled b)).
    { intros e pre Hpre Hcount. unfold attempt_catch.
      destruct (Nat.eqb attempt maxRetries).
      - exists pre. cbn. split; [reflexivity |]. split; [exact Hpre |].
        split; [lia | discriminate].
      - unfold delay, perform. cbn [bind run answer].
        destruct (Hnext (pre ++ [SetTimeout (Num (1000 * Z.of_nat attempt))])%list)
          as [evs H].
        + apply Forall_app. split; [exact Hpre | repeat constructor].
        + rewrite count_app, Hcount. reflexivity.
        + rewrite log_app in H. exists evs. exact H. }
    cbn [retry_loop]. unfold attempt_body, fetch. cbn [bind try_catch run answer].
    destruct (net env (fetches w) url) as [r | e].
    + cbn [settle bind try_catch].
      destruct (status r =? 429).
      * unfold delay, perform. cbn [bind try_catch run answer].
        apply (Hnext [Fetch url; SetTimeout (backoff r attempt)]);
          [repeat constructor | reflexivity].
      * destruct (negb (ok r)) eqn:Hok.
        -- cbn [bind try_catch].
           apply (Hcatch _ [Fetch url]); [repeat constructor | reflexivity].
        -- unfold arrayBuffer. cbn [bind try_catch run answer].
           destruct (body r) as [b | e] eqn:Hbody.
           ++ cbn [settle bind try_catch run].
              exists [Fetch url; ArrayBuffer r]. cbn [fst snd].
              split; [reflexivity |]. split; [repeat constructor |].
              split; [cbn; lia |].
              intros b' Hb'. injection Hb' as <-.
              exists [], r. split; [reflexivity |].
              split; [now apply negb_false_iff | exact Hbody].
           ++ cbn [settle bind try_catch].
              apply (Hcatch _ [Fetch url; ArrayBuffer r]);
                [repeat constructor | reflexivity].
    + cbn [settle bind try_catch].
      apply (Hcatch _ [Fetch url]); [repeat constructor | reflexivity].
Qed.

Lemma messages_retrying (url : jsstring) (evs : list Event) :
  Forall (retrying url) evs -> messages evs = [].
Proof.
  induction 1 as [| ev evs Hev _ IH]; [reflexivity |].
  destruct ev; cbn; try exact IH; destruct Hev.
Qed.

End Budget.

(** Fetching an image never asks the server more than [maxRetries] times,
    whatever it answers, and asks for nothing but the image; and bytes are
    returned only as the body of a response with a success status. *)
Theorem fetchImageWithRetry_budget (env : Env) (url : jsstring) (maxRetries : nat)
    (w : World) :
  exists evs,
    snd (run env (fetchImageWithRetry url maxRetries) w) = log evs w
    /\ Forall (retrying url) evs
    /\ (count is_fetch evs <= maxRetries)%nat
    /\ (forall b, fst (run env (fetchImageWithRetry url maxRetries) w)
                  = Returned (ArrayBuf b) ->
        exists front r,
          evs = (front ++ [Fetch url; ArrayBuffer r])%list
          /\ ok r = true /\ body r = Fulfilled b).
Proof. apply retry_loop_events. Qed.

Section Retry.

Variable env : Env.

Lemma ok_not_429 (r : Response) : ok r = true -> (status r =? 429) = false.
Proof.
  unfold ok. intro H. apply andb_prop in H. destruct H as [_ Hhi].
  apply Z.leb_le in Hhi. apply Z.eqb_neq. lia.
Qed.

Lemma answered_cons (url : jsstring) (n : nat) (a : settled Response)
    (answers : list (settled Response)) :
  answered env url n (a :: answers) ->
  net env n url = a /\ answered env url (S n) answers.
Proof.
  intro H. split.
  - specialize (H 0%nat a eq_refl). now rewrite Nat.add_0_r in H.
  - intros i x Hx. specialize (H (S i) x Hx). now rewrite Nat.add_succ_r in H.
Qed.

Lemma fetches_attempted (url : jsstring) (a : settled Response) (ms : number) (w : World) :
  fetches (log (attempted url a ++ [SetTimeout ms]) w) = S (fetches w).
Proof.
  rewrite fetches_log. unfold attempted.
  destruct a as [r | e]; [destruct (ok r) |]; unfold count; cbn; lia.
Qed.

Lemma fetches_tries (url : jsstring) (answers : list (settled Response)) :
  forall attempt w,
  fetches (log (tries url answers attempt) w) = (fetches w + List.length answers)%nat.
Proof.
  induction answers as [| a answers IH]; intros attempt w.
  - cbn. lia.
  - cbn [tries List.length].
    replace (attempted url a ++ SetTimeout (pause a attempt)
                       :: tries url answers (S attempt))%list
      with ((attempted url a ++ [SetTimeout (pause a attempt)])
            ++ tries url answers (S attempt))%list
      by (rewrite <- app_assoc; reflexivity).
    rewrite (log_app (attempted url a ++ [SetTimeout (pause a attempt)])), IH,
      fetches_attempted. lia.
Qed.

(** An attempt that yields nothing, and is not the last one or is answered
    429, sleeps and leaves the rest of the budget to the next attempt. *)
Lemma iteration_again (url : jsstring) (maxRetries remaining attempt : nat)
    (w : World) (a : settled Response) :
  net env (fetches w) url = a ->
  yields a = None ->
  attempt <> maxRetries \/ is_429 a = true ->
  run env (retry_loop url maxRetries (S remaining) attempt) w =
  run env (retry_loop url maxRetries remaining (S attempt))
      (log (attempted url a ++ [SetTimeout (pause a attempt)]) w).
Proof.
  intros Hnet Hnone Hgo.
  cbn [retry_loop]. unfold attempt_body, fetch. cbn [bind try_catch run answer].
  rewrite Hnet. unfold attempt_catch.
  destruct a as [r | e]; cbn [settle bind try_catch yields is_429 pause attempted] in *.
  - destruct (status r =? 429) eqn:H429.
    + assert (Hok : ok r = false).
      { destruct (ok r) eqn:Hok; [| reflexivity].
        apply ok_not_429 in Hok. congruence. }
      rewrite Hok. reflexivity.
    + destruct Hgo as [Hne | ?]; [| discriminate].
      apply Nat.eqb_neq in Hne.
      destruct (ok r) eqn:Hok; cbn [negb bind try_catch].
      * unfold arrayBuffer. cbn [bind try_catch run answer].
        destruct (body r) as [b | e]; [discriminate |].
        cbn [settle bind try_catch]. rewrite Hne. reflexivity.
      * rewrite Hne. reflexivity.
  - destruct Hgo as [Hne | ?]; [| discriminate].
    apply Nat.eqb_neq in Hne. rewrite Hne. reflexivity.
Qed.

(** The last attempt, when it yields nothing and is not answered 429,
    throws its error. *)
Lemma iteration_gives_up (url : jsstring) (maxRetries remaining : nat)
    (w : World) (a : settled Response) :
  net env (fetches w) url = a ->
  yields a = None ->
  is_429 a = false ->
  run env (retry_loop url maxRetries (S remaining) maxRetries) w =
  (Thrown (error_of a), log (attempted url a) w).
Proof.
  intros Hnet Hnone H429.
  cbn [retry_loop]. unfold attempt_body, fetch. cbn [bind try_catch run answer].
  rewrite Hnet. unfold attempt_catch. rewrite Nat.eqb_refl.
  destruct a as [r | e]; cbn [settle bind try_catch yields is_429 error_of attempted] in *.
  - rewrite H429. destruct (ok r); cbn [negb bind try_catch].
    + unfold arrayBuffer. cbn [bind try_catch run answer].
      destruct (body r) as [b | e]; [discriminate | reflexivity].
    + reflexivity.
  - reflexivity.
Qed.

(** An attempt that yields bytes returns them. *)
Lemma iteration_yields (url : jsstring) (maxRetries remaining attempt : nat)
    (w : World) (a : settled Response) (b : bytes) :
  net env (fetches w) url = a ->
  yields a = Some b ->
  run env (retry_loop url maxRetries (S remaining) attempt) w =
  (Returned (ArrayBuf b), log (attempted url a) w).
Proof.
  intros Hnet Hb. destruct a as [r | e]; [| discriminate].
  cbn [yields attempted] in *. destruct (ok r) eqn:Hok; [| discriminate].
  destruct (body r) as [b' | e] eqn:Hbody; [| discriminate]. injection Hb as ->.
  apply (iteration_ok env url maxRetries remaining attempt w r b Hnet Hok Hbody).
Qed.

Lemma retry_loop_tries (url : jsstring) (maxRetries : nat)
    (answers : list (settled Response)) :
  forall remaining attempt w,
  answered env url (fetches w) answers ->
  Forall (fun a => yields a = None) answers ->
  (List.length answers <= remaining)%nat ->
  (attempt + List.length answers <= maxRetries)%nat ->
  run env (retry_loop url maxRetries remaining attempt) w =
  run env (retry_loop url maxRetries (remaining - List.length answers)
                      (attempt + List.length answers))
      (log (tries url answers attempt) w).
Proof.
  induction answers as [| a answers IH]; intros remaining attempt w Hs Hf Hlen Hmax.
  - cbn. now rewrite Nat.sub_0_r, Nat.add_0_r.
  - destruct remaining as [| remaining]; [cbn in Hlen; lia |].
    apply answered_cons in Hs. destruct Hs as [Ha Hs].
    inversion Hf as [| ? ? Hfa Hf']; subst. cbn [List.length] in *.
    rewrite (iteration_again url maxRetries remaining attempt w _ eq_refl Hfa)
      by (left; lia).
    rewrite IH.
    + cbn [tries]. rewrite Nat.add_succ_r.
      replace (attempted url (net env (fetches w) url)
               ++ SetTimeout (pause (net env (fetches w) url) attempt)
                  :: tries url answers (S attempt))%list
        with ((attempted url (net env (fetches w) url)
               ++ [SetTimeout (pause (net env (fetches w) url) attempt)])
              ++ tries url answers (S attempt))%list
        by (rewrite <- app_assoc; reflexivity).
      rewrite !log_app. reflexivity.
    + now rewrite fetches_attempted.
    + exact Hf'.
    + lia.
    + lia.
Qed.

End Retry.

Lemma answered_scripted (rs : list Response) (url : jsstring) :
  answered (scripted rs) url (fetches initial)
           (map Fulfilled rs ++ [Rejected (typeError (js "Failed to fetch"))]).
Proof.
  intros i a H. cbn.
  destruct (nth_error rs i) as [r |] eqn:Hr.
  - rewrite nth_error_app1 in H by (rewrite length_map; apply nth_error_Some; congruence).
    rewrite nth_error_map, Hr in H. cbn in H. congruence.
  - apply nth_error_None in Hr.
    rewrite nth_error_app2 in H by (rewrite length_map; exact Hr).
    rewrite length_map in H.
    destruct (i - List.length rs)%nat as [| j]; cbn in H; [congruence |].
    destruct j; discriminate.
Qed.

Lemma answered_firstn (env : Env) (url : jsstring) (n k : nat)
    (answers : list (settled Response)) :
  answered env url n answers -> answered env url n (firstn k answers).
Proof.
  intros H i a Ha. apply H.
  assert (Hi : (i < k)%nat).
  { destruct (Nat.lt_ge_cases i k) as [Hlt | Hge]; [exact Hlt |].
    assert (Hnone : nth_error (firstn k answers) i = None).
    { apply nth_error_None. rewrite length_firstn. lia. }
    congruence. }
  now rewrite nth_error_firstn, (proj2 (Nat.ltb_lt i k) Hi) in Ha.
Qed.

(** Every kind of failure is retried.  When the first attempts, fewer than
    [maxRetries], each fail in any way (the fetch rejected, a 429, another
    status that is no success, or a body that cannot be read) and the next
    attempt gets the body of a response with a success status, the bytes
    are returned; after each failed attempt [n] the function has slept
    [Retry-After * 1000 * n] ms for a 429 and [1000 * n] ms otherwise. *)
Theorem fetchImageWithRetry_recovers (env : Env) (url : jsstring) (maxRetries : nat)
    (w : World) (answers : list (settled Response)) (a : settled Response) (b : bytes) :
  answered env url (fetches w) (answers ++ [a]) ->
  Forall (fun a => yields a = None) answers ->
  yields a = Some b ->
  (List.length answers < maxRetries)%nat ->
  run env (fetchImageWithRetry url maxRetries) w =
  (Returned (ArrayBuf b), log (tries url answers 1 ++ attempted url a) w).
Proof.
  intros Hs Hnone Hb Hlen. unfold fetchImageWithRetry.
  assert (Hs1 : answered env url (fetches w) answers).
  { intros i x Hx. apply Hs. rewrite nth_error_app1; [exact Hx |].
    apply nth_error_Some. congruence. }
  assert (Ha : net env (fetches w + List.length answers) url = a).
  { apply Hs. rewrite nth_error_app2, Nat.sub_diag; [reflexivity | lia]. }
  rewrite (retry_loop_tries env url maxRetries answers maxRetries 1 w Hs1 Hnone) by lia.
  destruct (maxRetries - List.length answers)%nat as [| remaining] eqn:Hrem; [lia |].
  pose proof (fetches_tries url answers 1 w) as Hf.
  rewrite (iteration_yields env url maxRetries remaining _ _ a b); [| now rewrite Hf | exact Hb].
  now rewrite log_app.
Qed.

(** A 500, then a 429 asking for two seconds, then the image. *)
Lemma fetchImageWithRetry_recovers_witness :
  run (scripted [response 500 None; response 429 (Some "2"); response 200 None])
      (fetchImageWithRetry url1 3) initial
  = (Returned (ArrayBuf payload),
     {| activeCapture := None;
        history := [Fetch url1; SetTimeout (Num 1000);
                    Fetch url1; SetTimeout (Num 4000);
                    Fetch url1; ArrayBuffer (response 200 None)] |}).
Proof.
  refine (fetchImageWithRetry_recovers
            (scripted [response 500 None; response 429 (Some "2"); response 200 None])
            url1 3 initial
            [Fulfilled (response 500 None); Fulfilled (response 429 (Some "2"))]
            (Fulfilled (response 200 None)) payload
            (answered_firstn _ url1 _ 3 _ (answered_scripted _ url1)) _ eq_refl _).
  - repeat constructor.
  - cbn. lia.
Defined.

(** When all [maxRetries] attempts fail, the last one alone decides how
    the call ends: answered 429 it returns [undefined], after one more
    sleep; otherwise it throws the error of that attempt, at once. *)
Theorem fetchImageWithRetry_gives_up (env : Env) (url : jsstring) (maxRetries : nat)
    (w : World) (answers : list (settled Response)) (a : settled Response) :
  answered env url (fetches w) (answers ++ [a]) ->
  Forall (fun a => yields a = None) answers ->
  yields a = None ->
  S (List.length answers) = maxRetries ->
  run env (fetchImageWithRetry url maxRetries) w =
  if is_429 a
  then (Returned Undefined,
        log (tries url answers 1 ++ attempted url a ++ [SetTimeout (pause a maxRetries)]) w)
  else (Thrown (error_of a), log (tries url answers 1 ++ attempted url a) w).
Proof.
  intros Hs Hnone Hlast Hlen. unfold fetchImageWithRetry.
  assert (Hs1 : answered env url (fetches w) answers).
  { intros i x Hx. apply Hs. rewrite nth_error_app1; [exact Hx |].
    apply nth_error_Some. congruence. }
  assert (Ha : net env (fetches w + List.length answers) url = a).
  { apply Hs. rewrite nth_error_app2, Nat.sub_diag; [reflexivity | lia]. }
  rewrite (retry_loop_tries env url maxRetries answers maxRetries 1 w Hs1 Hnone) by lia.
  pose proof (fetches_tries url answers 1 w) as Hf.
  replace (maxRetries - List.length answers)%nat with 1%nat by lia.
  replace (1 + List.length answers)%nat with maxRetries by lia.
  destruct (is_429 a) eqn:H429.
  - rewrite (iteration_again env url maxRetries 0 maxRetries _ a); auto.
    + cbn [retry_loop run]. now rewrite <- log_app.
    + now rewrite Hf.
  - rewrite (iteration_gives_up env url maxRetries 0 _ a); auto.
    + now rewrite log_app.
    + now rewrite Hf.
Qed.

(** A 500, a 429, and then no network: the error of the third attempt. *)
Lemma fetchImageWithRetry_gives_up_witness :
  run (scripted [response 500 None; response 429 (Some "2")])
      (fetchImageWithRetry url1 3) initial
  = (Thrown (typeError (js "Failed to fetch")),
     {| activeCapture := None;
        history := [Fetch url1; SetTimeout (Num 1000);
                    Fetch url1; SetTimeout (Num 4000);
                    Fetch url1] |}).
Proof.
  refine (fetchImageWithRetry_gives_up
            (scripted [response 500 None; response 429 (Some "2")])
            url1 3 initial
            [Fulfilled (response 500 None); Fulfilled (response 429 (Some "2"))]
            (Rejected (typeError (js "Failed to fetch")))
            (answered_scripted _ url1) _ eq_refl eq_refl).
  repeat constructor.
Defined.

(** **** The two strategies *)

Section Images.

Variable env : Env.

Lemma fetches_among_retrying (url : jsstring) (us : list jsstring) (evs : list Event) :
  Forall (retrying url) evs -> Forall (fetches_among (url :: us)) evs.
Proof.
  apply Forall_impl. intros ev H. destruct ev; cbn in *; auto.
Qed.

Lemma fetches_among_more (url : jsstring) (us : list jsstring) (evs : list Event) :
  Forall (fetches_among us) evs -> Forall (fetches_among (url :: us)) evs.
Proof.
  apply Forall_impl. intros ev H. destruct ev; cbn in *; auto.
Qed.

Lemma fetchImages_loop_progress (len : nat) :
  forall (urls : list jsstring) (i : nat) (images : list ImageData) (w : World),
  exists (k : nat) (evs : list Event),
    (k <= List.length urls)%nat
    /\ snd (run env (fetchImages_loop urls len i images) w) = log evs w
    /\ messages evs
       = map (fun j => PROGRESS_UPDATE (Z.of_nat j + 1) (Z.of_nat len)) (seq i k)
    /\ (count is_fetch evs <= default_maxRetries * k)%nat
    /\ Forall (fetches_among (firstn k urls)) evs
    /\ match run env (fetchImages_loop urls len i images) w with
       | (Returned all, w') =>
           k = List.length urls
           /\ exists new, all = (images ++ new)%list
                          /\ fetched_in_turn env len i urls w new w'
       | (Thrown e, w') =>
           exists front url rest ds w1,
             urls = (front ++ url :: rest)%list
             /\ k = S (List.length front)
             /\ fetched_in_turn env len i front w ds w1
             /\ run env (fetchImageWithRetry url default_maxRetries)
                    (record (RuntimeSendMessage
                               (PROGRESS_UPDATE (Z.of_nat (i + List.length front) + 1)
                                                (Z.of_nat len))) w1)
                = (Thrown e, w')
       end.
Proof.
  induction urls as [| url urls IH]; intros i images w.
  - exists 0%nat, []. cbn. repeat split; auto.
    exists []. rewrite app_nil_r. split; [reflexivity | constructor].
  - cbn [fetchImages_loop]. unfold sendProgressUpdate, perform.
    cbn [bind run answer]. rewrite run_bind.
    set (m := RuntimeSendMessage (PROGRESS_UPDATE (Z.of_nat i + 1) (Z.of_nat len))).
    set (w1 := record m w).
    destruct (retry_loop_events env url default_maxRetries default_maxRetries 1 w1)
      as [evs1 [E1 [Hall1 [Hle1 _]]]].
    fold (fetchImageWithRetry url default_maxRetries) in *.
    destruct (run env (fetchImageWithRetry url default_maxRetries) w1)
      as [[d | e] w2] eqn:Hrun; cbn [fst snd] in *; subst w2.
    + destruct (IH (S i) (images ++ [d])%list (log evs1 w1))
        as [k [evs [Hk [E [Hm [Hc [Ha Hend]]]]]]].
      exists (S k), (m :: evs1 ++ evs)%list.
      split; [cbn; lia |].
      split; [rewrite E; subst w1; cbn [log fold_left]; now rewrite log_app |].
      split; [cbn [messages flat_map app seq map m];
              change (flat_map _ (evs1 ++ evs)%list) with (messages (evs1 ++ evs));
              rewrite messages_app, (messages_retrying url evs1 Hall1), Hm; reflexivity |].
      split; [rewrite count_cons, count_app; unfold m; cbn [is_fetch]; lia |].
      split; [cbn [firstn]; constructor; [exact I |]; apply Forall_app; split;
              [now apply fetches_among_retrying | now apply fetches_among_more] |].
      destruct (run env (fetchImages_loop urls len (S i) (images ++ [d])) (log evs1 w1))
        as [[all | e] w3].
      * destruct Hend as [-> [new [-> Hturn]]]. split; [reflexivity |].
        exists (d :: new). rewrite <- app_assoc. split; [reflexivity |].
        apply (in_turn_cons env len i url urls w (log evs1 w1) w3 d new Hrun Hturn).
      * destruct Hend as [front [url' [rest [ds [w4 [-> [-> [Hturn Hthrow]]]]]]]].
        exists (url :: front), url', rest, (d :: ds), w4.
        split; [reflexivity |]. split; [reflexivity |].
        split; [apply (in_turn_cons env len i url front w (log evs1 w1) w4 d ds Hrun Hturn) |].
        cbn [List.length]. rewrite Nat.add_succ_r. exact Hthrow.
    + exists 1%nat, (m :: evs1)%list.
      split; [cbn; lia |].
      split; [reflexivity |].
      split; [cbn [messages flat_map app seq map m];
              change (flat_map _ evs1) with (messages evs1);
              now rewrite (messages_retrying url evs1 Hall1) |].
      split; [rewrite count_cons; unfold m; cbn [is_fetch]; lia |].
      split; [cbn [firstn]; constructor; [exact I |];
              now apply fetches_among_retrying |].
      exists [], url, urls, [], w.
      split; [reflexivity |]. split; [reflexivity |]. split; [constructor |].
      cbn [List.length]. rewrite Nat.add_0_r. exact Hrun.
Qed.

End Images.

(** The images come one per URL, or not at all.  Whatever the network
    answers, fetchImagesFromUrls announces image [j] of [n] before it
    fetches it, for [j] = 1, 2, ... in order, asks only for the URLs of
    the images announced, and at most three times for each.  It returns
    exactly when every call of fetchImageWithRetry has returned, and then
    the list of what these calls returned, one entry per URL and in
    order.  When the call for an image throws, fetchImagesFromUrls throws
    that error at once: the images before were fetched, the run ends
    where that call ends, and nothing is asked or announced after it. *)
Theorem fetchImagesFromUrls_progress (env : Env) (urls : list jsstring) (w : World) :
  let n := List.length urls in
  exists (k : nat) (evs : list Event),
    (k <= n)%nat
    /\ snd (run env (fetchImagesFromUrls urls) w) = log evs w
    /\ messages evs
       = map (fun j => PROGRESS_UPDATE (Z.of_nat j + 1) (Z.of_nat n)) (seq 0 k)
    /\ (count is_fetch evs <= 3 * k)%nat
    /\ Forall (fetches_among (firstn k urls)) evs
    /\ match run env (fetchImagesFromUrls urls) w with
       | (Returned images, w') =>
           k = n /\ List.length images = n
           /\ fetched_in_turn env n 0 urls w images w'
       | (Thrown e, w') =>
           exists front url rest ds w1,
             urls = (front ++ url :: rest)%list
             /\ k = S (List.length front)
             /\ fetched_in_turn env n 0 front w ds w1
             /\ run env (fetchImageWithRetry url default_maxRetries)
                    (record (RuntimeSendMessage
                               (PROGRESS_UPDATE (Z.of_nat (List.length front) + 1)
                                                (Z.of_nat n))) w1)
                = (Thrown e, w')
       end.
Proof.
  intro n. subst n. unfold fetchImagesFromUrls.
  destruct (fetchImages_loop_progress env (List.length urls) urls 0 [] w)
    as [k [evs [Hk [E [Hm [Hc [Ha Hend]]]]]]].
  exists k, evs. repeat (split; [assumption |]).
  destruct (run env (fetchImages_loop urls (List.length urls) 0 []) w) as [[all | e] w'].
  - destruct Hend as [-> [new [-> Hturn]]]. cbn [app].
    split; [reflexivity |]. split; [| exact Hturn].
    clear - Hturn. induction Hturn; cbn; [reflexivity | now rewrite IHHturn].
  - exact Hend.
Qed.

Section Screenshots.

Variable env : Env.



End Screenshots.


(** **** The assembler, whatever pdf-lib answers *)

Section Pdf.

Variable env : Env.

Lemma run_embed_any (d : ImageData) (w : World) :
  run env (embed d) w = (outcome_of (embedding env d), record (embed_call d) w).
Proof.
  unfold embed, embedding, embed_call. rewrite <- classified_png_signature.
  destruct (classified_png d); cbn [run answer];
    [destruct (pdf_embedPng env d) | destruct (pdf_embedJpg env d)]; reflexivity.
Qed.

Lemma addPages_any (imgs : list ImageData) :
  forall (pdfDoc : PDFDocument) (w : World),
  match run env (addPages imgs pdfDoc) w with
  | (Returned doc, w') =>
      w' = log (map embed_call imgs) w
      /\ exists images, Forall2 (embeds env) imgs images
                        /\ doc = (pdfDoc ++ map page_for images)%list
  | (Thrown e, w') =>
      exists done images d rest,
        imgs = (done ++ d :: rest)%list
        /\ Forall2 (embeds env) done images
        /\ embedding env d = Rejected e
        /\ w' = log (map embed_call (done ++ [d])) w
  end.
Proof.
  induction imgs as [| d imgs IH]; intros pdfDoc w.
  - cbn. split; [reflexivity |]. exists []. split; [constructor | now rewrite app_nil_r].
  - cbn [addPages]. rewrite run_bind, run_embed_any.
    destruct (embedding env d) as [image | e] eqn:Hd; cbn [outcome_of].
    + assert (Hemb : embeds env d image).
      { unfold embeds, embedding in *. destruct (classified_png d); exact Hd. }
      specialize (IH (pdfDoc ++ [page_for image])%list (record (embed_call d) w)).
      destruct (run env (addPages imgs (pdfDoc ++ [page_for image])) _) as [[doc | e] w'].
      * destruct IH as [-> [images [Hall ->]]]. split; [reflexivity |].
        exists (image :: images). split; [constructor; assumption |].
        cbn. now rewrite <- app_assoc.
      * destruct IH as [done [images [d' [rest [-> [Hdone [Hrej ->]]]]]]].
        exists (d :: done), (image :: images), d', rest.
        split; [reflexivity |]. split; [constructor; assumption |]. auto.
    + exists [], [], d, imgs. split; [reflexivity |]. split; [constructor |]. auto.
Qed.

End Pdf.

(** The document is saved only when every image was embedded.  Whatever
    pdf-lib answers, generatePdf embeds the images in order, each by the
    decoder of its class.  The first image that pdf-lib rejects ends it
    with that error: the images before it were embedded, no later image is
    embedded and nothing is saved.  When pdf-lib embeds them all,
    generatePdf has it save the document whose pages are those made for
    the embedded images, one per image and in order, and returns the
    bytes that the save gives, or throws the error that it gives. *)
Theorem generatePdf_all_or_nothing (env : Env) (imgs : list ImageData) (w : World) :
  match run env (generatePdf imgs) w with
  | (Returned pdfBytes, w') =>
      exists images,
        Forall2 (embeds env) imgs images
        /\ w' = log (map embed_call imgs ++ [PdfSave (map page_for images)]) w
        /\ pdf_save env (map page_for images) = Fulfilled pdfBytes
  | (Thrown e, w') =>
      (exists done images d rest,
         imgs = (done ++ d :: rest)%list
         /\ Forall2 (embeds env) done images
         /\ embedding env d = Rejected e
         /\ w' = log (map embed_call (done ++ [d])) w)
      \/ (exists images,
            Forall2 (embeds env) imgs images
            /\ w' = log (map embed_call imgs ++ [PdfSave (map page_for images)]) w
            /\ pdf_save env (map page_for images) = Rejected e)
  end.
Proof.
  unfold generatePdf. rewrite run_bind.
  pose proof (addPages_any env imgs [] w) as H.
  destruct (run env (addPages imgs []) w) as [[doc | e] w1].
  - destruct H as [-> [images [Hall ->]]]. cbn [run answer app].
    destruct (pdf_save env (map page_for images)) as [pdfBytes | e] eqn:Hsave;
      cbn [settle run].
    + exists images. rewrite log_app. auto.
    + right. exists images. rewrite log_app. auto.
  - left. exact H.
Qed.

(** **** A capture in which nothing fails *)

Section Delivery.

Variable env : Env.

Lemma fetchImages_loop_served (len : nat) :
  forall (urls : list jsstring) (rs : list Response) (bs : list bytes)
         (i : nat) (images : list ImageData) (w : World),
  served_in_order env (fetches w) urls rs bs ->
  run env (fetchImages_loop urls len i images) w =
  (Returned (images ++ map ArrayBuf bs)%list, log (fetched urls rs len i) w).
Proof.
  induction urls as [| url urls IH]; intros rs bs i images w Hs;
    inversion Hs as [| ? ? ? r rs' b bs' Hnet Hok Hbody Hrest]; subst.
  - cbn. now rewrite app_nil_r.
  - cbn [fetchImages_loop]. unfold sendProgressUpdate, perform.
    cbn [bind run answer]. rewrite run_bind.
    set (m := RuntimeSendMessage _).
    unfold fetchImageWithRetry, default_maxRetries.
    assert (Hf : fetches (record m w) = fetches w).
    { rewrite fetches_record. cbn. lia. }
    rewrite <- Hf in Hnet.
    rewrite (iteration_ok env url 3 2 1 (record m w) r b Hnet Hok Hbody).
    rewrite IH with (rs := rs') (bs := bs').
    + cbn [map fetched]. rewrite <- app_assoc. reflexivity.
    + rewrite fetches_log, Hf. unfold count. cbn.
      now replace (fetches w + 1)%nat with (S (fetches w)) by lia.
Qed.

End Delivery.

(** A capture by the slide URLs in which nothing fails delivers the
    document.  When the content script answers with a title and with the
    URLs of all the slides, every image is served at the first request,
    pdf-lib embeds every image and saves, and the browser accepts the
    download, startCapture fetches the images in slide order, announcing
    each, makes a document of one page per slide in that order, sized to
    its image, has it downloaded under the safe name of the title, and
    sends CAPTURE_COMPLETE; no screenshot is taken, and nothing sleeps. *)
Theorem startCapture_delivers (env : Env) (tab total : Z) (w : World)
    (u : option (list jsstring)) (t t' : option jsstring)
    (urls : list jsstring) (rs : list Response) (bs : list bytes)
    (images : list Image) (pdf : bytes) :
  activeCapture w = None ->
  content env (count is_content (history w)) tab GET_DOCUMENT_TITLE
    = Fulfilled (ResponseObj u t) ->
  content env (S (count is_content (history w))) tab (FETCH_SLIDE_URLS total)
    = Fulfilled (ResponseObj (Some urls) t') ->
  Z.of_nat (List.length urls) = total ->
  served_in_order env (fetches w) urls rs bs ->
  Forall2 (embeds env) (map ArrayBuf bs) images ->
  pdf_save env (map page_for images) = Fulfilled pdf ->
  download env (object_url env pdf) (safeName (title_of t) ++ js ".pdf")%list = Fulfilled tt ->
  run env (startCapture tab total) w =
  (Returned tt, log (delivery env tab total urls rs bs images pdf (title_of t)) w).
Proof.
  intros Hidle Htitle Hurls Hlen Hserved Hembed Hsave Hdown.
  unfold startCapture, perform. cbn [bind run answer]. rewrite Hidle.
  cbn [bind run answer]. rewrite run_try_finally, run_try_catch.
  unfold capture_body, sendToContentScript. cbn [bind run answer].
  set (w1 := record (WriteActiveCapture _) (record ReadActiveCapture w)).
  assert (Hc1 : count is_content (history w1) = count is_content (history w)).
  { subst w1. cbn [history record]. rewrite !count_app. unfold count. cbn. lia. }
  rewrite Hc1, Htitle. cbn [settle bind].
  assert (Hname : title_or_default (ResponseObj u t) = Ret (title_of t))
    by (destruct t; reflexivity).
  rewrite Hname. cbn [bind].
  rewrite run_bind.
  set (w2 := record (TabsSendMessage tab GET_DOCUMENT_TITLE) w1).
  assert (Hc2 : count is_content (history w2) = S (count is_content (history w))).
  { subst w2. cbn [history record]. rewrite count_app, Hc1. unfold count. cbn. lia. }
  unfold fetchSlideUrlsViaApi, sendToContentScript. cbn [bind try_catch run answer].
  rewrite Hc2, Hurls. cbn [settle bind try_catch].
  replace (Z.of_nat (List.length urls) =? total) with true
    by (symmetry; now apply Z.eqb_eq).
  cbn [try_catch run]. rewrite run_bind.
  set (w3 := record (TabsSendMessage tab (FETCH_SLIDE_URLS total)) w2).
  unfold fetchImagesFromUrls.
  rewrite (fetchImages_loop_served env (List.length urls) urls rs bs 0 [] w3)
    by (subst w3 w2 w1; rewrite !fetches_record; cbn;
        now replace (fetches w + 0 + 0 + 0 + 0)%nat with (fetches w) by lia).
  cbn [app]. unfold assemble_and_deliver, sendProgressUpdate, perform.
  cbn [bind run answer]. rewrite run_bind.
  unfold generatePdf. rewrite run_bind.
  rewrite (run_addPages env (map ArrayBuf bs) images Hembed).
  cbn [app run answer]. rewrite Hsave. cbn [settle run].
  unfold downloadPdf, sendComplete, perform. cbn [bind run answer].
  rewrite Hdown. cbn [settle bind run answer].
  f_equal. unfold delivery. subst w3 w2 w1. rewrite !log_app. reflexivity.
Qed.

Lemma startCapture_delivers_witness :
  run (scripted [response 200 None; response 200 None]) (startCapture 7 2) initial
  = (Returned tt,
     log (delivery (scripted [response 200 None; response 200 None]) 7 2
            [url1; url2] [response 200 None; response 200 None] [payload; payload]
            [ {| width := 800; height := 600 |}; {| width := 800; height := 600 |} ]
            [x25; x50; x44; x46; x02] (js "Quarterly Review")) initial).
Proof.
  apply (startCapture_delivers (scripted [response 200 None; response 200 None]) 7 2
            initial None (Some (js "Quarterly Review")) None).
  - reflexivity.
  - reflexivity.
  - reflexivity.
  - reflexivity.
  - repeat constructor.
  - repeat constructor.
  - reflexivity.
  - reflexivity.
Defined.

End CaptureFacts.

(* ===================================================================== *)
(** ** Properties of the worker and the content script together          *)
(* ===================================================================== *)

Module ApiFacts.

Import Js Worker PageData RunSpec PageSpec CaptureSpec Examples PageExamples.
Import WorkerFacts PageFacts CaptureFacts.
Open Scope Z_scope.
Open Scope list_scope.

(** fetchSlideUrlsViaApi never throws, and hands on nothing but a complete
    list.  Whatever the content script answers, the call returns after
    its one message; it returns a list only when the answer carries one
    of exactly [totalSlides] URLs, and that very list; every other answer,
    and a failure of the content script, gives [null]. *)
Theorem fetchSlideUrlsViaApi_complete (env : Env) (tab total : Z) (w : World) :
  exists result : option (list jsstring),
    run env (fetchSlideUrlsViaApi tab total) w =
      (Returned result, record (TabsSendMessage tab (FETCH_SLIDE_URLS total)) w)
    /\ match result with
       | Some urls =>
           Z.of_nat (List.length urls) = total
           /\ exists title,
                content env (count is_content (history w)) tab (FETCH_SLIDE_URLS total)
                = Fulfilled (ResponseObj (Some urls) title)
       | None =>
           forall urls title,
             content env (count is_content (history w)) tab (FETCH_SLIDE_URLS total)
             = Fulfilled (ResponseObj (Some urls) title) ->
             Z.of_nat (List.length urls) <> total
       end.
Proof.
  unfold fetchSlideUrlsViaApi, sendToContentScript. cbn [bind try_catch run answer].
  destruct (content env (count is_content (history w)) tab (FETCH_SLIDE_URLS total))
    as [[| [urls |] title] | e]; cbn [settle bind try_catch run].
  - exists None. split; [reflexivity | discriminate].
  - destruct (Z.of_nat (List.length urls) =? total) eqn:E; cbn [run].
    + exists (Some urls). split; [reflexivity |].
      split; [now apply Z.eqb_eq | now exists title].
    + exists None. split; [reflexivity |].
      intros urls' title' H. injection H as <- _. now apply Z.eqb_neq.
  - exists None. split; [reflexivity | discriminate].
  - exists None. split; [reflexivity | discriminate].
Qed.

(** The two halves of the API method agree.  When the content script
    answers FETCH_SLIDE_URLS as its listener does, for a slide count that
    is not negative, the worker's check of the length rejects nothing:
    fetchSlideUrlsViaApi returns exactly what fetchAllSlideUrls returned,
    the list of all the URLs, or [null]. *)
Theorem fetchSlideUrlsViaApi_agrees (env : Env) (tab total : Z) (w : World)
    (server : Endpoint) (href : jsstring) :
  0 <= total ->
  content env (count is_content (history w)) tab (FETCH_SLIDE_URLS total)
  = Fulfilled (onFetchSlideUrls server href total) ->
  run env (fetchSlideUrlsViaApi tab total) w =
  (Returned (fst (fetchAllSlideUrls server href total [])),
   record (TabsSendMessage tab (FETCH_SLIDE_URLS total)) w).
Proof.
  intros Hpos Hc.
  unfold fetchSlideUrlsViaApi, sendToContentScript. cbn [bind try_catch run answer].
  rewrite Hc. unfold onFetchSlideUrls. cbn [settle bind try_catch].
  destruct (fst (fetchAllSlideUrls server href total [])) as [urls |] eqn:E.
  - apply fetchAllSlideUrls_length in E.
    replace (Z.of_nat (List.length urls) =? total) with true
      by (symmetry; apply Z.eqb_eq; lia).
    reflexivity.
  - reflexivity.
Qed.

(** The deck of two pages: both URLs reach the worker. *)
Lemma fetchSlideUrlsViaApi_agrees_witness :
  run (with_pages deck_server deck_href (scripted [])) (fetchSlideUrlsViaApi 7 2) initial
  = (Returned (Some [url1; url2]),
     record (TabsSendMessage 7 (FETCH_SLIDE_URLS 2)) initial).
Proof.
  rewrite (fetchSlideUrlsViaApi_agrees (with_pages deck_server deck_href (scripted []))
             7 2 initial deck_server deck_href).
  - reflexivity.
  - lia.
  - reflexivity.
Defined.

Section Forwarding.

Variable env : Env.

Lemma deliver_progress (current total : Z) (s : System) :
  deliver env (FETCH_PROGRESS current total) s
  = {| world := record (RuntimeSendMessage (PROGRESS_UPDATE current total)) (world s);
       tasks := tasks s |}.
Proof.
  unfold deliver, spawn, sendProgressUpdate, perform. cbn. now rewrite app_nil_r.
Qed.

Lemma forward_log (reports : list (Z * Z)) :
  forall s,
  forward env reports s
  = {| world := log (map (fun r => RuntimeSendMessage (PROGRESS_UPDATE (fst r) (snd r)))
                         reports) (world s);
       tasks := tasks s |}.
Proof.
  induction reports as [| r reports IH]; intro s.
  - destruct s. reflexivity.
  - change (forward env (r :: reports) s)
      with (forward env reports (deliver env (FETCH_PROGRESS (fst r) (snd r)) s)).
    rewrite IH, deliver_progress. reflexivity.
Qed.

End Forwarding.

(** The progress of the content script reaches the popup.  The reports
    that fetchAllSlideUrls makes, one for each page that gave a URL and
    in page order, are forwarded by the listener of the worker as
    PROGRESS_UPDATE messages, one for one and in order; the capture that
    waits for the URLs is not touched, nor is [activeCapture]. *)
Theorem progress_forwarded (env : Env) (server : Endpoint) (href : jsstring)
    (total : Z) (s : System) :
  let fetched := fetchAllSlideUrls server href total [] in
  let s' := forward env (progress (snd fetched)) s in
  tasks s' = tasks s
  /\ activeCapture (world s') = activeCapture (world s)
  /\ popup_messages (world s')
     = (popup_messages (world s)
        ++ map (fun r => PROGRESS_UPDATE (fst r) (snd r)) (progress (snd fetched)))%list
  /\ progress (snd fetched)
     = reported total 1
         (List.length (requests (snd fetched))
          - match fst fetched with Some _ => 0 | None => 1 end).
Proof.
  intros fetched s'. subst s'. rewrite forward_log. cbn [tasks world].
  split; [reflexivity |]. split; [| split].
  - apply activeCapture_log. apply Forall_forall. intros ev Hev.
    apply in_map_iff in Hev. destruct Hev as [r [<- _]]. exact I.
  - rewrite popup_messages_log. f_equal. unfold messages.
    induction (progress (snd fetched)) as [| r l IH]; [reflexivity |].
    cbn [map flat_map app]. now rewrite IH.
  - apply fetchAllSlideUrls_reports.
Qed.

End ApiFacts.

(* ===================================================================== *)
(** ** Properties of the popup                                           *)
(* ===================================================================== *)

Module PopupFacts.

Import Js Content Worker RunSpec PageSpec CaptureSpec Popup PopupSpec Examples PopupExamples.
Import WorkerFacts PageFacts CaptureFacts.
Open Scope Z_scope.
Open Scope list_scope.

Lemma state_eqb_eq (a b : State) : state_eqb a b = true <-> a = b.
Proof. destruct a, b; cbn; split; intro H; try reflexivity; discriminate H. Qed.

Lemma shows_showState (s : State) (v : View) : shows (showState s v) s.
Proof.
  intro s'. cbn. rewrite negb_false_iff. apply state_eqb_eq.
Qed.

Section Listening.

Variable percent : option number -> option number -> jsstring.

Lemma listen_app (a b : list PopupMessage) (v : View) :
  listen percent (a ++ b) v = listen percent b (listen percent a v).
Proof. apply fold_left_app. Qed.

(** Progress updates change neither the panel shown nor the error text. *)
Lemma listen_progress (ms : list PopupMessage) :
  Forall progress_message ms ->
  forall v, hidden (listen percent ms v) = hidden v
            /\ error_message (listen percent ms v) = error_message v.
Proof.
  induction 1 as [| m ms [current [total ->]] _ IH]; intro v; [split; reflexivity |].
  change (listen percent (PROGRESS_UPDATE current total :: ms) v)
    with (listen percent ms (onMessage percent (PROGRESS_UPDATE current total) v)).
  destruct (IH (onMessage percent (PROGRESS_UPDATE current total) v)) as [Hh He].
  rewrite Hh, He. split; reflexivity.
Qed.

Lemma Forall_firstn {A} (P : A -> Prop) (k : nat) (l : list A) :
  Forall P l -> Forall P (firstn k l).
Proof.
  intro H. rewrite <- (firstn_skipn k l) in H. apply Forall_app in H. tauto.
Qed.

End Listening.

(** The popup follows the capture to its end.  After the click on the
    download button, and whatever happens to the capture that the worker
    starts while none runs, the messages of that capture leave the popup
    on the progress panel as long as they come, and the last of them
    puts it on the panel of completion, or on the error panel with the
    text of the error: the popup is not left on the progress panel. *)
Theorem popup_follows_capture
    (percent : option number -> option number -> jsstring)
    (env : Env) (tab total : Z) (w : World) (p : Popup) :
  activeCapture w = None ->
  exists (updates : list PopupMessage) (last : PopupMessage),
    popup_messages (snd (run env (startCapture tab total) w))
    = (popup_messages w ++ updates ++ [last])%list
    /\ (forall k, shows (listen percent (firstn k updates)
                                 (view (fst (startDownload percent p)))) PROGRESS)
    /\ match last with
       | CAPTURE_COMPLETE =>
           shows (listen percent (updates ++ [last])
                         (view (fst (startDownload percent p)))) COMPLETE
       | CAPTURE_ERROR text =>
           shows (listen percent (updates ++ [last])
                         (view (fst (startDownload percent p)))) ERROR
           /\ error_message (listen percent (updates ++ [last])
                                    (view (fst (startDownload percent p)))) = text
       | PROGRESS_UPDATE _ _ => False
       end.
Proof.
  intro Hidle.
  destruct (startCapture_course env tab total w Hidle)
    as [work [last [E [Hwork [Hlast _]]]]].
  exists (messages work), last. rewrite E. cbn [snd].
  split; [apply popup_messages_course |].
  pose proof (messages_working work Hwork) as Hprog.
  set (v0 := view (fst (startDownload percent p))).
  assert (Hv0 : hidden v0 = hidden (showState PROGRESS (view p))) by reflexivity.
  split.
  - intros k s'.
    destruct (listen_progress percent (firstn k (messages work))
                (Forall_firstn _ k _ Hprog) v0) as [Hh _].
    rewrite Hh, Hv0. apply shows_showState.
  - rewrite listen_app. cbn [listen fold_left].
    destruct Hlast as [-> | [text ->]]; cbn [onMessage].
    + apply shows_showState.
    + split; [apply shows_showState | reflexivity].
Qed.

(** A capture whose second image cannot be fetched: the error panel. *)
Lemma popup_follows_capture_witness :
  exists (updates : list PopupMessage) (text : jsstring),
    popup_messages (snd (run (scripted second_image_fails) (startCapture 7 2) initial))
    = (updates ++ [CAPTURE_ERROR text])%list
    /\ shows (listen whole_percent (updates ++ [CAPTURE_ERROR text])
                     (view (fst (startDownload whole_percent (loaded blank))))) ERROR.
Proof.
  destruct (popup_follows_capture whole_percent (scripted second_image_fails) 7 2
              initial (loaded blank) eq_refl) as [updates [last [E [_ Hlast]]]].
  change (popup_messages initial) with (@nil PopupMessage) in E. cbn [app] in E.
  destruct last as [current total | | text].
  - destruct Hlast.
  - apply (f_equal (@rev PopupMessage)) in E.
    rewrite rev_app_distr in E. vm_compute in E. discriminate E.
  - exists updates, text. split; [exact E | apply Hlast].
Defined.



End PopupFacts.
